(** * fetch: page fetching and mirroring (src/index.ts)

    A shallow embedding of the command line tool of [src/index.ts]:
    [isValidUrl], [extractDomainName], [fetchAndParseURL], [mirror] and
    [main].  The asynchronous functions are written as programs over the
    operations they call (axios, puppeteer, fs, console, the URL
    constructor); an interpreter runs them against a file system and an
    oracle for the outside world, and a scheduler interleaves the jobs that
    [main] hands to [Promise.all]. *)

From Stdlib Require Import String Ascii List Bool Arith Lia.
From stdpp Require Import gmap strings list fin_maps.

Open Scope string_scope.

(** ** Strings *)

Definition startsWith (s pre : string) : bool := String.prefix pre s.

Definition is_empty (s : string) : bool :=
  match s with EmptyString => true | String _ _ => false end.

Definition ends_with_slash (s : string) : bool :=
  match rev (list_ascii_of_string s) with
  | c :: _ => Ascii.eqb c "/"
  | [] => false
  end.

Fixpoint drop_while {A} (f : A -> bool) (l : list A) : list A :=
  match l with
  | [] => []
  | x :: l' => if f x then drop_while f l' else l
  end.

(** ** Node's [path] module (POSIX flavour): [join], [normalize], [dirname] *)

Module Path.

(** [path.split('/')]: the segments between separators. *)
Fixpoint segments (s : string) : list string :=
  match s with
  | EmptyString => [EmptyString]
  | String c s' =>
      if Ascii.eqb c "/" then EmptyString :: segments s'
      else match segments s' with
           | seg :: rest => String c seg :: rest
           | [] => [String c EmptyString]
           end
  end.

(** [normalizeString]: drops empty and [.] segments and resolves [..]
    against the segment before it; [acc] holds the result so far, last
    segment first. *)
Fixpoint normalize_segments (allowAboveRoot : bool) (acc segs : list string)
  : list string :=
  match segs with
  | [] => rev acc
  | seg :: rest =>
      if is_empty seg || String.eqb seg "." then
        normalize_segments allowAboveRoot acc rest
      else if String.eqb seg ".." then
        match acc with
        | last :: acc' =>
            if String.eqb last ".." then
              normalize_segments allowAboveRoot
                (if allowAboveRoot then ".." :: acc else acc) rest
            else normalize_segments allowAboveRoot acc' rest
        | [] =>
            normalize_segments allowAboveRoot
              (if allowAboveRoot then [".."] else []) rest
        end
      else normalize_segments allowAboveRoot (seg :: acc) rest
  end.

Definition normalize (path : string) : string :=
  if is_empty path then "."
  else
    let isAbsolute := startsWith path "/" in
    let trailingSeparator := ends_with_slash path in
    let body :=
      String.concat "/"
        (normalize_segments (negb isAbsolute) [] (segments path)) in
    if is_empty body then
      if isAbsolute then "/" else if trailingSeparator then "./" else "."
    else
      let body := if trailingSeparator then body ++ "/" else body in
      if isAbsolute then "/" ++ body else body.

(** [path.join(a, b)]: empty arguments are skipped, the rest is joined
    with [/] and normalized. *)
Definition join (a b : string) : string :=
  match is_empty a, is_empty b with
  | true, true => "."
  | true, false => normalize b
  | false, true => normalize a
  | false, false => normalize (a ++ "/" ++ b)
  end.

(** [path.dirname]: scans from the end (never looking at index 0), skips
    trailing separators and the last segment, and cuts at the separator
    before it. *)
Definition dirname (path : string) : string :=
  match list_ascii_of_string path with
  | [] => "."
  | c0 :: tl =>
      let hasRoot := Ascii.eqb c0 "/" in
      let back := drop_while (fun c => negb (Ascii.eqb c "/"))
                    (drop_while (fun c => Ascii.eqb c "/") (rev tl)) in
      match back with
      | [] => if hasRoot then "/" else "."
      | _ :: _ =>
          let end_ := length back in
          if hasRoot && Nat.eqb end_ 1 then "//"
          else string_of_list_ascii (firstn end_ (c0 :: tl))
      end
  end.

End Path.

(** ** Values of the runtime *)

(** What a [throw] or a rejected promise carries. *)
Inductive JsError :=
| TypeError (msg : string)          (* [new URL]: invalid URL *)
| SystemError (code path : string)  (* [fs]: EACCES, EISDIR, ENOENT, ... *)
| ExternalError (msg : string).     (* rejections of axios and puppeteer *)

Inductive Result (A : Type) :=
| Ok (a : A)
| Err (e : JsError).
Arguments Ok {A} a.
Arguments Err {A} e.

Definition is_ok {A} (r : Result A) : bool :=
  match r with Ok _ => true | Err _ => false end.

(** The fields of a [URL] object that the program reads. *)
Record URL := mkURL { protocol : string; hostname : string; pathname : string }.

(** What [fs.writeFileSync] is given: a string (written as UTF-8) or a
    [Buffer]. *)
Inductive FileData :=
| Utf8 (s : string)
| Raw (b : list Byte.byte).

(** ** The file system *)

Inductive Node :=
| File (d : FileData)
| Dir.

Abbreviation FS := (gmap string Node).

Module Fs.

(** Trailing separators do not change which entry a path names. *)
Definition key (p : string) : string :=
  match drop_while (fun c => Ascii.eqb c "/") (rev (list_ascii_of_string p)) with
  | [] => if is_empty p then EmptyString else "/"
  | l => string_of_list_ascii (rev l)
  end.

Definition is_root (k : string) : bool :=
  String.eqb k "/" || String.eqb k "." || is_empty k.

(** The root and the working directory always exist. *)
Definition stat (fs : FS) (p : string) : option Node :=
  let k := key p in
  if String.eqb k "/" || String.eqb k "." then Some Dir else fs !! k.

Definition existsSync (fs : FS) (p : string) : bool :=
  match stat fs p with
  | Some Dir => true
  | Some (File _) => negb (ends_with_slash p)
  | None => false
  end.

(** [fs.writeFileSync(p, d)]: creates or truncates the file [p]; the
    directory that holds it must exist.  [denied] stands for what the
    model does not track (permissions, a full disk). *)
Definition writeFileSync (denied : string -> bool) (fs : FS)
    (p : string) (d : FileData) : Result unit * FS :=
  if is_empty p then (Err (SystemError "ENOENT" p), fs)
  else if ends_with_slash p then (Err (SystemError "EISDIR" p), fs)
  else
    match stat fs p with
    | Some Dir => (Err (SystemError "EISDIR" p), fs)
    | _ =>
        match stat fs (Path.dirname p) with
        | Some Dir =>
            if denied p then (Err (SystemError "EACCES" p), fs)
            else (Ok tt, <[p := File d]> fs)
        | Some (File _) => (Err (SystemError "ENOTDIR" p), fs)
        | None => (Err (SystemError "ENOENT" p), fs)
        end
    end.

(** [p] and the directories above it, nearest first, up to the root or
    the working directory. *)
Fixpoint ancestors (fuel : nat) (p : string) : list string :=
  match fuel with
  | 0 => []
  | S fuel' =>
      let k := key p in
      if is_root k then [] else k :: ancestors fuel' (Path.dirname k)
  end.

(** Creates the directories of [chain], outermost first, stopping at the
    first one that cannot be created. *)
Fixpoint mkdir_chain (denied : string -> bool) (fs : FS)
    (chain : list string) : Result unit * FS :=
  match chain with
  | [] => (Ok tt, fs)
  | q :: rest =>
      match fs !! q with
      | Some Dir => mkdir_chain denied fs rest
      | Some (File _) =>
          (Err (SystemError match rest with
                            | [] => "EEXIST"
                            | _ :: _ => "ENOTDIR"
                            end q), fs)
      | None =>
          if denied q then (Err (SystemError "EACCES" q), fs)
          else mkdir_chain denied (<[q := Dir]> fs) rest
      end
  end.

(** [fs.mkdirSync(p, { recursive: true })]. *)
Definition mkdirSync (denied : string -> bool) (fs : FS) (p : string)
  : Result unit * FS :=
  mkdir_chain denied fs (rev (ancestors (S (String.length p)) p)).

(** The content of the file at [p], if [p] is a file. *)
Definition readFile (fs : FS) (p : string) : option FileData :=
  match fs !! p with
  | Some (File d) => Some d
  | _ => None
  end.

End Fs.

(** ** The URL constructor

    [new URL(s)] is Node's implementation of the WHATWG URL parser.  The
    programs below take the parser from the environment ([url_parse] of a
    [World]), and the theorems that quantify over worlds hold for every
    parser.  [Whatwg.parse] is the parser on a fragment of its inputs, for
    the concrete scenarios: a scheme, then for [http], [https], [ws], [wss]
    and [ftp] a host that must not be empty and a path, and for other schemes
    an optional [//host] and a path taken as it stands.  It does not
    percent-encode, resolve dot segments, or check ports, and knows no IPv6
    or international host names. *)

Module Whatwg.

Definition is_alpha (c : ascii) : bool :=
  let n := nat_of_ascii c in
  (((65 <=? n) && (n <=? 90)) || ((97 <=? n) && (n <=? 122)))%nat.

Definition is_digit (c : ascii) : bool :=
  let n := nat_of_ascii c in ((48 <=? n) && (n <=? 57))%nat.

Definition is_scheme_char (c : ascii) : bool :=
  is_alpha c || is_digit c || Ascii.eqb c "+" || Ascii.eqb c "-"
  || Ascii.eqb c ".".

Definition lower (c : ascii) : ascii :=
  let n := nat_of_ascii c in
  if ((65 <=? n) && (n <=? 90))%nat then ascii_of_nat (n + 32) else c.

Fixpoint lowercase (s : string) : string :=
  match s with
  | EmptyString => EmptyString
  | String c s' => String (lower c) (lowercase s')
  end.

(** Splits [s] at the first character that satisfies [stop]. *)
Fixpoint span_until (stop : ascii -> bool) (s : string) : string * string :=
  match s with
  | EmptyString => (EmptyString, EmptyString)
  | String c s' =>
      if stop c then (EmptyString, s)
      else let '(a, b) := span_until stop s' in (String c a, b)
  end.

Fixpoint drop_slashes (s : string) : string :=
  match s with
  | String c s' =>
      if Ascii.eqb c "/" || Ascii.eqb c "\" then drop_slashes s' else s
  | EmptyString => EmptyString
  end.

Fixpoint string_forallb (f : ascii -> bool) (s : string) : bool :=
  match s with
  | EmptyString => true
  | String c s' => f c && string_forallb f s'
  end.

(** The scheme: a letter, then letters, digits, [+], [-] and [.], up to a
    colon.  Without it the input is relative, and there is no base. *)
Definition scheme_of (s : string) : option (string * string) :=
  match s with
  | String c _ =>
      if is_alpha c then
        match span_until (fun c => negb (is_scheme_char c)) s with
        | (scheme, String ":" rest) => Some (lowercase scheme, rest)
        | _ => None
        end
      else None
  | EmptyString => None
  end.

Definition is_special (scheme : string) : bool :=
  existsb (String.eqb scheme) ["http"; "https"; "ws"; "wss"; "ftp"].

Definition forbidden_host_char (c : ascii) : bool :=
  (nat_of_ascii c <=? 32)%nat
  || existsb (Ascii.eqb c) ["#"; "/"; "<"; ">"; "?"; "@"; "["; "\"; "]"; "^"; "|"; "%"]%char.

Definition ends_authority (c : ascii) : bool :=
  Ascii.eqb c "/" || Ascii.eqb c "\" || Ascii.eqb c "?" || Ascii.eqb c "#".

Definition ends_path (c : ascii) : bool :=
  Ascii.eqb c "?" || Ascii.eqb c "#".

(** The authority is [userinfo@host:port]; only the host is kept. *)
Definition host_of (authority : string) : string :=
  let after_at :=
    match span_until (fun c => Ascii.eqb c "@") authority with
    | (_, String _ rest) => rest
    | (_, EmptyString) => authority
    end in
  lowercase (fst (span_until (fun c => Ascii.eqb c ":") after_at)).

Definition parse (s : string) : option URL :=
  match scheme_of s with
  | None => None
  | Some (scheme, rest) =>
      if is_special scheme then
        let '(authority, tail) := span_until ends_authority (drop_slashes rest) in
        let host := host_of authority in
        let path := fst (span_until ends_path tail) in
        if is_empty host || negb (string_forallb (fun c => negb (forbidden_host_char c)) host)
        then None
        else Some (mkURL (scheme ++ ":") host (if is_empty path then "/" else path))
      else if startsWith rest "//" then
        let '(authority, tail) :=
          span_until ends_authority (substring 2 (String.length rest - 2) rest) in
        let host := host_of authority in
        if negb (string_forallb (fun c => negb (forbidden_host_char c)) host)
        then None
        else Some (mkURL (scheme ++ ":") host (fst (span_until ends_path tail)))
      else
        Some (mkURL (scheme ++ ":") EmptyString (fst (span_until ends_path rest)))
  end.

End Whatwg.

(** ** Operations of the program on its environment *)

Record SiteMetadata := mkSiteMetadata
  { site : string; num_links : nat; images : nat; last_fetch : string }.

(** The [$] that [cheerio.load] returns: [$(selector).length] and
    [$.html()]. *)
Record Cheerio := mkCheerio { select_length : string -> nat; html : string }.

Record Browser := mkBrowser { browser_id : nat }.
Record Page := mkPage { page_id : nat }.
Record HTTPResponse := mkResponse { response_id : nat }.

(** The elements that [querySelectorAll('img, link[rel="stylesheet"],
    script')] yields, with the attribute that the callback reads. *)
Inductive Element :=
| HTMLImageElement (src : string)
| HTMLLinkElement (href : string)
| HTMLScriptElement (src : string)
| OtherElement.

(** One constructor for each line that the program prints. *)
Inductive Msg :=
| InvalidUrlSkipped (url : string)
| ProcessingUrl (url : string)
| DataFetched (url : string)
| Metadata (m : SiteMetadata)
| ContentSaved (filename : string)
| ErrorWhileFetching (url : string) (error : JsError)
| StartingMirroring (url : string)
| PageLoaded (url : string)
| DirectoryCreated (dirPath : string)
| MainContentSaved (indexPath : string)
| SkippingInvalidAsset (assetUrl : string)
| AssetSaved (assetPath : string)
| NoResponseForAsset (assetUrl : string)
| FailedToDownloadAsset (assetUrl : string) (error : JsError)
| MirroringCompleted (url : string)
| StartingProcessing (urls : list string)
| StartingMirroringProcess
| MirroringProcessCompleted.

(** Calls that return a promise; the program suspends at each of them. *)
Inductive Ext : Type -> Type :=
| AxiosGet (url : string) : Ext string
| PuppeteerLaunch : Ext Browser
| BrowserNewPage (b : Browser) : Ext Page
| PageGoto (p : Page) (url : string) (networkidle0 : bool)
    : Ext (option HTTPResponse)
| PageContent (p : Page) : Ext string
| PageQueryAssets (p : Page) : Ext (list Element)
| ResponseBuffer (r : HTTPResponse) : Ext (list Byte.byte)
| BrowserClose (b : Browser) : Ext unit.

(** Synchronous calls. *)
Inductive Sys : Type -> Type :=
| ConsoleLog (m : Msg) : Sys unit
| ConsoleError (m : Msg) : Sys unit
| NewURL (s : string) : Sys URL
| CheerioLoad (data : string) : Sys Cheerio
| DateNowUTC : Sys string
| ExistsSync (p : string) : Sys bool
| MkdirSync (p : string) : Sys unit
| WriteFileSync (p : string) (d : FileData) : Sys unit.

Inductive Op (X : Type) : Type :=
| Await (e : Ext X)
| Call (s : Sys X).
Arguments Await {X} e.
Arguments Call {X} s.

(** ** Programs

    A program returns, throws, or performs an operation and goes on with
    its result, which is a value or an exception. *)

Inductive Prog (A : Type) : Type :=
| Ret (a : A)
| Throw (e : JsError)
| Do {X : Type} (op : Op X) (k : Result X -> Prog A).
Arguments Ret {A} a.
Arguments Throw {A} e.
Arguments Do {A X} op k.

Fixpoint bind {A B} (p : Prog A) (f : A -> Prog B) : Prog B :=
  match p with
  | Ret a => f a
  | Throw e => Throw e
  | Do op k => Do op (fun r => bind (k r) f)
  end.

(** [try { body } catch (error) { handler }] *)
Fixpoint try_catch {A} (body : Prog A) (handler : JsError -> Prog A) : Prog A :=
  match body with
  | Ret a => Ret a
  | Throw e => handler e
  | Do op k => Do op (fun r => try_catch (k r) handler)
  end.

Definition lift {X} (r : Result X) : Prog X :=
  match r with
  | Ok x => Ret x
  | Err e => Throw e
  end.

Definition perform {X} (op : Op X) : Prog X := Do op lift.
Definition await {X} (e : Ext X) : Prog X := perform (Await e).
Definition call {X} (s : Sys X) : Prog X := perform (Call s).

(** [for (const x of l) { body x }] *)
Fixpoint for_of {X} (l : list X) (body : X -> Prog unit) : Prog unit :=
  match l with
  | [] => Ret tt
  | x :: l' => bind (body x) (fun _ => for_of l' body)
  end.

Declare Scope prog_scope.
Delimit Scope prog_scope with prog.
Notation "x <- p ;; q" := (bind p (fun x => q))
  (at level 100, p at next level, right associativity) : prog_scope.
Notation "p ;; q" := (bind p (fun _ => q))
  (at level 100, right associativity) : prog_scope.
Open Scope prog_scope.

(** ** The program *)

Section Program.

(** [process.env.OUTPUT_DIRECTORY ?? os.homedir()] *)
Variable outputDirectory : string.

Definition isValidUrl (urlString : string) : Prog bool :=
  if is_empty urlString then Ret false
  else try_catch (call (NewURL urlString);; Ret true) (fun error => Ret false).

Definition extractDomainName (url : string) : Prog string :=
  urlObj <- call (NewURL url);; Ret (hostname urlObj).

Definition fetchAndParseURL (url : string) (metadata : bool) : Prog unit :=
  valid <- isValidUrl url;;
  if negb valid then call (ConsoleLog (InvalidUrlSkipped url))
  else
    call (ConsoleLog (ProcessingUrl url));;
    try_catch
      (data <- await (AxiosGet url);;
       call (ConsoleLog (DataFetched url));;
       cheerio <- call (CheerioLoad data);;
       (if metadata then
          now <- call DateNowUTC;;
          call (ConsoleLog (Metadata
            {| site := url;
               num_links := select_length cheerio "a";
               images := select_length cheerio "img";
               last_fetch := now |}))
        else Ret tt);;
       domain <- extractDomainName url;;
       let filename := Path.join outputDirectory (domain ++ ".html") in
       call (WriteFileSync filename (Utf8 (html cheerio)));;
       call (ConsoleLog (ContentSaved filename)))
      (fun error => call (ConsoleError (ErrorWhileFetching url error))).

(** The callback of [page.evaluate]: an element contributes the URL of
    its [src] or [href] when that is not empty. *)
Definition asset_of (element : Element) : option string :=
  match element with
  | HTMLImageElement src => if is_empty src then None else Some src
  | HTMLLinkElement href => if is_empty href then None else Some href
  | HTMLScriptElement src => if is_empty src then None else Some src
  | OtherElement => None
  end.

Definition discover (elements : list Element) : list string :=
  omap asset_of elements.

Definition is_http (assetUrl : string) : bool :=
  startsWith assetUrl "http://" || startsWith assetUrl "https://".

(** The body of the loop over [assets]. *)
Definition mirror_asset (page : Page) (dirPath assetUrl : string) : Prog unit :=
  if negb (startsWith assetUrl "http://") && negb (startsWith assetUrl "https://")
  then call (ConsoleError (SkippingInvalidAsset assetUrl))
  else
    try_catch
      (response <- await (PageGoto page assetUrl false);;
       match response with
       | Some response =>
           buffer <- await (ResponseBuffer response);;
           assetUrlObj <- call (NewURL assetUrl);;
           let assetPath := Path.join dirPath (pathname assetUrlObj) in
           call (MkdirSync (Path.dirname assetPath));;
           call (WriteFileSync assetPath (Raw buffer));;
           call (ConsoleLog (AssetSaved assetPath))
       | None => call (ConsoleError (NoResponseForAsset assetUrl))
       end)
      (fun error => call (ConsoleError (FailedToDownloadAsset assetUrl error))).

Definition mirror (url : string) : Prog unit :=
  call (ConsoleLog (StartingMirroring url));;
  browser <- await PuppeteerLaunch;;
  page <- await (BrowserNewPage browser);;
  await (PageGoto page url true);;
  call (ConsoleLog (PageLoaded url));;
  content <- await (PageContent page);;
  urlObj <- call (NewURL url);;
  let dirPath := Path.join outputDirectory (hostname urlObj) in
  dirExists <- call (ExistsSync dirPath);;
  (if negb dirExists then
     call (MkdirSync dirPath);;
     call (ConsoleLog (DirectoryCreated dirPath))
   else Ret tt);;
  let indexPath := Path.join dirPath "index.html" in
  call (WriteFileSync indexPath (Utf8 content));;
  call (ConsoleLog (MainContentSaved indexPath));;
  elements <- await (PageQueryAssets page);;
  let assets := discover elements in
  for_of assets (mirror_asset page dirPath);;
  await (BrowserClose browser);;
  call (ConsoleLog (MirroringCompleted url)).

End Program.

(** ** The environment and the interpreter *)

(** Who performs an operation: [main], or the job that [main] started for
    the URL at index [i]. *)
Inductive Tid :=
| TMain
| TFetch (i : nat)
| TMirror (i : nat).

(** The outside world: what each call answers to the [n]-th operation of a
    job.  [fs_denied] stands for the file system errors that the model of
    [Fs] does not derive from its state. *)
Record World := mkWorld
  { url_parse : string -> option URL;
    cheerio_load : string -> Result Cheerio;
    utc_now : Tid -> nat -> string;
    fs_denied : Tid -> nat -> string -> bool;
    answer : forall X, Tid -> nat -> Ext X -> Result X }.

Inductive Event :=
| Ev {X : Type} (op : Op X) (r : Result X).

Definition exec_sys (w : World) (t : Tid) (n : nat) (fs : FS) {X} (s : Sys X)
  : Result X * FS :=
  match s in Sys X return Result X * FS with
  | ConsoleLog _ => (Ok tt, fs)
  | ConsoleError _ => (Ok tt, fs)
  | NewURL s =>
      (match url_parse w s with
       | Some u => Ok u
       | None => Err (TypeError "Invalid URL")
       end, fs)
  | CheerioLoad data => (cheerio_load w data, fs)
  | DateNowUTC => (Ok (utc_now w t n), fs)
  | ExistsSync p => (Ok (Fs.existsSync fs p), fs)
  | MkdirSync p => Fs.mkdirSync (fs_denied w t n) fs p
  | WriteFileSync p d => Fs.writeFileSync (fs_denied w t n) fs p d
  end.

Definition exec (w : World) (t : Tid) (n : nat) (fs : FS) {X} (op : Op X)
  : Result X * FS :=
  match op with
  | Await e => (answer w X t n e, fs)
  | Call s => exec_sys w t n fs s
  end.

(** Runs a program to its end: the final file system, the operations
    performed with their results, and the outcome. *)
Fixpoint run {A} (w : World) (t : Tid) (n : nat) (fs : FS) (p : Prog A)
  : FS * list Event * Result A :=
  match p with
  | Ret a => (fs, [], Ok a)
  | Throw e => (fs, [], Err e)
  | Do op k =>
      let '(r, fs1) := exec w t n fs op in
      let '(fs2, evs, res) := run w t (S n) fs1 (k r) in
      (fs2, Ev op r :: evs, res)
  end.

(** The console, [fs.existsSync] and [Date] do not throw. *)
Definition admissible {X} (op : Op X) (r : Result X) : Prop :=
  match op with
  | Call (ConsoleLog _) | Call (ConsoleError _) | Call (ExistsSync _)
  | Call DateNowUTC => is_ok r = true
  | _ => True
  end.

(** The executions that a program allows, whatever the environment
    answers. *)
Fixpoint path {A} (p : Prog A) (evs : list Event) (res : Result A) : Prop :=
  match p with
  | Ret a => evs = [] /\ res = Ok a
  | Throw e => evs = [] /\ res = Err e
  | Do op k =>
      exists r evs', admissible op r /\ evs = Ev op r :: evs' /\ path (k r) evs' res
  end.

(** ** What a trace shows *)

Definition ext_of {R} (f : forall X, Ext X -> Result X -> option R) (ev : Event)
  : option R :=
  match ev with
  | Ev (Await e) r => f _ e r
  | Ev (Call _) _ => None
  end.

Definition sys_of {R} (f : forall X, Sys X -> Result X -> option R) (ev : Event)
  : option R :=
  match ev with
  | Ev (Call s) r => f _ s r
  | Ev (Await _) _ => None
  end.

(** The URLs that [page.goto] was called on for an asset. *)
Definition asset_gotos : list Event -> list string :=
  omap (ext_of (fun X e _ =>
    match e with
    | PageGoto _ url false => Some url
    | _ => None
    end)).

(** The URLs that [page.goto] was called on to render a page. *)
Definition navigations : list Event -> list string :=
  omap (ext_of (fun X e _ =>
    match e with
    | PageGoto _ url true => Some url
    | _ => None
    end)).

(** The calls of [puppeteer.launch]. *)
Definition is_launch : Event -> option unit :=
  ext_of (fun X e _ =>
    match e with
    | PuppeteerLaunch => Some tt
    | _ => None
    end).

Definition launches : list Event -> list unit := omap is_launch.

(** The browsers that [puppeteer.launch] returned. *)
Definition launched : list Event -> list Browser :=
  omap (ext_of (fun X e =>
    match e in Ext X return Result X -> option Browser with
    | PuppeteerLaunch => fun r => match r with Ok b => Some b | Err _ => None end
    | _ => fun _ => None
    end)).

(** The browsers that [newPage] was called on. *)
Definition pages_opened : list Event -> list Browser :=
  omap (ext_of (fun X e _ =>
    match e with
    | BrowserNewPage b => Some b
    | _ => None
    end)).

(** The browsers that [close] was called on. *)
Definition closed : list Event -> list Browser :=
  omap (ext_of (fun X e _ =>
    match e with
    | BrowserClose b => Some b
    | _ => None
    end)).

(** The elements that [page.evaluate] returned. *)
Definition queried : list Event -> list (list Element) :=
  omap (ext_of (fun X e =>
    match e in Ext X return Result X -> option (list Element) with
    | PageQueryAssets _ => fun r => match r with Ok l => Some l | Err _ => None end
    | _ => fun _ => None
    end)).

(** The files written, with their content, in order. *)
Definition writes : list Event -> list (string * FileData) :=
  omap (sys_of (fun X s r =>
    match s with
    | WriteFileSync p d => if is_ok r then Some (p, d) else None
    | _ => None
    end)).

(** The lines printed with [console.log] and with [console.error]. *)
Definition logged : list Event -> list Msg :=
  omap (sys_of (fun X s _ =>
    match s with
    | ConsoleLog m => Some m
    | _ => None
    end)).

Definition errors : list Event -> list Msg :=
  omap (sys_of (fun X s _ =>
    match s with
    | ConsoleError m => Some m
    | _ => None
    end)).

(** The events of one job in the trace of a pool. *)
Definition Tid_eqb (a b : Tid) : bool :=
  match a, b with
  | TMain, TMain => true
  | TFetch i, TFetch j => Nat.eqb i j
  | TMirror i, TMirror j => Nat.eqb i j
  | _, _ => false
  end.

Definition events_of (t : Tid) (tr : list (Tid * Event)) : list Event :=
  omap (fun '(t', ev) => if Tid_eqb t t' then Some ev else None) tr.

Definition all_events (tr : list (Tid * Event)) : list Event := map snd tr.

(** ** Jobs that run concurrently

    An [async] function runs until its first [await] when it is called, and
    from one [await] to the next each time it is resumed; nothing else runs
    in between.  [Promise.all] is fulfilled when every job is, and rejected
    as soon as one job is; the other jobs go on. *)

Record Job := mkJob { job_tid : Tid; job_ops : nat; job_prog : Prog unit }.

Record Pool := mkPool
  { pool_fs : FS;
    pool_trace : list (Tid * Event);
    pool_jobs : list Job;
    pool_rejected : option JsError }.

(** Runs the synchronous operations at the head of a program. *)
Fixpoint settle {A} (w : World) (t : Tid) (n : nat) (fs : FS) (p : Prog A)
  : FS * list Event * nat * Prog A :=
  match p with
  | Do (Call s) k =>
      let '(r, fs1) := exec_sys w t n fs s in
      let '(fs2, evs, n2, p2) := settle w t (S n) fs1 (k r) in
      (fs2, Ev (Call s) r :: evs, n2, p2)
  | _ => (fs, [], n, p)
  end.

(** Completes the pending [await] of a program and runs it to the next. *)
Definition resume {A} (w : World) (t : Tid) (n : nat) (fs : FS) (p : Prog A)
  : FS * list Event * nat * Prog A :=
  match p with
  | Do (Await e) k =>
      let r := answer w _ t n e in
      let '(fs2, evs, n2, p2) := settle w t (S n) fs (k r) in
      (fs2, Ev (Await e) r :: evs, n2, p2)
  | _ => settle w t n fs p
  end.

Definition rejection {A} (p : Prog A) : option JsError :=
  match p with
  | Throw e => Some e
  | _ => None
  end.

Definition first_rejection (seen new : option JsError) : option JsError :=
  match seen with
  | Some e => Some e
  | None => new
  end.

Definition tag (t : Tid) (evs : list Event) : list (Tid * Event) :=
  map (pair t) evs.

(** Calling an [async] function: it runs to its first [await]. *)
Definition spawn (w : World) (pool : Pool) (t : Tid) (p : Prog unit) : Pool :=
  let '(fs, evs, n, p') := settle w t 0 (pool_fs pool) p in
  {| pool_fs := fs;
     pool_trace := (pool_trace pool ++ tag t evs)%list;
     pool_jobs := (pool_jobs pool ++ [mkJob t n p'])%list;
     pool_rejected := first_rejection (pool_rejected pool) (rejection p') |}.

(** The event loop resumes job [i]. *)
Definition step (w : World) (pool : Pool) (i : nat) : Pool :=
  match pool_jobs pool !! i with
  | None => pool
  | Some (mkJob t n p) =>
      let '(fs, evs, n', p') := resume w t n (pool_fs pool) p in
      {| pool_fs := fs;
         pool_trace := (pool_trace pool ++ tag t evs)%list;
         pool_jobs := <[i := mkJob t n' p']> (pool_jobs pool);
         pool_rejected := first_rejection (pool_rejected pool) (rejection p') |}
  end.

(** Job [i] runs to its end without another job in between. *)
Definition finish (w : World) (pool : Pool) (i : nat) : Pool :=
  match pool_jobs pool !! i with
  | None => pool
  | Some (mkJob t n p) =>
      let '(fs, evs, res) := run w t n (pool_fs pool) p in
      let p' := lift res in
      {| pool_fs := fs;
         pool_trace := (pool_trace pool ++ tag t evs)%list;
         pool_jobs := <[i := mkJob t (n + length evs) p']> (pool_jobs pool);
         pool_rejected := first_rejection (pool_rejected pool) (rejection p') |}
  end.

(** [await Promise.all(l.map(f))]: the jobs are started in order, resumed
    as [schedule] says, and those that are left then run to their end, so
    that every interleaving is the run of some schedule. *)
Definition promise_all (w : World) (fs : FS) (jobs : list (Tid * Prog unit))
    (schedule : list nat) : Pool :=
  let started :=
    fold_left (fun pool '(t, p) => spawn w pool t p) jobs
      (mkPool fs [] [] None) in
  let scheduled := fold_left (step w) schedule started in
  fold_left (finish w) (seq 0 (length jobs)) scheduled.

Definition imap_jobs (mk : nat -> Tid) (f : string -> Prog unit)
    (urls : list string) : list (Tid * Prog unit) :=
  imap (fun i url => (mk i, f url)) urls.

Section Main.

Variable outputDirectory : string.

(** [argv]: the positional arguments and the two flags. *)
Record Argv := mkArgv
  { argv_urls : list string; argv_metadata : bool; argv_mirror : bool }.

Definition main_log (m : Msg) : list (Tid * Event) :=
  [(TMain, Ev (Call (ConsoleLog m)) (Ok tt))].

(** [main]: the file system and the operations of all jobs at the end,
    with the state of the promise that [main()] returns. *)
Definition main (w : World) (argv : Argv) (fetchSchedule mirrorSchedule : list nat)
    (fs : FS) : FS * list (Tid * Event) * Result unit :=
  let urls := argv_urls argv in
  let tr0 := main_log (StartingProcessing urls) in
  let fetched :=
    promise_all w fs
      (imap_jobs TFetch
         (fun url => fetchAndParseURL outputDirectory url (argv_metadata argv)) urls)
      fetchSchedule in
  let tr1 := (tr0 ++ pool_trace fetched)%list in
  match pool_rejected fetched with
  | Some e => (pool_fs fetched, tr1, Err e)
  | None =>
      if argv_mirror argv then
        let mirrored :=
          promise_all w (pool_fs fetched)
            (imap_jobs TMirror (mirror outputDirectory) urls) mirrorSchedule in
        let tr2 :=
          (tr1 ++ main_log StartingMirroringProcess ++ pool_trace mirrored)%list in
        match pool_rejected mirrored with
        | Some e => (pool_fs mirrored, tr2, Err e)
        | None =>
            (pool_fs mirrored, (tr2 ++ main_log MirroringProcessCompleted)%list, Ok tt)
        end
      else (pool_fs fetched, tr1, Ok tt)
  end.

End Main.

(** ** A world made of tables

    For the concrete scenarios: the pages that render, with their content
    and the elements that the selector finds, and what fetching a resource
    gives.  Every URL outside the tables fails to load. *)

Module Web.

Inductive Fetched :=
| Body (b : list Byte.byte)
| NoResponse
| NetworkError.

Record t := mk
  { pages : list (string * (string * list Element));
    resources : list (string * Fetched) }.

Fixpoint assoc {V} (l : list (string * V)) (k : string) : option V :=
  match l with
  | [] => None
  | (k', v) :: l' => if String.eqb k k' then Some v else assoc l' k
  end.

Fixpoint index_of {V} (l : list (string * V)) (k : string) : option nat :=
  match l with
  | [] => None
  | (k', _) :: l' =>
      if String.eqb k k' then Some 0 else option_map S (index_of l' k)
  end.

Definition job_url (urls : list string) (t : Tid) : option string :=
  match t with
  | TMain => None
  | TFetch i => urls !! i
  | TMirror i => urls !! i
  end.

Definition job_index (t : Tid) : nat :=
  match t with
  | TMain => 0
  | TFetch i => i
  | TMirror i => i
  end.

Definition page_of (web : t) (urls : list string) (tid : Tid)
  : option (string * list Element) :=
  match job_url urls tid with
  | Some url => assoc (pages web) url
  | None => None
  end.

Definition respond (web : t) (urls : list string) (X : Type) (tid : Tid)
    (n : nat) (e : Ext X) : Result X :=
  match e in Ext X return Result X with
  | AxiosGet url =>
      match assoc (pages web) url with
      | Some (content, _) => Ok content
      | None => Err (ExternalError "getaddrinfo ENOTFOUND")
      end
  | PuppeteerLaunch => Ok (mkBrowser (job_index tid))
  | BrowserNewPage b => Ok (mkPage (browser_id b))
  | PageGoto _ url true =>
      match Whatwg.parse url, assoc (pages web) url with
      | None, _ => Err (ExternalError "Cannot navigate to invalid URL")
      | Some _, Some _ => Ok None
      | Some _, None => Err (ExternalError "net::ERR_NAME_NOT_RESOLVED")
      end
  | PageGoto _ url false =>
      match assoc (resources web) url, index_of (resources web) url with
      | Some (Body _), Some i => Ok (Some (mkResponse i))
      | Some NoResponse, _ => Ok None
      | _, _ => Err (ExternalError "net::ERR_FAILED")
      end
  | PageContent _ =>
      match page_of web urls tid with
      | Some (content, _) => Ok content
      | None => Err (ExternalError "Execution context was destroyed")
      end
  | PageQueryAssets _ =>
      match page_of web urls tid with
      | Some (_, elements) => Ok elements
      | None => Err (ExternalError "Execution context was destroyed")
      end
  | ResponseBuffer r =>
      match resources web !! response_id r with
      | Some (_, Body b) => Ok b
      | _ => Err (ExternalError "Could not load body for this request")
      end
  | BrowserClose _ => Ok tt
  end.

Definition world (web : t) (urls : list string) : World :=
  {| url_parse := Whatwg.parse;
     cheerio_load := fun data => Ok (mkCheerio (fun _ => 0) data);
     utc_now := fun _ _ => "Thu, 01 Jan 1970 00:00:00 GMT";
     fs_denied := fun _ _ _ => false;
     answer := respond web urls |}.

End Web.

(** ** The validator, as a function of the world *)

Definition parses (w : World) (s : string) : bool :=
  match url_parse w s with
  | Some _ => true
  | None => false
  end.

(** What [isValidUrl(s)] gives when it is called on its own. *)
Definition validates (w : World) (s : string) : Result bool :=
  (run w TMain 0 ∅ (isValidUrl s)).2.

(** The validator in the words of the specification: the string parses as
    a URL, with a scheme and an authority. *)
Definition spec_isValidUrl (w : World) (s : string) : bool :=
  match url_parse w s with
  | Some u => negb (is_empty (protocol u)) && negb (is_empty (hostname u))
  | None => false
  end.

(** A world in which nothing can be reached; its parser is [Whatwg.parse]. *)
Definition offline : World := Web.world (Web.mk [] []) [].

(** ** How one asset is handled

    The ways through the body of the loop, with the operations of each. *)

Inductive AssetOutcome :=
| Skipped
| GotoFailed (e : JsError)
| NoResponse
| BufferFailed (response : HTTPResponse) (e : JsError)
| UrlFailed (response : HTTPResponse) (buffer : list Byte.byte) (e : JsError)
| MkdirFailed (response : HTTPResponse) (buffer : list Byte.byte)
    (assetUrlObj : URL) (e : JsError)
| WriteFailed (response : HTTPResponse) (buffer : list Byte.byte)
    (assetUrlObj : URL) (e : JsError)
| Saved (response : HTTPResponse) (buffer : list Byte.byte) (assetUrlObj : URL).

Definition console_log (m : Msg) : Event := Ev (Call (ConsoleLog m)) (Ok tt).
Definition console_error (m : Msg) : Event := Ev (Call (ConsoleError m)) (Ok tt).

Definition asset_events (page : Page) (dirPath assetUrl : string)
    (o : AssetOutcome) : list Event :=
  let goto := Ev (Await (PageGoto page assetUrl false)) in
  let failed e := console_error (FailedToDownloadAsset assetUrl e) in
  let assetPath u := Path.join dirPath (pathname u) in
  match o with
  | Skipped => [console_error (SkippingInvalidAsset assetUrl)]
  | GotoFailed e => [goto (Err e); failed e]
  | NoResponse => [goto (Ok None); console_error (NoResponseForAsset assetUrl)]
  | BufferFailed response e =>
      [goto (Ok (Some response)); Ev (Await (ResponseBuffer response)) (Err e);
       failed e]
  | UrlFailed response buffer e =>
      [goto (Ok (Some response)); Ev (Await (ResponseBuffer response)) (Ok buffer);
       Ev (Call (NewURL assetUrl)) (Err e); failed e]
  | MkdirFailed response buffer u e =>
      [goto (Ok (Some response)); Ev (Await (ResponseBuffer response)) (Ok buffer);
       Ev (Call (NewURL assetUrl)) (Ok u);
       Ev (Call (MkdirSync (Path.dirname (assetPath u)))) (Err e); failed e]
  | WriteFailed response buffer u e =>
      [goto (Ok (Some response)); Ev (Await (ResponseBuffer response)) (Ok buffer);
       Ev (Call (NewURL assetUrl)) (Ok u);
       Ev (Call (MkdirSync (Path.dirname (assetPath u)))) (Ok tt);
       Ev (Call (WriteFileSync (assetPath u) (Raw buffer))) (Err e); failed e]
  | Saved response buffer u =>
      [goto (Ok (Some response)); Ev (Await (ResponseBuffer response)) (Ok buffer);
       Ev (Call (NewURL assetUrl)) (Ok u);
       Ev (Call (MkdirSync (Path.dirname (assetPath u)))) (Ok tt);
       Ev (Call (WriteFileSync (assetPath u) (Raw buffer))) (Ok tt);
       console_log (AssetSaved (assetPath u))]
  end.

Definition is_skipped (o : AssetOutcome) : bool :=
  match o with Skipped => true | _ => false end.

Definition is_saved (o : AssetOutcome) : bool :=
  match o with Saved _ _ _ => true | _ => false end.

(** The operations of the loop over [assets], given how each one went. *)
Fixpoint loop_events (page : Page) (dirPath : string) (assets : list string)
    (outcomes : list AssetOutcome) : list Event :=
  match assets, outcomes with
  | assetUrl :: assets', o :: outcomes' =>
      (asset_events page dirPath assetUrl o
       ++ loop_events page dirPath assets' outcomes')%list
  | _, _ => []
  end.

(** Each asset has an outcome, and it is skipped when it is not http(s). *)
Fixpoint outcomes_fit (assets : list string) (outcomes : list AssetOutcome) : Prop :=
  match assets, outcomes with
  | [], [] => True
  | assetUrl :: assets', o :: outcomes' =>
      is_skipped o = negb (is_http assetUrl) /\ outcomes_fit assets' outcomes'
  | _, _ => False
  end.

(** ** How one page is handled

    How far [mirror] gets before the loop, with the operations up to
    there. *)

Inductive PageOutcome :=
| LaunchFailed (e : JsError)
| NewPageFailed (browser : Browser) (e : JsError)
| PageGotoFailed (browser : Browser) (page : Page) (e : JsError)
| ContentFailed (browser : Browser) (page : Page) (nav : option HTTPResponse)
    (e : JsError)
| PageUrlFailed (browser : Browser) (page : Page) (nav : option HTTPResponse)
    (content : string) (e : JsError)
| PageMkdirFailed (browser : Browser) (page : Page) (nav : option HTTPResponse)
    (content : string) (urlObj : URL) (e : JsError)
| IndexWriteFailed (browser : Browser) (page : Page) (nav : option HTTPResponse)
    (content : string) (urlObj : URL) (dirExists : bool) (e : JsError)
| QueryFailed (browser : Browser) (page : Page) (nav : option HTTPResponse)
    (content : string) (urlObj : URL) (dirExists : bool) (e : JsError)
| Rendered (browser : Browser) (page : Page) (nav : option HTTPResponse)
    (content : string) (urlObj : URL) (dirExists : bool)
    (elements : list Element).

Section Outcomes.

Variable outputDirectory : string.
Variable url : string.

Definition dir_path (urlObj : URL) : string :=
  Path.join outputDirectory (hostname urlObj).

Definition index_path (urlObj : URL) : string :=
  Path.join (dir_path urlObj) "index.html".

Definition loaded_events (browser : Browser) (page : Page)
    (nav : option HTTPResponse) : list Event :=
  [console_log (StartingMirroring url);
   Ev (Await PuppeteerLaunch) (Ok browser);
   Ev (Await (BrowserNewPage browser)) (Ok page);
   Ev (Await (PageGoto page url true)) (Ok nav);
   console_log (PageLoaded url)].

Definition dir_events (urlObj : URL) (dirExists : bool) : list Event :=
  Ev (Call (ExistsSync (dir_path urlObj))) (Ok dirExists)
  :: if dirExists then []
     else [Ev (Call (MkdirSync (dir_path urlObj))) (Ok tt);
           console_log (DirectoryCreated (dir_path urlObj))].

Definition saved_events (browser : Browser) (page : Page)
    (nav : option HTTPResponse) (content : string) (urlObj : URL)
    (dirExists : bool) : list Event :=
  (loaded_events browser page nav
   ++ [Ev (Await (PageContent page)) (Ok content);
       Ev (Call (NewURL url)) (Ok urlObj)]
   ++ dir_events urlObj dirExists
   ++ [Ev (Call (WriteFileSync (index_path urlObj) (Utf8 content))) (Ok tt);
       console_log (MainContentSaved (index_path urlObj))])%list.

Definition page_events (o : PageOutcome) : list Event :=
  match o with
  | LaunchFailed e =>
      [console_log (StartingMirroring url); Ev (Await PuppeteerLaunch) (Err e)]
  | NewPageFailed browser e =>
      [console_log (StartingMirroring url);
       Ev (Await PuppeteerLaunch) (Ok browser);
       Ev (Await (BrowserNewPage browser)) (Err e)]
  | PageGotoFailed browser page e =>
      [console_log (StartingMirroring url);
       Ev (Await PuppeteerLaunch) (Ok browser);
       Ev (Await (BrowserNewPage browser)) (Ok page);
       Ev (Await (PageGoto page url true)) (Err e)]
  | ContentFailed browser page nav e =>
      (loaded_events browser page nav
       ++ [Ev (Await (PageContent page)) (Err e)])%list
  | PageUrlFailed browser page nav content e =>
      (loaded_events browser page nav
       ++ [Ev (Await (PageContent page)) (Ok content);
           Ev (Call (NewURL url)) (Err e)])%list
  | PageMkdirFailed browser page nav content urlObj e =>
      (loaded_events browser page nav
       ++ [Ev (Await (PageContent page)) (Ok content);
           Ev (Call (NewURL url)) (Ok urlObj);
           Ev (Call (ExistsSync (dir_path urlObj))) (Ok false);
           Ev (Call (MkdirSync (dir_path urlObj))) (Err e)])%list
  | IndexWriteFailed browser page nav content urlObj dirExists e =>
      (loaded_events browser page nav
       ++ [Ev (Await (PageContent page)) (Ok content);
           Ev (Call (NewURL url)) (Ok urlObj)]
       ++ dir_events urlObj dirExists
       ++ [Ev (Call (WriteFileSync (index_path urlObj) (Utf8 content))) (Err e)])%list
  | QueryFailed browser page nav content urlObj dirExists e =>
      (saved_events browser page nav content urlObj dirExists
       ++ [Ev (Await (PageQueryAssets page)) (Err e)])%list
  | Rendered browser page nav content urlObj dirExists elements =>
      (saved_events browser page nav content urlObj dirExists
       ++ [Ev (Await (PageQueryAssets page)) (Ok elements)])%list
  end.

Definition page_error (o : PageOutcome) : option JsError :=
  match o with
  | LaunchFailed e | NewPageFailed _ e | PageGotoFailed _ _ e
  | ContentFailed _ _ _ e | PageUrlFailed _ _ _ _ e
  | PageMkdirFailed _ _ _ _ _ e | IndexWriteFailed _ _ _ _ _ _ e
  | QueryFailed _ _ _ _ _ _ e => Some e
  | Rendered _ _ _ _ _ _ _ => None
  end.

(** The browser of the job, once it is launched. *)
Definition page_browser (o : PageOutcome) : option Browser :=
  match o with
  | LaunchFailed _ => None
  | NewPageFailed browser _ | PageGotoFailed browser _ _
  | ContentFailed browser _ _ _ | PageUrlFailed browser _ _ _ _
  | PageMkdirFailed browser _ _ _ _ _ | IndexWriteFailed browser _ _ _ _ _ _
  | QueryFailed browser _ _ _ _ _ _ | Rendered browser _ _ _ _ _ _ =>
      Some browser
  end.

(** The assets of a rendered page. *)
Definition page_assets (o : PageOutcome) : list string :=
  match o with
  | Rendered _ _ _ _ _ _ elements => discover elements
  | _ => []
  end.

Definition close_events (browser : Browser) (closing : Result unit)
  : list Event :=
  Ev (Await (BrowserClose browser)) closing
  :: match closing with
     | Ok _ => [console_log (MirroringCompleted url)]
     | Err _ => []
     end.

(** The operations of a whole job: the page, then the assets one after
    the other, then the browser is closed. *)
Definition mirror_events (o : PageOutcome) (outcomes : list AssetOutcome)
    (closing : Result unit) : list Event :=
  match o with
  | Rendered browser page _ _ urlObj _ elements =>
      (page_events o
       ++ loop_events page (dir_path urlObj) (discover elements) outcomes
       ++ close_events browser closing)%list
  | _ => page_events o
  end.

Definition mirror_result (o : PageOutcome) (closing : Result unit)
  : Result unit :=
  match page_error o with
  | Some e => Err e
  | None => closing
  end.

End Outcomes.

(** What handling an asset writes, and what it reports on [console.error]. *)
Definition asset_written (dirPath : string) (o : AssetOutcome)
  : option (string * FileData) :=
  match o with
  | Saved _ buffer u => Some (Path.join dirPath (pathname u), Raw buffer)
  | _ => None
  end.

Definition asset_report (assetUrl : string) (o : AssetOutcome) : option Msg :=
  match o with
  | Skipped => Some (SkippingInvalidAsset assetUrl)
  | NoResponse => Some (NoResponseForAsset assetUrl)
  | GotoFailed e | BufferFailed _ e | UrlFailed _ _ e | MkdirFailed _ _ _ e
  | WriteFailed _ _ _ e => Some (FailedToDownloadAsset assetUrl e)
  | Saved _ _ _ => None
  end.

(** The file that handling an asset is to write, once the asset is
    fetched and its URL is parsed: the one that [fs.mkdirSync] and
    [fs.writeFileSync] are called for. *)
Definition asset_target (dirPath : string) (o : AssetOutcome) : option string :=
  match o with
  | MkdirFailed _ _ u _ | WriteFailed _ _ u _ | Saved _ _ u =>
      Some (Path.join dirPath (pathname u))
  | _ => None
  end.

Fixpoint loop_reports (assets : list string) (outcomes : list AssetOutcome)
  : list Msg :=
  match assets, outcomes with
  | assetUrl :: assets', o :: outcomes' =>
      match asset_report assetUrl o with
      | Some m => m :: loop_reports assets' outcomes'
      | None => loop_reports assets' outcomes'
      end
  | _, _ => []
  end.

(** ** Scenarios *)

Module Scenario.

(** One page with an image and a script. *)
Definition example_com : Web.t :=
  Web.mk
    [("https://example.com",
      ("<html><img src=logo.png><script src=app.js></script></html>",
       [HTMLImageElement "https://example.com/logo.png";
        HTMLScriptElement "https://example.com/app.js"]))]
    [("https://example.com/logo.png", Web.Body [Byte.x89; Byte.x50; Byte.x4e; Byte.x47]);
     ("https://example.com/app.js", Web.Body [Byte.x2f; Byte.x2f])].

(** A batch of three URLs of which the second one does not load. *)
Definition three_urls : list string :=
  ["https://one.example"; "https://two.example"; "https://three.example"].

Definition two_is_down : Web.t :=
  Web.mk
    [("https://one.example", ("<html>one</html>", []));
     ("https://three.example", ("<html>three</html>", []))]
    [].

(** A page whose only asset cannot be fetched. *)
Definition broken_image : Web.t :=
  Web.mk
    [("https://example.com",
      ("<html><img src=gone.png></html>",
       [HTMLImageElement "https://example.com/gone.png"]))]
    [("https://example.com/gone.png", Web.NetworkError)].

(** The page of [example_com] later on: the image has changed and the
    script is gone. *)
Definition example_com_changed : Web.t :=
  Web.mk
    [("https://example.com",
      ("<html><img src=logo.png></html>",
       [HTMLImageElement "https://example.com/logo.png"]))]
    [("https://example.com/logo.png", Web.Body [Byte.x47; Byte.x49; Byte.x46])].

End Scenario.

(** Whether [main] printed its last line. *)
Definition is_last_line : Event -> option unit :=
  sys_of (fun X s _ =>
    match s with
    | ConsoleLog MirroringProcessCompleted => Some tt
    | _ => None
    end).

Definition batch_completed (tr : list (Tid * Event)) : bool :=
  match omap is_last_line (all_events tr) with
  | [] => false
  | _ :: _ => true
  end.

(** ** Files over time *)

(** Nothing is removed, and what is a file stays a file, what is a
    directory stays a directory. *)
Definition kind_le (a b : option Node) : Prop :=
  match a with
  | Some Dir => b = Some Dir
  | Some (File _) => exists d, b = Some (File d)
  | None => True
  end.

Definition fs_le (fs fs' : FS) : Prop :=
  forall k, kind_le (fs !! k) (fs' !! k).

(** The content that the last write to [p] left, if [p] was written. *)
Fixpoint last_write (p : string) (ws : list (string * FileData))
  : option FileData :=
  match ws with
  | [] => None
  | (q, d) :: ws' =>
      match last_write p ws' with
      | Some d' => Some d'
      | None => if String.eqb q p then Some d else None
      end
  end.

(** An event of a run is the answer of the environment at some moment of
    the run. *)
Definition explained (w : World) (t : Tid) (fs fs' : FS) (ev : Event) : Prop :=
  match ev with
  | Ev op r =>
      exists n fsI,
        fs_le fs fsI /\ fs_le (exec w t n fsI op).2 fs'
        /\ r = (exec w t n fsI op).1
  end.

(** ** A second run *)

(** The calls of [mirror] on the browser and on the page itself succeed;
    what happens to the assets is left open. *)
Definition page_ops_succeed (w : World) (t : Tid) (url : string) : Prop :=
  forall n,
    is_ok (answer w _ t n PuppeteerLaunch) = true
    /\ (forall b, is_ok (answer w _ t n (BrowserNewPage b)) = true)
    /\ (forall p, is_ok (answer w _ t n (PageGoto p url true)) = true)
    /\ (forall p, is_ok (answer w _ t n (PageContent p)) = true)
    /\ (forall p, is_ok (answer w _ t n (PageQueryAssets p)) = true)
    /\ (forall b, is_ok (answer w _ t n (BrowserClose b)) = true).

(** ** Counting over the executions of a program *)

(** An answer that each operation can give. *)
Definition default_result {X} (op : Op X) : Result X :=
  match op with
  | Await _ => Err (ExternalError "unreachable")
  | Call s =>
      match s in Sys X return Result X with
      | ConsoleLog _ => Ok tt
      | ConsoleError _ => Ok tt
      | ExistsSync _ => Ok false
      | DateNowUTC => Ok EmptyString
      | NewURL _ => Err (TypeError "Invalid URL")
      | CheerioLoad _ => Err (TypeError "unreachable")
      | MkdirSync p => Err (SystemError "EACCES" p)
      | WriteFileSync p _ => Err (SystemError "EACCES" p)
      end
  end.

(** The execution in which every operation gives that answer. *)
Fixpoint default_events {A} (p : Prog A) : list Event :=
  match p with
  | Do op k => Ev op (default_result op) :: default_events (k (default_result op))
  | _ => []
  end.

Fixpoint default_outcome {A} (p : Prog A) : Result A :=
  match p with
  | Ret a => Ok a
  | Throw e => Err e
  | Do op k => default_outcome (k (default_result op))
  end.

(** How many events of a trace a classifier selects. *)
Definition weight {R} (f : Event -> option R) (evs : list Event) : nat :=
  length (omap f evs).

(** All executions of [p] have the same number of such events. *)
Definition uniform {R} (f : Event -> option R) (p : Prog unit) : Prop :=
  forall evs res, path p evs res -> weight f evs = weight f (default_events p).

(** No execution of [p] throws. *)
Definition never_throws (p : Prog unit) : Prop :=
  forall evs res, path p evs res -> res = Ok tt.

Definition left_to_do {R} (f : Event -> option R) (job : Job) : nat :=
  weight f (default_events (job_prog job)).

(** The events that [f] selects are conserved: those in the trace and those
    that the jobs still have to perform add up to [K]. *)
Definition conserved {R} (f : Event -> option R) (K : nat) (pool : Pool) : Prop :=
  Forall (fun job => uniform f (job_prog job)) (pool_jobs pool)
  /\ weight f (all_events (pool_trace pool))
     + sum_list_with (left_to_do f) (pool_jobs pool) = K.

(** No job of the pool has thrown or can throw. *)
Definition quiet (pool : Pool) : Prop :=
  Forall (fun job => never_throws (job_prog job)) (pool_jobs pool)
  /\ pool_rejected pool = None.

(** The file system facts of a write that succeeds. *)
Definition writable (fs : FS) (p : string) : Prop :=
  is_empty p = false /\ ends_with_slash p = false
  /\ Fs.stat fs p <> Some Dir /\ Fs.stat fs (Path.dirname p) = Some Dir.

Definition is_file (fs : FS) (p : string) : Prop :=
  exists d, Fs.stat fs p = Some (File d).

(** What one operation writes. *)
Definition written {X} (op : Op X) (r : Result X) : list (string * FileData) :=
  writes [Ev op r].

(** ** Executions in a given world

    The answers that do not depend on the file system are those of the
    world; those of [fs] are left open, since other jobs write to it. *)
Definition determined {X} (w : World) (t : Tid) (n : nat) (op : Op X)
    (r : Result X) : Prop :=
  match op with
  | Await e => r = answer w X t n e
  | Call s =>
      match s in Sys X return Result X -> Prop with
      | ExistsSync _ => fun r => is_ok r = true
      | MkdirSync _ => fun _ => True
      | WriteFileSync _ _ => fun _ => True
      | s' => fun r => r = (exec_sys w t n ∅ s').1
      end r
  end.

Fixpoint wpath {A} (w : World) (t : Tid) (n : nat) (p : Prog A)
    (evs : list Event) (res : Result A) : Prop :=
  match p with
  | Ret a => evs = [] /\ res = Ok a
  | Throw e => evs = [] /\ res = Err e
  | Do op k =>
      exists r evs',
        determined w t n op r /\ evs = Ev op r :: evs'
        /\ wpath w t (S n) (k r) evs' res
  end.

(** In this world the program throws, whatever the file system does. *)
Definition doomed (w : World) (t : Tid) (n : nat) (p : Prog unit) : Prop :=
  forall evs res, wpath w t n p evs res -> is_ok res = false.

(** [Promise.all] is rejected already, or job [i] is going to throw. *)
Definition failing (w : World) (i : nat) (pool : Pool) : Prop :=
  pool_rejected pool <> None
  \/ exists job,
      pool_jobs pool !! i = Some job
      /\ doomed w (job_tid job) (job_ops job) (job_prog job).

(** The trace of a pool, seen from each of its jobs: what a job has done so
    far, followed by any execution of what it has left to do, is an execution
    of the program that it was started with; and the trace holds no event of
    a job that is not started. *)
Definition projected (jobs0 : list (Tid * Prog unit)) (pool : Pool) : Prop :=
  (forall i job,
      pool_jobs pool !! i = Some job ->
      exists p0,
        jobs0 !! i = Some (job_tid job, p0)
        /\ forall evs res,
            path (job_prog job) evs res ->
            path p0 (events_of (job_tid job) (pool_trace pool) ++ evs)%list res)
  /\ (forall t,
         (forall i job, pool_jobs pool !! i = Some job -> job_tid job <> t) ->
         events_of t (pool_trace pool) = []).

(** The job has run to its end. *)
Definition settled (job : Job) : Prop :=
  exists res, job_prog job = lift res.

(** ** The order of the operations of a job

    The operations are those of the page, among them the writing of
    [index.html] and no fetch of an asset; then, for a rendered page, those
    of the first asset, then those of the second, and so on in the order of
    discovery, each asset from its [page.goto] on the one page of the job to
    the line that reports it; then the browser is closed. *)
Definition sequential (outputDirectory url : string) (evs : list Event) : Prop :=
  exists o outcomes closing,
    outcomes_fit (page_assets o) outcomes
    /\ evs = mirror_events outputDirectory url o outcomes closing
    /\ asset_gotos (page_events outputDirectory url o) = []
    /\ asset_gotos evs = List.filter is_http (page_assets o)
    /\ match o with
       | Rendered browser page nav content urlObj dirExists elements =>
           evs
           = (page_events outputDirectory url o
              ++ loop_events page (dir_path outputDirectory urlObj)
                   (discover elements) outcomes
              ++ close_events url browser closing)%list
           /\ writes (page_events outputDirectory url o)
              = [(index_path outputDirectory urlObj, Utf8 content)]
           /\ pages_opened evs = [browser]
           /\ (forall a assets' oa outcomes',
                  loop_events page (dir_path outputDirectory urlObj)
                    (a :: assets') (oa :: outcomes')
                  = (asset_events page (dir_path outputDirectory urlObj) a oa
                     ++ loop_events page (dir_path outputDirectory urlObj)
                          assets' outcomes')%list
                  /\ asset_gotos
                       (asset_events page (dir_path outputDirectory urlObj) a oa)
                     = if is_skipped oa then [] else [a])
       | _ => evs = page_events outputDirectory url o
       end.

(** ** How one URL is fetched

    How far [fetchAndParseURL] gets, with the operations up to there.
    [urlObj] is what [new URL] gives in [isValidUrl], [domainObj] what it
    gives in [extractDomainName]; [now] is read only with [--metadata]. *)

Inductive FetchOutcome :=
| EmptyUrl
| UrlRejected (e : JsError)
| GetFailed (urlObj : URL) (e : JsError)
| LoadFailed (urlObj : URL) (data : string) (e : JsError)
| DomainFailed (urlObj : URL) (data : string) (cheerio : Cheerio) (now : string)
    (e : JsError)
| FileWriteFailed (urlObj : URL) (data : string) (cheerio : Cheerio)
    (now : string) (domainObj : URL) (e : JsError)
| Stored (urlObj : URL) (data : string) (cheerio : Cheerio) (now : string)
    (domainObj : URL).

Section FetchOutcomes.

Variable outputDirectory : string.
Variable url : string.
Variable metadata : bool.

Definition site_metadata (cheerio : Cheerio) (now : string) : SiteMetadata :=
  {| site := url;
     num_links := select_length cheerio "a";
     images := select_length cheerio "img";
     last_fetch := now |}.

Definition metadata_events (cheerio : Cheerio) (now : string) : list Event :=
  if metadata then
    [Ev (Call DateNowUTC) (Ok now);
     console_log (Metadata (site_metadata cheerio now))]
  else [].

(** [path.join(outputDirectory, extractDomainName(url) + ".html")] *)
Definition fetch_filename (domainObj : URL) : string :=
  Path.join outputDirectory (hostname domainObj ++ ".html").

Definition got_events (urlObj : URL) (data : string) : list Event :=
  [Ev (Call (NewURL url)) (Ok urlObj);
   console_log (ProcessingUrl url);
   Ev (Await (AxiosGet url)) (Ok data);
   console_log (DataFetched url)].

Definition parsed_events (urlObj : URL) (data : string) (cheerio : Cheerio)
    (now : string) : list Event :=
  (got_events urlObj data
   ++ Ev (Call (CheerioLoad data)) (Ok cheerio) :: metadata_events cheerio now)%list.

Definition fetch_events (o : FetchOutcome) : list Event :=
  let failed e := console_error (ErrorWhileFetching url e) in
  match o with
  | EmptyUrl => [console_log (InvalidUrlSkipped url)]
  | UrlRejected e =>
      [Ev (Call (NewURL url)) (Err e); console_log (InvalidUrlSkipped url)]
  | GetFailed urlObj e =>
      [Ev (Call (NewURL url)) (Ok urlObj);
       console_log (ProcessingUrl url);
       Ev (Await (AxiosGet url)) (Err e);
       failed e]
  | LoadFailed urlObj data e =>
      (got_events urlObj data
       ++ [Ev (Call (CheerioLoad data)) (Err e); failed e])%list
  | DomainFailed urlObj data cheerio now e =>
      (parsed_events urlObj data cheerio now
       ++ [Ev (Call (NewURL url)) (Err e); failed e])%list
  | FileWriteFailed urlObj data cheerio now domainObj e =>
      (parsed_events urlObj data cheerio now
       ++ [Ev (Call (NewURL url)) (Ok domainObj);
           Ev (Call (WriteFileSync (fetch_filename domainObj) (Utf8 (html cheerio))))
             (Err e);
           failed e])%list
  | Stored urlObj data cheerio now domainObj =>
      (parsed_events urlObj data cheerio now
       ++ [Ev (Call (NewURL url)) (Ok domainObj);
           Ev (Call (WriteFileSync (fetch_filename domainObj) (Utf8 (html cheerio))))
             (Ok tt);
           console_log (ContentSaved (fetch_filename domainObj))])%list
  end.

(** The empty string is the one URL that [isValidUrl] rejects without
    calling [new URL]. *)
Definition fetch_fits (o : FetchOutcome) : Prop :=
  match o with
  | EmptyUrl => is_empty url = true
  | _ => is_empty url = false
  end.

(** The line that ends the job. *)
Definition fetch_verdict (o : FetchOutcome) : Msg :=
  match o with
  | EmptyUrl | UrlRejected _ => InvalidUrlSkipped url
  | GetFailed _ e | LoadFailed _ _ e | DomainFailed _ _ _ _ e
  | FileWriteFailed _ _ _ _ _ e => ErrorWhileFetching url e
  | Stored _ _ _ _ domainObj => ContentSaved (fetch_filename domainObj)
  end.

End FetchOutcomes.

(** The outcome agrees with the world [w] that job [t] runs in. *)
Definition fetch_sound (w : World) (t : Tid) (url : string) (metadata : bool)
    (o : FetchOutcome) : Prop :=
  let got urlObj data :=
    url_parse w url = Some urlObj
    /\ exists n, answer w _ t n (AxiosGet url) = Ok data in
  let parsed urlObj data cheerio now :=
    got urlObj data /\ cheerio_load w data = Ok cheerio
    /\ (metadata = true -> exists n, now = utc_now w t n) in
  match o with
  | EmptyUrl => True
  | UrlRejected e => url_parse w url = None
  | GetFailed urlObj e =>
      url_parse w url = Some urlObj
      /\ exists n, answer w _ t n (AxiosGet url) = Err e
  | LoadFailed urlObj data e => got urlObj data /\ cheerio_load w data = Err e
  | DomainFailed _ _ _ _ _ => False
  | FileWriteFailed urlObj data cheerio now domainObj e =>
      parsed urlObj data cheerio now /\ domainObj = urlObj
  | Stored urlObj data cheerio now domainObj =>
      parsed urlObj data cheerio now /\ domainObj = urlObj
  end.

(** ** More of what a trace shows *)

(** The URLs that [axios.get] was called on. *)
Definition requests : list Event -> list string :=
  omap (ext_of (fun X e _ =>
    match e with
    | AxiosGet url => Some url
    | _ => None
    end)).

(** The lines that end a fetch job. *)
Definition is_verdict : Event -> option Msg :=
  sys_of (fun X s _ =>
    match s with
    | ConsoleLog (InvalidUrlSkipped url) => Some (InvalidUrlSkipped url)
    | ConsoleLog (ContentSaved filename) => Some (ContentSaved filename)
    | ConsoleError (ErrorWhileFetching url e) => Some (ErrorWhileFetching url e)
    | _ => None
    end).

Definition verdicts : list Event -> list Msg := omap is_verdict.

(** The metadata printed. *)
Definition metadata_lines : list Event -> list SiteMetadata :=
  omap (sys_of (fun X s _ =>
    match s with
    | ConsoleLog (Metadata m) => Some m
    | _ => None
    end)).

(** The paths that the program reports as saved. *)
Definition saved_lines : list Event -> list string :=
  omap (sys_of (fun X s _ =>
    match s with
    | ConsoleLog (ContentSaved p) => Some p
    | ConsoleLog (MainContentSaved p) => Some p
    | ConsoleLog (AssetSaved p) => Some p
    | _ => None
    end)).

(** The URLs of the mirror jobs that report their completion. *)
Definition completions : list Event -> list string :=
  omap (sys_of (fun X s _ =>
    match s with
    | ConsoleLog (MirroringCompleted url) => Some url
    | _ => None
    end)).

(** The directories that the program reports as created. *)
Definition created_lines : list Event -> list string :=
  omap (sys_of (fun X s _ =>
    match s with
    | ConsoleLog (DirectoryCreated dirPath) => Some dirPath
    | _ => None
    end)).

(** The directories that [fs.mkdirSync] was called on. *)
Definition is_mkdir : Event -> option string :=
  sys_of (fun X s _ =>
    match s with
    | MkdirSync p => Some p
    | _ => None
    end).

Definition mkdirs : list Event -> list string := omap is_mkdir.

(** The first line of a fetch job, printed when the job is called. *)
Definition first_line (w : World) (url : string) : Msg :=
  if negb (is_empty url) && parses w url then ProcessingUrl url
  else InvalidUrlSkipped url.

(** ** The jobs of a pool *)

(** Every event of the trace and every job of the pool belongs to one of
    the jobs that [Promise.all] was given. *)
Definition owned (jobs0 : list (Tid * Prog unit)) (pool : Pool) : Prop :=
  Forall (fun te => te.1 ∈ map fst jobs0) (pool_trace pool)
  /\ Forall (fun job => job_tid job ∈ map fst jobs0) (pool_jobs pool).

Definition is_fetch_job (n : nat) (t : Tid) : Prop :=
  exists i, t = TFetch i /\ i < n.

Definition is_mirror_phase (n : nat) (t : Tid) : Prop :=
  t = TMain \/ exists i, t = TMirror i /\ i < n.

(** The directories of a pool are those of [fs], as long as its trace
    holds no call of [fs.mkdirSync]. *)
Definition dirs_kept (fs : FS) (pool : Pool) : Prop :=
  mkdirs (all_events (pool_trace pool)) = [] ->
  forall k, pool_fs pool !! k = Some Dir -> fs !! k = Some Dir.

(** As long as [Promise.all] is not rejected, no job of the pool has
    thrown. *)
Definition accounted (pool : Pool) : Prop :=
  pool_rejected pool = None ->
  Forall (fun job => rejection (job_prog job) = None) (pool_jobs pool).

(** Every event in the trace of a pool that started on [fs] is an answer
    of the environment at some moment between then and now. *)
Definition trace_explained (w : World) (fs : FS) (pool : Pool) : Prop :=
  fs_le fs (pool_fs pool)
  /\ Forall (fun te => explained w te.1 fs (pool_fs pool) te.2) (pool_trace pool).

(** * Executions of programs *)

Section Paths.

Context {A : Type}.

Lemma path_lift (r res : Result A) evs :
  path (lift r) evs res <-> evs = [] /\ res = r.
Proof. destruct r; simpl; tauto. Qed.

Lemma path_perform (op : Op A) evs res :
  path (perform op) evs res <-> admissible op res /\ evs = [Ev op res].
Proof.
  unfold perform; simpl. split.
  - intros (r & evs' & Hr & -> & H). apply path_lift in H as [-> ->]. auto.
  - intros [Hr ->]. exists res, []. repeat split; [exact Hr|].
    apply path_lift. auto.
Qed.

Lemma path_bind {B} (p : Prog A) (f : A -> Prog B) evs res :
  path (bind p f) evs res <->
  (exists evs1 a evs2,
      path p evs1 (Ok a) /\ path (f a) evs2 res /\ evs = (evs1 ++ evs2)%list)
  \/ (exists e, path p evs (Err e) /\ res = Err e).
Proof.
  revert evs. induction p as [a|e|X op k IH]; intros evs; simpl.
  - split.
    + intros H. left. exists [], a, evs. auto.
    + intros [(evs1 & a' & evs2 & [-> Ha] & H & ->)|(e & [_ He] & _)];
        [|discriminate]. injection Ha as ->. exact H.
  - split.
    + intros [-> ->]. right. exists e. auto.
    + intros [(evs1 & a' & evs2 & [_ Ha] & _)|(e' & [-> He] & ->)];
        [discriminate|]. split; congruence.
  - split.
    + intros (r & evs' & Hr & -> & H). apply IH in H.
      destruct H as [(evs1 & a & evs2 & H1 & H2 & ->)|(e & H1 & ->)].
      * left. exists (Ev op r :: evs1), a, evs2. split; [|auto].
        exists r, evs1. auto.
      * right. exists e. split; [|auto]. exists r, evs'. auto.
    + intros [(evs1 & a & evs2 & (r & evs' & Hr & -> & H1) & H2 & ->)
             |(e & (r & evs' & Hr & -> & H1) & ->)].
      * exists r, (evs' ++ evs2)%list. repeat split; [exact Hr|].
        apply IH. left. exists evs', a, evs2. auto.
      * exists r, evs'. repeat split; [exact Hr|]. apply IH. right. eauto.
Qed.

Lemma path_try_catch (p : Prog A) (h : JsError -> Prog A) evs res :
  path (try_catch p h) evs res <->
  (exists a, path p evs (Ok a) /\ res = Ok a)
  \/ (exists e evs1 evs2,
         path p evs1 (Err e) /\ path (h e) evs2 res /\ evs = (evs1 ++ evs2)%list).
Proof.
  revert evs. induction p as [a|e|X op k IH]; intros evs; simpl.
  - split.
    + intros [-> ->]. left. eauto.
    + intros [(a' & [-> Ha] & ->)|(e & evs1 & evs2 & [_ He] & _)];
        [auto|discriminate].
  - split.
    + intros H. right. exists e, [], evs. auto.
    + intros [(a' & [_ Ha] & _)|(e' & evs1 & evs2 & [-> He] & H & ->)];
        [discriminate|]. injection He as ->. exact H.
  - split.
    + intros (r & evs' & Hr & -> & H). apply IH in H.
      destruct H as [(a & H1 & ->)|(e & evs1 & evs2 & H1 & H2 & ->)].
      * left. exists a. split; [|auto]. exists r, evs'. auto.
      * right. exists e, (Ev op r :: evs1), evs2. split; [|auto].
        exists r, evs1. auto.
    + intros [(a & (r & evs' & Hr & -> & H1) & ->)
             |(e & evs1 & evs2 & (r & evs' & Hr & -> & H1) & H2 & ->)].
      * exists r, evs'. repeat split; [exact Hr|]. apply IH. left. eauto.
      * exists r, (evs' ++ evs2)%list. repeat split; [exact Hr|].
        apply IH. right. exists e, evs', evs2. auto.
Qed.

End Paths.

Lemma exec_sys_admissible {X} w t n fs (s : Sys X) :
  admissible (Call s) (exec_sys w t n fs s).1.
Proof. destruct s; simpl; auto. Qed.

Lemma exec_admissible {X} w t n fs (op : Op X) :
  admissible op (exec w t n fs op).1.
Proof. destruct op as [e|s]; [exact I|apply exec_sys_admissible]. Qed.

(** What [run] computes is one of the executions. *)
Lemma run_path {A} (w : World) (t : Tid) (p : Prog A) :
  forall n fs fs' evs res,
    run w t n fs p = (fs', evs, res) -> path p evs res.
Proof.
  induction p as [a|e|X op k IH]; intros n fs fs' evs res; simpl.
  - intros [= _ <- <-]. auto.
  - intros [= _ <- <-]. auto.
  - pose proof (exec_admissible w t n fs op) as Hr.
    destruct (exec w t n fs op) as [r fs1].
    destruct (run w t (S n) fs1 (k r)) as [[fs2 evs2] res2] eqn:E.
    intros [= _ <- <-]. exists r, evs2. repeat split; [exact Hr|]. eapply IH, E.
Qed.

Lemma settle_path {A} (w : World) (t : Tid) (p : Prog A) :
  forall n fs fs' evs0 n' p' evs res,
    settle w t n fs p = (fs', evs0, n', p') ->
    path p' evs res -> path p (evs0 ++ evs)%list res.
Proof.
  induction p as [a|e|X op k IH]; intros n fs fs' evs0 n' p' evs res; simpl.
  - intros [= _ <- _ <-]. auto.
  - intros [= _ <- _ <-]. auto.
  - destruct op as [e|s].
    + intros [= _ <- _ <-]. auto.
    + pose proof (exec_sys_admissible w t n fs s) as Hr.
      destruct (exec_sys w t n fs s) as [r fs1].
      destruct (settle w t (S n) fs1 (k r)) as [[[fs2 evs2] n2] p2] eqn:E.
      intros [= _ <- _ <-] H. exists r, (evs2 ++ evs)%list.
      repeat split; [exact Hr|]. eapply IH; eauto.
Qed.

Lemma resume_path {A} (w : World) (t : Tid) (p : Prog A) :
  forall n fs fs' evs0 n' p' evs res,
    resume w t n fs p = (fs', evs0, n', p') ->
    path p' evs res -> path p (evs0 ++ evs)%list res.
Proof.
  intros n fs fs' evs0 n' p' evs res.
  destruct p as [a|e|X [e|s] k]; try apply settle_path.
  simpl.
  destruct (settle w t (S n) fs (k (answer w X t n e))) as [[[fs2 evs2] n2] p2] eqn:E.
  intros [= _ <- _ <-] H. exists (answer w X t n e), (evs2 ++ evs)%list.
  repeat split. eapply settle_path; eauto.
Qed.

(** * The URL validator *)

Lemma run_isValidUrl w t n fs s :
  exists evs,
    run w t n fs (isValidUrl s) = (fs, evs, Ok (negb (is_empty s) && parses w s)).
Proof.
  unfold isValidUrl, parses. destruct s as [|c s]; simpl.
  - exists []. reflexivity.
  - destruct (url_parse w (String c s)); simpl; eexists; reflexivity.
Qed.

Lemma append_nonempty a b : is_empty b = false -> is_empty (a ++ b) = false.
Proof. destruct a; [auto|reflexivity]. Qed.

Lemma Whatwg_parse_scheme s :
  match Whatwg.parse s with
  | Some u => is_empty (protocol u) = false
  | None => True
  end.
Proof.
  unfold Whatwg.parse. destruct (Whatwg.scheme_of s) as [[scheme rest]|]; [|exact I].
  destruct (Whatwg.is_special scheme).
  - destruct (Whatwg.span_until _ _) as [authority tail].
    destruct (_ || _); [exact I|]. simpl. apply append_nonempty. reflexivity.
  - destruct (startsWith rest "//").
    + destruct (Whatwg.span_until _ _) as [authority tail].
      destruct (negb _); [exact I|]. simpl. apply append_nonempty. reflexivity.
    + simpl. apply append_nonempty. reflexivity.
Qed.

(** C6, as the code has it: [isValidUrl] never throws and touches no file;
    it answers true exactly for the non-empty strings that the URL
    constructor accepts.  With the parser of [Whatwg], which accepts no empty
    string and nothing without a scheme, that is false for the empty string,
    for "not a url" and for "/relative/path", and true for an absolute URL
    such as "https://example.com". *)
Theorem isValidUrl_iff_URL_constructor_accepts :
  (forall w t n fs s,
      exists evs,
        run w t n fs (isValidUrl s)
        = (fs, evs, Ok (negb (is_empty s) && parses w s)))
  /\ (forall w, validates w EmptyString = Ok false)
  /\ (forall s, validates offline s = Ok (parses offline s))
  /\ (forall s,
         match Whatwg.parse s with
         | Some u => is_empty (protocol u) = false
         | None => True
         end)
  /\ validates offline "not a url" = Ok false
  /\ validates offline "/relative/path" = Ok false
  /\ validates offline "https://example.com" = Ok true.
Proof.
  split; [exact run_isValidUrl|]. split; [reflexivity|].
  split; [|split; [exact Whatwg_parse_scheme|repeat split]].
  intros s. unfold validates.
  destruct (run_isValidUrl offline TMain 0 ∅ s) as [evs ->].
  destruct s; reflexivity.
Qed.

(** C6, as the specification words it, fails: "mailto:a" has a scheme and no
    authority, the URL constructor accepts it, and [isValidUrl] answers
    true. *)
Lemma isValidUrl_accepts_url_without_authority :
  validates offline "mailto:a" = Ok true
  /\ spec_isValidUrl offline "mailto:a" = false
  /\ ~ (forall s, validates offline s = Ok true <-> spec_isValidUrl offline s = true).
Proof.
  repeat split. intros H. specialize (H "mailto:a").
  destruct H as [H _]. specialize (H eq_refl). discriminate H.
Qed.

(** * The loop over the assets *)

Ltac path_inv :=
  repeat match goal with
    | H : path (call _) _ _ |- _ => unfold call in H
    | H : path (await _) _ _ |- _ => unfold await in H
    | H : path (perform _) _ _ |- _ =>
        apply path_perform in H; destruct H as [? ?]; subst
    | H : path (bind _ _) _ _ |- _ =>
        let E := fresh "E" in
        apply path_bind in H;
        destruct H as [(? & ? & ? & H & ? & E)|(? & H & E)];
        try discriminate E; try (injection E as E); subst
    | H : path (try_catch _ _) _ _ |- _ =>
        let E := fresh "E" in
        apply path_try_catch in H;
        destruct H as [(? & H & E)|(? & ? & ? & H & ? & E)];
        try discriminate E; try (injection E as E); subst
    | H : path (Ret _) _ _ |- _ =>
        let E := fresh "E" in
        simpl in H; destruct H as [? E];
        try discriminate E; try (injection E as E); subst
    | H : path (Throw _) _ _ |- _ =>
        let E := fresh "E" in
        simpl in H; destruct H as [? E];
        try discriminate E; try (injection E as E); subst
    | H : path (match ?x with _ => _ end) _ _ |- _ =>
        lazymatch x with
        | negb ?b => destruct b; cbn [negb] in H
        | _ => destruct x
        end
    | H : admissible _ (Ok tt) |- _ => clear H
    | H : admissible _ (Err _) |- _ =>
        first [discriminate H | clear H]
    | H : admissible (Call (ConsoleLog _)) ?r |- _ =>
        is_var r; destruct r as [[]|]; [clear H|discriminate H]
    | H : admissible (Call (ConsoleError _)) ?r |- _ =>
        is_var r; destruct r as [[]|]; [clear H|discriminate H]
    | H : admissible (Call (ExistsSync _)) ?r |- _ =>
        is_var r; destruct r; [clear H|discriminate H]
    | H : admissible _ _ |- _ => clear H
    | x : unit |- _ => destruct x
    end.

Lemma mirror_asset_path page dirPath assetUrl evs res :
  path (mirror_asset page dirPath assetUrl) evs res ->
  res = Ok tt
  /\ exists o, is_skipped o = negb (is_http assetUrl)
               /\ evs = asset_events page dirPath assetUrl o.
Proof.
  unfold mirror_asset, is_http.
  destruct (startsWith assetUrl "http://"), (startsWith assetUrl "https://");
    cbn [negb andb orb]; intros H.
  4: { path_inv. split; [reflexivity|]. exists Skipped. auto. }
  all: path_inv; (split; [reflexivity|]);
    first [ eexists (Saved _ _ _); split; reflexivity
          | eexists (WriteFailed _ _ _ _); split; reflexivity
          | eexists (MkdirFailed _ _ _ _); split; reflexivity
          | eexists (UrlFailed _ _ _); split; reflexivity
          | eexists (BufferFailed _ _); split; reflexivity
          | eexists NoResponse; split; reflexivity
          | eexists (GotoFailed _); split; reflexivity ].
Qed.

Lemma loop_path page dirPath assets :
  forall evs res,
    path (for_of assets (mirror_asset page dirPath)) evs res ->
    res = Ok tt
    /\ exists outcomes,
        outcomes_fit assets outcomes
        /\ evs = loop_events page dirPath assets outcomes.
Proof.
  induction assets as [|a assets IH]; intros evs res H.
  - simpl in H. destruct H as [-> ->]. split; [reflexivity|]. exists [].
    split; [exact I|reflexivity].
  - cbn [for_of] in H. apply path_bind in H.
    destruct H as [(evs1 & [] & evs2 & H1 & H2 & ->)|(e & H1 & ->)].
    + apply mirror_asset_path in H1 as (_ & o & Ho & ->).
      apply IH in H2 as (-> & outcomes & Hfit & ->).
      split; [reflexivity|]. exists (o :: outcomes). simpl. auto.
    + apply mirror_asset_path in H1 as [H1 _]. discriminate H1.
Qed.

Lemma asset_gotos_app evs1 evs2 :
  asset_gotos (evs1 ++ evs2) = (asset_gotos evs1 ++ asset_gotos evs2)%list.
Proof. apply omap_app. Qed.

Lemma asset_gotos_asset_events page dirPath assetUrl o :
  asset_gotos (asset_events page dirPath assetUrl o)
  = if is_skipped o then [] else [assetUrl].
Proof. destruct o; reflexivity. Qed.

Lemma asset_gotos_loop_events page dirPath assets :
  forall outcomes,
    outcomes_fit assets outcomes ->
    asset_gotos (loop_events page dirPath assets outcomes)
    = List.filter is_http assets.
Proof.
  induction assets as [|a assets IH]; intros [|o outcomes]; simpl; try tauto.
  intros [Ho Hfit]. rewrite asset_gotos_app, asset_gotos_asset_events, Ho.
  rewrite (IH _ Hfit). destruct (is_http a); reflexivity.
Qed.

(** C5: in the loop over the discovered assets, [page.goto] is called on
    exactly the candidates that start with [http://] or [https://], in the
    order of discovery; for any other candidate (a [data:] URL, a relative
    path) the only operation is the [console.error] that reports it, and the
    loop goes on to its end. *)
Theorem asset_fetch_iff_http_prefix :
  (forall w t n fs page dirPath assets,
      let r := run w t n fs (for_of assets (mirror_asset page dirPath)) in
      asset_gotos r.1.2 = List.filter is_http assets /\ r.2 = Ok tt)
  /\ (forall assetUrl,
         is_http assetUrl
         = startsWith assetUrl "http://" || startsWith assetUrl "https://")
  /\ (forall w t n fs page dirPath assetUrl,
         is_http assetUrl = false ->
         run w t n fs (mirror_asset page dirPath assetUrl)
         = (fs, [console_error (SkippingInvalidAsset assetUrl)], Ok tt))
  /\ is_http "data:image/png;base64,iVBORw0KGgo=" = false
  /\ is_http "/relative.js" = false.
Proof.
  split; [|split; [|split]].
  - intros w t n fs page dirPath assets r.
    destruct r as [[fs' evs] res] eqn:E. subst r. apply run_path in E.
    apply loop_path in E as (-> & outcomes & Hfit & ->). simpl. split; [|reflexivity].
    apply asset_gotos_loop_events, Hfit.
  - reflexivity.
  - intros w t n fs page dirPath assetUrl H. unfold mirror_asset.
    unfold is_http in H. apply orb_false_iff in H as [-> ->]. reflexivity.
  - split; reflexivity.
Qed.

(** A [data:] URL among the assets of a page: it is reported and not
    fetched. *)
Lemma data_url_is_not_fetched :
  run offline (TMirror 0) 0 ∅
    (mirror_asset (mkPage 0) "outputRoot/example.com"
       "data:image/png;base64,iVBORw0KGgo=")
  = (∅,
     [console_error (SkippingInvalidAsset "data:image/png;base64,iVBORw0KGgo=")],
     Ok tt).
Proof.
  apply (proj1 (proj2 (proj2 asset_fetch_iff_http_prefix))). reflexivity.
Defined.

(** * One mirror job *)

Tactic Notation "outcome" open_constr(o) open_constr(closing) :=
  refine (ex_intro _ o (ex_intro _ _ (ex_intro _ closing _)));
  split; [|split]; [idtac|reflexivity|reflexivity];
  first [eassumption|exact I].

Tactic Notation "failure" open_constr(o) :=
  refine (ex_intro _ o (ex_intro _ [] (ex_intro _ (Ok tt) _)));
  split; [exact I|split; reflexivity].

(** Every execution of [mirror] is a page outcome, followed for a rendered
    page by one outcome for each asset and by the closing of the browser. *)
Lemma mirror_path outputDirectory url evs res :
  path (mirror outputDirectory url) evs res ->
  exists o outcomes closing,
    outcomes_fit (page_assets o) outcomes
    /\ evs = mirror_events outputDirectory url o outcomes closing
    /\ res = mirror_result o closing.
Proof.
  unfold mirror. intros H. path_inv.
  all: try match goal with
         | H : path (for_of _ _) _ _ |- _ =>
             apply loop_path in H as (? & outcomes & Hfit & ->)
         end; try discriminate.
  all: first
    [ outcome (Rendered _ _ _ _ _ true _) (Ok tt)
    | outcome (Rendered _ _ _ _ _ false _) (Ok tt)
    | outcome (Rendered _ _ _ _ _ true _) (Err _)
    | outcome (Rendered _ _ _ _ _ false _) (Err _)
    | failure (QueryFailed _ _ _ _ _ true _)
    | failure (QueryFailed _ _ _ _ _ false _)
    | failure (IndexWriteFailed _ _ _ _ _ true _)
    | failure (IndexWriteFailed _ _ _ _ _ false _)
    | failure (PageMkdirFailed _ _ _ _ _ _)
    | failure (PageUrlFailed _ _ _ _ _)
    | failure (ContentFailed _ _ _ _)
    | failure (PageGotoFailed _ _ _)
    | failure (NewPageFailed _ _)
    | failure (LaunchFailed _) ].
Qed.

Lemma run_mirror outputDirectory w t n fs url :
  exists o outcomes closing,
    outcomes_fit (page_assets o) outcomes
    /\ (run w t n fs (mirror outputDirectory url)).1.2
       = mirror_events outputDirectory url o outcomes closing
    /\ (run w t n fs (mirror outputDirectory url)).2 = mirror_result o closing.
Proof.
  destruct (run w t n fs (mirror outputDirectory url)) as [[fs' evs] res] eqn:E.
  apply run_path, mirror_path in E. exact E.
Qed.

(** ** What the traces of a job show *)

Lemma outcomes_fit_length assets :
  forall outcomes, outcomes_fit assets outcomes -> length outcomes = length assets.
Proof.
  induction assets as [|a assets IH]; intros [|o outcomes]; simpl; try tauto.
  intros [_ H]. f_equal. auto.
Qed.

Lemma omap_loop_events {R} (f : Event -> option R) page dirPath :
  (forall a o, omap f (asset_events page dirPath a o) = []) ->
  forall assets outcomes, omap f (loop_events page dirPath assets outcomes) = [].
Proof.
  intros Hf. induction assets as [|a assets IH]; intros [|o outcomes];
    try reflexivity.
  simpl. rewrite omap_app, Hf, IH. reflexivity.
Qed.

Lemma launches_loop_events page dirPath assets outcomes :
  launches (loop_events page dirPath assets outcomes) = [].
Proof. apply omap_loop_events. intros a []; reflexivity. Qed.

Lemma launched_loop_events page dirPath assets outcomes :
  launched (loop_events page dirPath assets outcomes) = [].
Proof. apply omap_loop_events. intros a []; reflexivity. Qed.

Lemma pages_opened_loop_events page dirPath assets outcomes :
  pages_opened (loop_events page dirPath assets outcomes) = [].
Proof. apply omap_loop_events. intros a []; reflexivity. Qed.

Lemma closed_loop_events page dirPath assets outcomes :
  closed (loop_events page dirPath assets outcomes) = [].
Proof. apply omap_loop_events. intros a []; reflexivity. Qed.

Lemma queried_loop_events page dirPath assets outcomes :
  queried (loop_events page dirPath assets outcomes) = [].
Proof. apply omap_loop_events. intros a []; reflexivity. Qed.

Lemma errors_loop_events page dirPath assets :
  forall outcomes,
    errors (loop_events page dirPath assets outcomes) = loop_reports assets outcomes.
Proof.
  induction assets as [|a assets IH]; intros [|o outcomes]; try reflexivity.
  simpl. unfold errors in *. rewrite omap_app, IH. destruct o; reflexivity.
Qed.

Lemma writes_loop_events page dirPath assets :
  forall outcomes,
    length outcomes = length assets ->
    writes (loop_events page dirPath assets outcomes)
    = omap (asset_written dirPath) outcomes.
Proof.
  induction assets as [|a assets IH]; intros [|o outcomes]; try discriminate;
    try reflexivity.
  intros [= H]. simpl. unfold writes in *. rewrite omap_app, (IH _ H).
  destruct o; reflexivity.
Qed.

Lemma asset_gotos_page_events outputDirectory url o :
  asset_gotos (page_events outputDirectory url o) = [].
Proof. destruct o as [| | | | | | ? ? ? ? ? []|? ? ? ? ? []|? ? ? ? ? []]; reflexivity. Qed.

Lemma writes_rendered outputDirectory url browser page nav content urlObj dirExists elements :
  writes (page_events outputDirectory url
            (Rendered browser page nav content urlObj dirExists elements))
  = [(index_path outputDirectory urlObj, Utf8 content)].
Proof. destruct dirExists; reflexivity. Qed.

Lemma mirror_path_sequential outputDirectory url evs res :
  path (mirror outputDirectory url) evs res -> sequential outputDirectory url evs.
Proof.
  intros H. apply mirror_path in H as (o & outcomes & closing & Hfit & -> & _).
  exists o, outcomes, closing. split; [exact Hfit|]. split; [reflexivity|].
  split; [apply asset_gotos_page_events|].
  destruct o;
    try (split; [apply (asset_gotos_page_events outputDirectory url)|reflexivity]).
  cbn [mirror_events page_assets] in *. split.
  - rewrite !asset_gotos_app, asset_gotos_page_events.
    rewrite (asset_gotos_loop_events _ _ _ _ Hfit).
    destruct closing; simpl; apply app_nil_r.
  - split; [reflexivity|]. split; [apply writes_rendered|]. split.
    + unfold pages_opened. rewrite !omap_app.
      fold pages_opened. rewrite pages_opened_loop_events.
      destruct dirExists, closing; reflexivity.
    + intros a assets' oa outcomes'. split; [reflexivity|].
      apply asset_gotos_asset_events.
Qed.

(** ** The browser of a job *)

Ltac by_outcome o :=
  destruct o as [| | | | | | ? ? ? ? ? []|? ? ? ? ? []|? ? ? ? ? []];
  try reflexivity.

Lemma launches_mirror_events outputDirectory url o outcomes closing :
  launches (mirror_events outputDirectory url o outcomes closing) = [tt].
Proof.
  by_outcome o; cbn [mirror_events]; unfold launches; rewrite !omap_app;
    fold launches; rewrite launches_loop_events; destruct closing; reflexivity.
Qed.

Lemma launched_mirror_events outputDirectory url o outcomes closing :
  launched (mirror_events outputDirectory url o outcomes closing)
  = option_list (page_browser o).
Proof.
  by_outcome o; cbn [mirror_events]; unfold launched; rewrite !omap_app;
    fold launched; rewrite launched_loop_events; destruct closing; reflexivity.
Qed.

Lemma closed_mirror_events outputDirectory url o outcomes closing :
  closed (mirror_events outputDirectory url o outcomes closing)
  = match page_error o with
    | Some _ => []
    | None => option_list (page_browser o)
    end.
Proof.
  by_outcome o; cbn [mirror_events]; unfold closed; rewrite !omap_app;
    fold closed; rewrite closed_loop_events; destruct closing; reflexivity.
Qed.

Lemma pages_opened_mirror_events outputDirectory url o outcomes closing :
  pages_opened (mirror_events outputDirectory url o outcomes closing)
  = option_list (page_browser o).
Proof.
  by_outcome o; cbn [mirror_events]; unfold pages_opened; rewrite !omap_app;
    fold pages_opened; rewrite pages_opened_loop_events; destruct closing;
    reflexivity.
Qed.

(** A job that fails before its loop leaves its browser open, whatever the
    failure, and so rejects with a browser that nobody closes. *)
Lemma browser_closed_only_after_the_loop outputDirectory w t n fs url :
  let r := run w t n fs (mirror outputDirectory url) in
  length (launches r.1.2) = 1
  /\ pages_opened r.1.2 = launched r.1.2
  /\ (closed r.1.2 = [] \/ closed r.1.2 = launched r.1.2)
  /\ (length (queried r.1.2) = 0 -> closed r.1.2 = [] /\ is_ok r.2 = false).
Proof.
  intros r. subst r.
  destruct (run_mirror outputDirectory w t n fs url)
    as (o & outcomes & closing & Hfit & -> & ->).
  rewrite launches_mirror_events, pages_opened_mirror_events,
    launched_mirror_events, closed_mirror_events.
  split; [reflexivity|]. split; [reflexivity|]. split.
  - destruct (page_error o); auto.
  - destruct o; try (intros _; split; reflexivity).
    cbn [mirror_events]. unfold queried. rewrite !omap_app. fold queried.
    rewrite queried_loop_events. destruct dirExists, closing; discriminate.
Qed.

Lemma queried_mirror_events outputDirectory url o outcomes closing :
  queried (mirror_events outputDirectory url o outcomes closing)
  = match o with
    | Rendered _ _ _ _ _ _ elements => [elements]
    | _ => []
    end.
Proof.
  by_outcome o; cbn [mirror_events]; unfold queried; rewrite !omap_app;
    fold queried; rewrite queried_loop_events; destruct closing; reflexivity.
Qed.

(** C8 fails on the page that does not load: the job launches a browser,
    [page.goto] throws, and the job rejects without a call of
    [browser.close].  In general a job calls [browser.close] exactly when its
    [page.evaluate] has returned, that is, on the one path that reaches the
    end of the function. *)
Theorem browser_left_open_when_page_fails :
  (let r := run offline (TMirror 0) 0 ∅
              (mirror "outputRoot" "https://unreachable.example") in
   launched r.1.2 = [mkBrowser 0]
   /\ navigations r.1.2 = ["https://unreachable.example"]
   /\ closed r.1.2 = []
   /\ r.2 = Err (ExternalError "net::ERR_NAME_NOT_RESOLVED"))
  /\ (forall outputDirectory w t n fs url,
         let r := run w t n fs (mirror outputDirectory url) in
         closed r.1.2
         = match queried r.1.2 with
           | [] => []
           | _ :: _ => launched r.1.2
           end).
Proof.
  split; [repeat split|].
  intros outputDirectory w t n fs url r. subst r.
  destruct (run_mirror outputDirectory w t n fs url)
    as (o & outcomes & closing & _ & -> & _).
  rewrite closed_mirror_events, queried_mirror_events, launched_mirror_events.
  destruct o; reflexivity.
Qed.

(** * Batches *)

(** C2 fails on a batch of three URLs: three browsers are launched, one by
    each job, and each job opens its page in its own. *)
Lemma three_urls_three_browsers :
  let w := Web.world Scenario.two_is_down Scenario.three_urls in
  let r := main "outputRoot" w (mkArgv Scenario.three_urls false true) [] [] ∅ in
  launched (all_events r.1.2) = [mkBrowser 0; mkBrowser 1; mkBrowser 2]
  /\ pages_opened (all_events r.1.2) = [mkBrowser 0; mkBrowser 1; mkBrowser 2]
  /\ length (launches (all_events r.1.2)) <> 1.
Proof. vm_compute. repeat split. discriminate. Qed.

(** * The file system *)

Lemma kind_le_refl a : kind_le a a.
Proof. destruct a as [[d|]|]; simpl; eauto. Qed.

Lemma kind_le_trans a b c : kind_le a b -> kind_le b c -> kind_le a c.
Proof.
  destruct a as [[d|]|]; simpl; auto.
  - intros [d' ->]. simpl. auto.
  - intros ->. simpl. auto.
Qed.

Lemma fs_le_refl fs : fs_le fs fs.
Proof. intros k. apply kind_le_refl. Qed.

Lemma fs_le_trans fs1 fs2 fs3 : fs_le fs1 fs2 -> fs_le fs2 fs3 -> fs_le fs1 fs3.
Proof. intros H1 H2 k. eapply kind_le_trans; [apply H1|apply H2]. Qed.

Lemma fs_le_insert_dir (fs : FS) q :
  fs !! q = None -> fs_le fs (<[q := Dir]> fs).
Proof.
  intros Hq k. destruct (decide (q = k)) as [<-|Hne].
  - rewrite Hq. exact I.
  - rewrite lookup_insert_ne by exact Hne. apply kind_le_refl.
Qed.

Lemma fs_le_insert_file (fs : FS) p d :
  fs !! p <> Some Dir -> fs_le fs (<[p := File d]> fs).
Proof.
  intros Hp k. destruct (decide (p = k)) as [<-|Hne].
  - rewrite lookup_insert_eq. destruct (fs !! p) as [[d'|]|]; simpl; eauto.
    congruence.
  - rewrite lookup_insert_ne by exact Hne. apply kind_le_refl.
Qed.

Lemma list_ascii_nil s : list_ascii_of_string s = [] -> s = EmptyString.
Proof. destruct s; [reflexivity|discriminate]. Qed.

Lemma key_id p :
  is_empty p = false -> ends_with_slash p = false -> Fs.key p = p.
Proof.
  unfold ends_with_slash, Fs.key. intros Hne Hsl.
  destruct (rev (list_ascii_of_string p)) as [|c l] eqn:E.
  - apply (f_equal (@rev ascii)) in E. rewrite rev_involutive in E.
    apply list_ascii_nil in E. subst p. discriminate Hne.
  - cbn [drop_while]. rewrite Hsl. rewrite <- E, rev_involutive.
    apply string_of_list_ascii_of_string.
Qed.

Lemma stat_le fs fs' q :
  fs_le fs fs' -> kind_le (Fs.stat fs q) (Fs.stat fs' q).
Proof.
  intros H. unfold Fs.stat.
  destruct (String.eqb (Fs.key q) "/" || String.eqb (Fs.key q) ".");
    [reflexivity|apply H].
Qed.

Lemma stat_dir_le fs fs' q :
  fs_le fs fs' -> Fs.stat fs q = Some Dir -> Fs.stat fs' q = Some Dir.
Proof. intros H Hq. pose proof (stat_le fs fs' q H) as K. rewrite Hq in K. exact K. Qed.

Lemma existsSync_le fs fs' q :
  fs_le fs fs' -> Fs.existsSync fs q = true -> Fs.existsSync fs' q = true.
Proof.
  intros H. pose proof (stat_le fs fs' q H) as K. unfold Fs.existsSync.
  destruct (Fs.stat fs q) as [[d|]|]; simpl in K; try discriminate.
  - destruct K as [d' ->]. auto.
  - rewrite K. auto.
Qed.

(** ** [writeFileSync] *)

Lemma writeFileSync_ok denied fs p d fs' :
  Fs.writeFileSync denied fs p d = (Ok tt, fs') ->
  writable fs p /\ denied p = false /\ fs' = <[p := File d]> fs.
Proof.
  unfold Fs.writeFileSync, writable.
  destruct (is_empty p); [discriminate|].
  destruct (ends_with_slash p); [discriminate|].
  destruct (Fs.stat fs p) as [[d0|]|] eqn:Ep; try discriminate;
    (destruct (Fs.stat fs (Path.dirname p)) as [[d1|]|]; try discriminate;
     destruct (denied p); try discriminate; intros [= <-]; repeat split; congruence).
Qed.

Lemma writeFileSync_writable denied fs p d :
  writable fs p -> denied p = false ->
  Fs.writeFileSync denied fs p d = (Ok tt, <[p := File d]> fs).
Proof.
  unfold Fs.writeFileSync. intros (-> & -> & Hp & ->) ->.
  destruct (Fs.stat fs p) as [[d0|]|]; congruence.
Qed.

Lemma writeFileSync_err denied fs p d e fs' :
  Fs.writeFileSync denied fs p d = (Err e, fs') -> fs' = fs.
Proof.
  unfold Fs.writeFileSync.
  destruct (is_empty p); [congruence|].
  destruct (ends_with_slash p); [congruence|].
  destruct (Fs.stat fs p) as [[d0|]|]; try congruence;
    (destruct (Fs.stat fs (Path.dirname p)) as [[d1|]|]; try congruence;
     destruct (denied p); congruence).
Qed.

Lemma writable_lookup fs p : writable fs p -> fs !! p <> Some Dir.
Proof.
  intros (Hne & Hsl & Hp & _). unfold Fs.stat in Hp.
  rewrite (key_id p Hne Hsl) in Hp.
  destruct (String.eqb p "/" || String.eqb p "."); congruence.
Qed.

Lemma stat_written fs p d :
  writable fs p -> Fs.stat (<[p := File d]> fs) p = Some (File d).
Proof.
  intros (Hne & Hsl & Hp & _). unfold Fs.stat in *.
  rewrite (key_id p Hne Hsl) in *.
  destruct (String.eqb p "/" || String.eqb p "."); [congruence|].
  apply lookup_insert_eq.
Qed.

Lemma writable_le fs fs' p d :
  fs_le (<[p := File d]> fs) fs' -> writable fs p -> writable fs' p.
Proof.
  intros Hle Hw. pose proof (stat_written fs p d Hw) as Hs.
  pose proof (writable_lookup fs p Hw) as Hl.
  destruct Hw as (Hne & Hsl & Hp & Hd). repeat split; auto.
  - pose proof (stat_le _ _ p Hle) as K. rewrite Hs in K.
    destruct K as [d' ->]. discriminate.
  - eapply stat_dir_le; [|exact Hd].
    eapply fs_le_trans; [|exact Hle]. apply fs_le_insert_file, Hl.
Qed.

(** ** [mkdirSync] *)

Lemma mkdir_chain_spec denied chain :
  forall fs r fs',
    Fs.mkdir_chain denied fs chain = (r, fs') ->
    fs_le fs fs'
    /\ (forall q, Fs.readFile fs' q = Fs.readFile fs q)
    /\ (r = Ok tt -> Forall (fun q => fs' !! q = Some Dir) chain).
Proof.
  induction chain as [|q chain IH]; intros fs r fs'; simpl.
  - intros [= <- <-]. split; [apply fs_le_refl|]. split; auto.
  - destruct (fs !! q) as [[d|]|] eqn:Eq.
    + intros [= <- <-]. split; [apply fs_le_refl|]. split; [auto|discriminate].
    + intros H. apply IH in H as (Hle & Hrd & Hok). split; [exact Hle|].
      split; [exact Hrd|]. intros ->. constructor; [|auto].
      pose proof (Hle q) as K. rewrite Eq in K. exact K.
    + destruct (denied q).
      * intros [= <- <-]. split; [apply fs_le_refl|]. split; [auto|discriminate].
      * intros H. apply IH in H as (Hle & Hrd & Hok).
        split; [eapply fs_le_trans; [apply fs_le_insert_dir, Eq|exact Hle]|].
        split.
        -- intros q'. rewrite Hrd. unfold Fs.readFile.
           destruct (decide (q = q')) as [<-|Hne].
           ++ rewrite lookup_insert_eq, Eq. reflexivity.
           ++ rewrite lookup_insert_ne by exact Hne. reflexivity.
        -- intros ->. constructor; [|auto].
           pose proof (Hle q) as K. rewrite lookup_insert_eq in K. exact K.
Qed.

Lemma key_empty p : Fs.key p = EmptyString -> p = EmptyString.
Proof.
  unfold Fs.key.
  destruct (drop_while _ (rev (list_ascii_of_string p))) as [|c l] eqn:E.
  - destruct p; [reflexivity|discriminate].
  - intros H. apply (f_equal list_ascii_of_string) in H.
    rewrite list_ascii_of_string_of_list_ascii in H. simpl in H.
    destruct (rev l); discriminate.
Qed.

(** After [mkdirSync(p)] has succeeded, [p] exists. *)
Lemma mkdirSync_ok denied fs p fs' :
  Fs.mkdirSync denied fs p = (Ok tt, fs') ->
  is_empty p = false -> Fs.existsSync fs' p = true.
Proof.
  unfold Fs.mkdirSync. intros H Hne.
  apply mkdir_chain_spec in H as (_ & _ & Hok). specialize (Hok eq_refl).
  unfold Fs.existsSync, Fs.stat. cbn [Fs.ancestors] in Hok.
  unfold Fs.is_root in Hok.
  destruct (String.eqb (Fs.key p) "/" || String.eqb (Fs.key p) ".") eqn:Er;
    [reflexivity|].
  simpl in Hok.
  destruct (is_empty (Fs.key p)) eqn:Ek.
  - destruct (Fs.key p) eqn:Ekey; [|discriminate].
    apply key_empty in Ekey. subst p. discriminate.
  - simpl in Hok. apply Forall_app in Hok as [_ Hok].
    apply Forall_cons in Hok as [Hok _]. rewrite Hok. reflexivity.
Qed.

Lemma mkdirSync_spec denied fs p r fs' :
  Fs.mkdirSync denied fs p = (r, fs') ->
  fs_le fs fs' /\ forall q, Fs.readFile fs' q = Fs.readFile fs q.
Proof.
  unfold Fs.mkdirSync. intros H.
  apply mkdir_chain_spec in H as (Hle & Hrd & _). auto.
Qed.

(** ** One operation *)

Lemma writes_cons {X} (op : Op X) r evs :
  writes (Ev op r :: evs) = (written op r ++ writes evs)%list.
Proof.
  unfold written, writes. destruct op as [e|s]; [reflexivity|].
  destruct s; try reflexivity. destruct r; reflexivity.
Qed.

Lemma exec_le {X} w t n fs (op : Op X) :
  fs_le fs (exec w t n fs op).2.
Proof.
  destruct op as [e|s]; [apply fs_le_refl|].
  destruct s; try apply fs_le_refl; simpl.
  - destruct (Fs.mkdirSync (fs_denied w t n) fs p) as [r fs'] eqn:E.
    apply mkdirSync_spec in E as [H _]. exact H.
  - destruct (Fs.writeFileSync (fs_denied w t n) fs p d) as [[[]|e] fs'] eqn:E.
    + pose proof E as E'. apply writeFileSync_ok in E as (Hw & _ & ->).
      apply fs_le_insert_file, writable_lookup, Hw.
    + apply writeFileSync_err in E as ->. apply fs_le_refl.
Qed.

Lemma readFile_insert_file (fs : FS) p d q :
  Fs.readFile (<[p := File d]> fs) q
  = if String.eqb p q then Some d else Fs.readFile fs q.
Proof.
  unfold Fs.readFile. destruct (String.eqb_spec p q) as [<-|Hne].
  - rewrite lookup_insert_eq. reflexivity.
  - rewrite lookup_insert_ne by exact Hne. reflexivity.
Qed.

Lemma exec_files {X} w t n fs (op : Op X) q :
  Fs.readFile (exec w t n fs op).2 q
  = match last_write q (written op (exec w t n fs op).1) with
    | Some d => Some d
    | None => Fs.readFile fs q
    end.
Proof.
  destruct op as [e|s]; [reflexivity|].
  destruct s; try reflexivity; simpl.
  - destruct (Fs.mkdirSync (fs_denied w t n) fs p) as [r fs'] eqn:E.
    apply mkdirSync_spec in E as [_ H]. simpl. apply H.
  - destruct (Fs.writeFileSync (fs_denied w t n) fs p d) as [[[]|e] fs'] eqn:E.
    + apply writeFileSync_ok in E as (_ & _ & ->). simpl.
      rewrite readFile_insert_file. destruct (String.eqb p q); reflexivity.
    + apply writeFileSync_err in E as ->. reflexivity.
Qed.

Lemma last_write_app q ws1 ws2 :
  last_write q (ws1 ++ ws2)
  = match last_write q ws2 with
    | Some d => Some d
    | None => last_write q ws1
    end.
Proof.
  induction ws1 as [|[p d] ws1 IH]; simpl.
  - destruct (last_write q ws2); reflexivity.
  - rewrite IH. destruct (last_write q ws2); reflexivity.
Qed.

(** * What a run leaves behind *)

(** A file holds what was last written to it during the run, and what it
    held before if it was not written; no file is removed. *)
Lemma run_files {A} w t (p : Prog A) :
  forall n fs fs' evs res,
    run w t n fs p = (fs', evs, res) ->
    forall q,
      Fs.readFile fs' q
      = match last_write q (writes evs) with
        | Some d => Some d
        | None => Fs.readFile fs q
        end.
Proof.
  induction p as [a|e|X op k IH]; intros n fs fs' evs res; simpl.
  - intros [= <- <- _] q. reflexivity.
  - intros [= <- <- _] q. reflexivity.
  - pose proof (exec_files w t n fs op) as Hop.
    destruct (exec w t n fs op) as [r fs1].
    destruct (run w t (S n) fs1 (k r)) as [[fs2 evs2] res2] eqn:E.
    intros [= <- <- _] q. rewrite writes_cons, last_write_app.
    rewrite (IH _ _ _ _ _ _ E q). simpl in Hop. rewrite Hop.
    destruct (last_write q (writes evs2)); reflexivity.
Qed.

Lemma explained_le w t fs0 fs fs' ev :
  fs_le fs0 fs -> explained w t fs fs' ev -> explained w t fs0 fs' ev.
Proof.
  intros H. destruct ev as [X op r]. intros (n & fsI & H1 & H2 & ->).
  exists n, fsI. split; [eapply fs_le_trans; eauto|]. auto.
Qed.

(** Each event of a run is what the environment answered at that point. *)
Lemma run_explained {A} w t (p : Prog A) :
  forall n fs fs' evs res,
    run w t n fs p = (fs', evs, res) ->
    fs_le fs fs' /\ Forall (explained w t fs fs') evs.
Proof.
  induction p as [a|e|X op k IH]; intros n fs fs' evs res; simpl.
  - intros [= <- <- _]. split; [apply fs_le_refl|constructor].
  - intros [= <- <- _]. split; [apply fs_le_refl|constructor].
  - pose proof (exec_le w t n fs op) as Hle.
    destruct (exec w t n fs op) as [r fs1] eqn:Eop.
    destruct (run w t (S n) fs1 (k r)) as [[fs2 evs2] res2] eqn:E.
    intros [= <- <- _]. apply IH in E as [Hle2 Hall]. simpl in Hle.
    split; [eapply fs_le_trans; eauto|]. constructor.
    + exists n, fs. rewrite Eop. simpl. split; [apply fs_le_refl|]. auto.
    + eapply Forall_impl; [exact Hall|]. intros ev. apply explained_le, Hle.
Qed.

(** ** Reading events *)

Lemma explained_NewURL w t fs fs' s u :
  explained w t fs fs' (Ev (Call (NewURL s)) (Ok u)) -> url_parse w s = Some u.
Proof.
  intros (n & fsI & _ & _ & H). simpl in H.
  destruct (url_parse w s); congruence.
Qed.

Lemma explained_NewURL_err w t fs fs' s e :
  explained w t fs fs' (Ev (Call (NewURL s)) (Err e)) -> url_parse w s = None.
Proof.
  intros (n & fsI & _ & _ & H). simpl in H.
  destruct (url_parse w s); congruence.
Qed.

Lemma explained_write_ok w t fs fs' p d :
  explained w t fs fs' (Ev (Call (WriteFileSync p d)) (Ok tt)) ->
  writable fs' p /\ is_file fs' p.
Proof.
  intros (n & fsI & _ & Hle & H). simpl in *.
  destruct (Fs.writeFileSync (fs_denied w t n) fsI p d) as [r fs1] eqn:E.
  simpl in *. subst r. apply writeFileSync_ok in E as (Hw & _ & ->).
  split; [eapply writable_le; eauto|].
  pose proof (stat_le _ _ p Hle) as K. rewrite (stat_written fsI p d Hw) in K.
  exact K.
Qed.

Lemma explained_exists_true w t fs fs' p :
  explained w t fs fs' (Ev (Call (ExistsSync p)) (Ok true)) ->
  Fs.existsSync fs' p = true.
Proof.
  intros (n & fsI & _ & Hle & H). simpl in *. injection H as H.
  eapply existsSync_le; eauto.
Qed.

Lemma explained_exists_false w t fs fs' p :
  explained w t fs fs' (Ev (Call (ExistsSync p)) (Ok false)) ->
  Fs.existsSync fs p = false.
Proof.
  intros (n & fsI & Hle & _ & H). simpl in *. injection H as H.
  destruct (Fs.existsSync fs p) eqn:E; [|reflexivity].
  rewrite (existsSync_le _ _ _ Hle E) in H. discriminate.
Qed.

Lemma explained_mkdir_ok w t fs fs' p :
  explained w t fs fs' (Ev (Call (MkdirSync p)) (Ok tt)) ->
  is_empty p = false -> Fs.existsSync fs' p = true.
Proof.
  intros (n & fsI & _ & Hle & H) Hne. simpl in *.
  destruct (Fs.mkdirSync (fs_denied w t n) fsI p) as [r fs1] eqn:E.
  simpl in *. subst r. eapply existsSync_le; [exact Hle|].
  eapply mkdirSync_ok; eauto.
Qed.

Lemma writable_file_le fs fs' p :
  fs_le fs fs' -> writable fs p -> is_file fs p -> writable fs' p.
Proof.
  intros Hle (Hne & Hsl & _ & Hd) [d Hf]. repeat split; auto.
  - pose proof (stat_le _ _ p Hle) as K. rewrite Hf in K.
    destruct K as [d' ->]. discriminate.
  - eapply stat_dir_le; eauto.
Qed.

(** A file that is there can be overwritten, unless the environment
    refuses. *)
Lemma explained_write_err w t fs fs' p d e :
  explained w t fs fs' (Ev (Call (WriteFileSync p d)) (Err e)) ->
  writable fs p -> is_file fs p ->
  exists n, fs_denied w t n p = true.
Proof.
  intros (n & fsI & Hle & _ & H) Hw Hf. simpl in H. exists n.
  destruct (fs_denied w t n p) eqn:Ed; [reflexivity|].
  rewrite (writeFileSync_writable _ fsI p d) in H; [discriminate| |exact Ed].
  eapply writable_file_le; eauto.
Qed.

Lemma explained_writes w t fs fs' evs :
  Forall (explained w t fs fs') evs ->
  Forall (fun pd => writable fs' pd.1 /\ is_file fs' pd.1) (writes evs).
Proof.
  induction 1 as [|[X op r] evs Hev _ IH]; [constructor|].
  rewrite writes_cons. apply Forall_app. split; [|exact IH].
  unfold written, writes. destruct op as [e|s]; [constructor|].
  destruct s; try constructor. destruct r as [[]|]; [|constructor].
  simpl. constructor; [|constructor]. eapply explained_write_ok, Hev.
Qed.

Ltac Forall_inv :=
  repeat match goal with
    | H : Forall _ (_ :: _) |- _ =>
        let H1 := fresh "Hev" in apply Forall_cons in H as [H1 H]
    | H : Forall _ (_ ++ _) |- _ =>
        let H1 := fresh "Hevs" in apply Forall_app in H as [H1 H]
    | H : Forall _ [] |- _ => clear H
    end.

Lemma normalize_nonempty s : is_empty (Path.normalize s) = false.
Proof.
  unfold Path.normalize. destruct (is_empty s) eqn:E; [reflexivity|].
  destruct (is_empty (String.concat "/" _)) eqn:Eb.
  - destruct (startsWith s "/"), (ends_with_slash s); reflexivity.
  - destruct (startsWith s "/"); [reflexivity|].
    destruct (ends_with_slash s); [|exact Eb].
    destruct (String.concat "/" _); [discriminate|reflexivity].
Qed.

Lemma join_nonempty a b : is_empty (Path.join a b) = false.
Proof.
  unfold Path.join. destruct (is_empty a), (is_empty b);
    try apply normalize_nonempty. reflexivity.
Qed.

Lemma loop_events_saved_parse w t fs fs' page dirPath assets :
  forall outcomes,
    outcomes_fit assets outcomes ->
    Forall (explained w t fs fs') (loop_events page dirPath assets outcomes) ->
    Forall2
      (fun assetUrl o =>
         forall response buffer assetUrlObj,
           o = Saved response buffer assetUrlObj ->
           url_parse w assetUrl = Some assetUrlObj)
      assets outcomes.
Proof.
  induction assets as [|a assets IH]; intros [|o outcomes]; simpl; try tauto.
  - intros _ _. constructor.
  - intros [_ Hfit] H. apply Forall_app in H as [Ha H]. constructor; [|auto].
    intros response buffer u ->. simpl in Ha. Forall_inv.
    eapply explained_NewURL; eauto.
Qed.

Lemma writes_mirror_events_rendered outputDirectory url browser page nav content
    urlObj dirExists elements outcomes closing :
  outcomes_fit (discover elements) outcomes ->
  writes (mirror_events outputDirectory url
            (Rendered browser page nav content urlObj dirExists elements)
            outcomes closing)
  = (index_path outputDirectory urlObj, Utf8 content)
    :: omap (asset_written (dir_path outputDirectory urlObj)) outcomes.
Proof.
  intros Hfit. cbn [mirror_events]. unfold writes. rewrite !omap_app.
  fold writes. rewrite writes_rendered.
  rewrite writes_loop_events by (apply outcomes_fit_length, Hfit).
  destruct closing; simpl; rewrite app_nil_r; reflexivity.
Qed.

(** What a job knows once the page is saved: the URL parses, the directory of
    the host exists, and [index.html] is a file in it. *)
Lemma saved_events_explained w t fs fs' outputDirectory url browser page nav
    content urlObj dirExists :
  Forall (explained w t fs fs')
    (saved_events outputDirectory url browser page nav content urlObj dirExists) ->
  url_parse w url = Some urlObj
  /\ Fs.existsSync fs' (dir_path outputDirectory urlObj) = true
  /\ writable fs' (index_path outputDirectory urlObj)
  /\ is_file fs' (index_path outputDirectory urlObj).
Proof.
  unfold saved_events, loaded_events, dir_events. intros H.
  destruct dirExists; simpl in H; Forall_inv.
  - split; [eapply explained_NewURL; eauto|].
    split; [eapply explained_exists_true; eauto|].
    eapply explained_write_ok; eauto.
  - split; [eapply explained_NewURL; eauto|].
    split; [eapply explained_mkdir_ok; eauto; apply join_nonempty|].
    eapply explained_write_ok; eauto.
Qed.

Lemma mirror_result_ok o closing :
  mirror_result o closing = Ok tt ->
  closing = Ok tt
  /\ exists browser page nav content urlObj dirExists elements,
      o = Rendered browser page nav content urlObj dirExists elements.
Proof.
  unfold mirror_result. destruct o; simpl; try discriminate.
  intros ->. split; [reflexivity|]. repeat eexists.
Qed.

(** C7: a job that succeeds has written the content of the page to
    [outputDirectory/<host>/index.html] and then, for each asset that was
    saved, in the order of discovery, the buffer that was fetched for it to
    [outputDirectory/<host>/<path of the asset URL>], the two parts joined by
    [path.join]; it has written nothing else.  At the end each file holds
    what was last written to it, and the directory of each file that was
    written exists. *)
Theorem mirror_output_layout outputDirectory w t n fs url fs' evs :
  run w t n fs (mirror outputDirectory url) = (fs', evs, Ok tt) ->
  exists browser page nav content urlObj dirExists elements outcomes,
    evs = mirror_events outputDirectory url
            (Rendered browser page nav content urlObj dirExists elements)
            outcomes (Ok tt)
    /\ url_parse w url = Some urlObj
    /\ outcomes_fit (discover elements) outcomes
    /\ writes evs
       = (Path.join (Path.join outputDirectory (hostname urlObj)) "index.html",
          Utf8 content)
         :: omap (asset_written (Path.join outputDirectory (hostname urlObj)))
              outcomes
    /\ Forall2
         (fun assetUrl o =>
            forall response buffer assetUrlObj,
              o = Saved response buffer assetUrlObj ->
              url_parse w assetUrl = Some assetUrlObj)
         (discover elements) outcomes
    /\ (forall p,
           Fs.readFile fs' p
           = match last_write p (writes evs) with
             | Some d => Some d
             | None => Fs.readFile fs p
             end)
    /\ Forall (fun pd => Fs.stat fs' (Path.dirname pd.1) = Some Dir) (writes evs).
Proof.
  intros Hrun.
  pose proof (run_files _ _ _ _ _ _ _ _ Hrun) as Hfiles.
  pose proof (run_explained _ _ _ _ _ _ _ _ Hrun) as [_ Hexp].
  apply run_path, mirror_path in Hrun
    as (o & outcomes & closing & Hfit & -> & Hres).
  symmetry in Hres. apply mirror_result_ok in Hres
    as (-> & browser & page & nav & content & urlObj & dirExists & elements & ->).
  exists browser, page, nav, content, urlObj, dirExists, elements, outcomes.
  cbn [page_assets] in Hfit.
  split; [reflexivity|]. split.
  { cbn [mirror_events page_events] in Hexp.
    apply Forall_app in Hexp as [Hpage _].
    apply Forall_app in Hpage as [Hsaved _].
    apply saved_events_explained in Hsaved as [H _]. exact H. }
  split; [exact Hfit|]. split; [apply writes_mirror_events_rendered, Hfit|].
  split.
  { cbn [mirror_events] in Hexp. apply Forall_app in Hexp as [_ Hexp].
    apply Forall_app in Hexp as [Hexp _].
    eapply loop_events_saved_parse; eauto. }
  split; [exact Hfiles|].
  eapply Forall_impl; [apply (explained_writes _ _ _ _ _ Hexp)|].
  intros [p d] [(_ & _ & _ & H) _]. exact H.
Qed.

(** The scenario of the specification: the page of example.com with an
    image and a script. *)
Lemma mirror_output_layout_example_com :
  let w := Web.world Scenario.example_com ["https://example.com"] in
  let r := run w (TMirror 0) 0 ∅ (mirror "outputRoot" "https://example.com") in
  r.2 = Ok tt
  /\ map fst (writes r.1.2)
     = ["outputRoot/example.com/index.html"; "outputRoot/example.com/logo.png";
        "outputRoot/example.com/app.js"]
  /\ Forall (fun pd => Fs.stat r.1.1 (Path.dirname pd.1) = Some Dir) (writes r.1.2)
  /\ (forall p,
         Fs.readFile r.1.1 p
         = match last_write p (writes r.1.2) with
           | Some d => Some d
           | None => None
           end).
Proof.
  intros w r.
  assert (Hrun : run w (TMirror 0) 0 ∅ (mirror "outputRoot" "https://example.com")
                 = (r.1.1, r.1.2, Ok tt)) by (vm_compute; reflexivity).
  destruct (mirror_output_layout "outputRoot" w (TMirror 0) 0 ∅
              "https://example.com" r.1.1 r.1.2 Hrun)
    as (browser & page & nav & content & urlObj & dirExists & elements
        & outcomes & _ & _ & _ & _ & _ & Hfiles & Hdirs).
  split; [reflexivity|]. split; [reflexivity|]. split; [exact Hdirs|].
  exact Hfiles.
Defined.

(** * Failures of assets *)

Lemma loop_reports_length assets :
  forall outcomes,
    length outcomes = length assets ->
    length (loop_reports assets outcomes)
    = length (List.filter (fun o => negb (is_saved o)) outcomes).
Proof.
  induction assets as [|a assets IH]; intros [|o outcomes]; try discriminate;
    try reflexivity.
  intros [= H]. simpl. destruct o; simpl; rewrite (IH _ H); reflexivity.
Qed.

Lemma errors_mirror_events outputDirectory url o outcomes closing :
  outcomes_fit (page_assets o) outcomes ->
  errors (mirror_events outputDirectory url o outcomes closing)
  = loop_reports (page_assets o) outcomes.
Proof.
  intros Hfit.
  destruct o as [| | | | | | ? ? ? ? ? []|? ? ? ? ? []|? ? ? ? ? []];
    try (destruct outcomes; [reflexivity|destruct Hfit]).
  all: cbn [mirror_events page_assets]; unfold errors; rewrite !omap_app;
    fold errors; rewrite errors_loop_events; destruct closing; simpl;
    apply app_nil_r.
Qed.

(** C4: the [console.error] lines of a job are those of its assets, one for
    each asset that was not saved and none for the others; every discovered
    asset is handled, whatever happened to those before it; [index.html] is a
    file when the job ends; and the job ends as [browser.close] does.  In the
    scenario of a page whose only asset cannot be fetched, the job is
    fulfilled, [index.html] holds the page and one failure is reported. *)
Theorem asset_failures_are_isolated :
  (forall outputDirectory w t n fs url,
      let r := run w t n fs (mirror outputDirectory url) in
      exists o outcomes closing,
        r.1.2 = mirror_events outputDirectory url o outcomes closing
        /\ outcomes_fit (page_assets o) outcomes
        /\ length outcomes = length (page_assets o)
        /\ errors r.1.2 = loop_reports (page_assets o) outcomes
        /\ length (errors r.1.2)
           = length (List.filter (fun o => negb (is_saved o)) outcomes)
        /\ match o with
           | Rendered browser page nav content urlObj dirExists elements =>
               is_file r.1.1 (index_path outputDirectory urlObj)
               /\ r.2 = closing
           | _ => errors r.1.2 = []
           end)
  /\ (let w := Web.world Scenario.broken_image ["https://example.com"] in
      let r := run w (TMirror 0) 0 ∅ (mirror "outputRoot" "https://example.com") in
      r.2 = Ok tt
      /\ errors r.1.2
         = [FailedToDownloadAsset "https://example.com/gone.png"
              (ExternalError "net::ERR_FAILED")]
      /\ Fs.readFile r.1.1 "outputRoot/example.com/index.html"
         = Some (Utf8 "<html><img src=gone.png></html>")).
Proof.
  split; [|vm_compute; repeat split].
  intros outputDirectory w t n fs url r. subst r.
  destruct (run w t n fs (mirror outputDirectory url)) as [[fs' evs] res] eqn:Hrun.
  pose proof (run_explained _ _ _ _ _ _ _ _ Hrun) as [_ Hexp].
  apply run_path, mirror_path in Hrun
    as (o & outcomes & closing & Hfit & -> & ->).
  exists o, outcomes, closing. cbn [fst snd].
  pose proof (outcomes_fit_length _ _ Hfit) as Hlen.
  split; [reflexivity|]. split; [exact Hfit|]. split; [exact Hlen|].
  rewrite (errors_mirror_events _ _ _ _ _ Hfit).
  split; [reflexivity|]. split; [apply loop_reports_length, Hlen|].
  destruct o; try (destruct outcomes; [reflexivity|discriminate Hlen]).
  split; [|reflexivity].
  cbn [mirror_events page_events] in Hexp.
  apply Forall_app in Hexp as [Hpage _].
  apply Forall_app in Hpage as [Hsaved _].
  apply saved_events_explained in Hsaved as (_ & _ & _ & H). exact H.
Qed.

(** * Mirroring twice *)

Lemma explained_await {X} w t fs fs' (e : Ext X) r :
  explained w t fs fs' (Ev (Await e) r) -> exists n, r = answer w X t n e.
Proof. intros (n & fsI & _ & _ & H). exists n. exact H. Qed.

Lemma mkdir_chain_dirs denied (fs : FS) chain :
  Forall (fun q => fs !! q = Some Dir) chain ->
  Fs.mkdir_chain denied fs chain = (Ok tt, fs).
Proof.
  induction 1 as [|q chain Hq _ IH]; simpl; [reflexivity|].
  rewrite Hq. exact IH.
Qed.

Lemma explained_mkdir_again w t fs fs' q :
  explained w t fs fs' (Ev (Call (MkdirSync q)) (Ok tt)) ->
  forall denied fsJ,
    fs_le fs' fsJ -> Fs.mkdirSync denied fsJ q = (Ok tt, fsJ).
Proof.
  intros (n & fsI & _ & Hle & H) denied fsJ HleJ. simpl in *.
  unfold Fs.mkdirSync in *.
  destruct (Fs.mkdir_chain _ fsI _) as [r fs1] eqn:E. simpl in *. subst r.
  apply mkdir_chain_spec in E as (_ & _ & Hok). specialize (Hok eq_refl).
  apply mkdir_chain_dirs. eapply Forall_impl; [exact Hok|].
  intros k Hk. simpl in Hk.
  pose proof (fs_le_trans _ _ _ Hle HleJ k) as K. rewrite Hk in K. exact K.
Qed.

Lemma loop_events_saved_again w t fs fs' page dirPath assets :
  forall outcomes,
    outcomes_fit assets outcomes ->
    Forall (explained w t fs fs') (loop_events page dirPath assets outcomes) ->
    Forall
      (fun pd =>
         forall denied fsJ,
           fs_le fs' fsJ ->
           Fs.mkdirSync denied fsJ (Path.dirname pd.1) = (Ok tt, fsJ))
      (omap (asset_written dirPath) outcomes).
Proof.
  induction assets as [|a assets IH]; intros [|o outcomes]; simpl; try tauto.
  - intros _ _. constructor.
  - intros [_ Hfit] H. apply Forall_app in H as [Ha H].
    specialize (IH _ Hfit H). destruct o; simpl; try exact IH.
    constructor; [|exact IH]. simpl in Ha. Forall_inv.
    eapply explained_mkdir_again; eauto.
Qed.

Lemma is_ok_unit (r : Result unit) : is_ok r = true -> r = Ok tt.
Proof. destruct r as [[]|]; [reflexivity|discriminate]. Qed.

(** In a second run on what the first run left, with a browser that works
    and a file system that refuses nothing, the page phase goes through. *)
Lemma second_run_renders outputDirectory url w1 t1 fs0 fs1 browser1 page1 nav1
    content1 urlObj dirExists1 w2 t2 fs2 o outcomes closing :
  Forall (explained w1 t1 fs0 fs1)
    (saved_events outputDirectory url browser1 page1 nav1 content1 urlObj
       dirExists1) ->
  page_ops_succeed w2 t2 url ->
  url_parse w2 url = url_parse w1 url ->
  (forall n p, fs_denied w2 t2 n p = false) ->
  Forall (explained w2 t2 fs1 fs2)
    (mirror_events outputDirectory url o outcomes closing) ->
  closing = Ok tt
  /\ exists browser page nav content elements,
      o = Rendered browser page nav content urlObj true elements.
Proof.
  intros H1 Hops Hparse Hden H2.
  apply saved_events_explained in H1 as (Hu & Hdir & Hw & Hf).
  rewrite <- Hparse in Hu.
  assert (Hcontra : forall X (e : Ext X) err,
             explained w2 t2 fs1 fs2 (Ev (Await e) (Err err)) ->
             (forall n, is_ok (answer w2 X t2 n e) = true) -> False).
  { intros X e err Hev Hall. apply explained_await in Hev as [n Hn].
    specialize (Hall n). rewrite <- Hn in Hall. discriminate. }
  destruct o as [| | | | | | ? ? ? ? ? dx|? ? ? ? ? dx|? ? ? ? ? dx];
    try destruct dx;
    cbn [mirror_events page_events] in H2;
    unfold saved_events, loaded_events, dir_events in H2; simpl in H2;
    Forall_inv;
    try match goal with
      | H : explained _ _ _ _ (Ev (Await _) (Err _)) |- _ =>
          exfalso; eapply Hcontra; [exact H|]; intros n0; apply Hops
      end;
    try match goal with
      | H : explained _ _ _ _ (Ev (Call (NewURL _)) (Err _)) |- _ =>
          apply explained_NewURL_err in H; congruence
      end;
    try match goal with
      | H : explained _ _ _ _ (Ev (Call (NewURL _)) (Ok ?u)) |- _ =>
          apply explained_NewURL in H;
          assert (u = urlObj) by congruence; subst u
      end;
    try match goal with
      | H : explained _ _ _ _ (Ev (Call (ExistsSync _)) (Ok false)) |- _ =>
          apply explained_exists_false in H;
          unfold dir_path in *; congruence
      end;
    try match goal with
      | H : explained _ _ _ _ (Ev (Call (WriteFileSync _ _)) (Err _)) |- _ =>
          eapply explained_write_err in H; [|exact Hw|exact Hf];
          destruct H as [n0 H]; rewrite Hden in H; discriminate
      end.
  split.
  - repeat match goal with
      | H : Forall _ (_ ++ _) |- _ => apply Forall_app in H as [_ H]
      end.
    unfold close_events in H2. apply Forall_cons in H2 as [Hc _].
    apply explained_await in Hc as [n0 Hc]. subst closing.
    apply is_ok_unit, Hops.
  - repeat eexists.
Qed.

Lemma is_file_le fs fs' p : fs_le fs fs' -> is_file fs p -> is_file fs' p.
Proof.
  intros Hle [d Hd]. pose proof (stat_le fs fs' p Hle) as H.
  rewrite Hd in H. exact H.
Qed.

(** In a run on a file system that refuses nothing, an asset that is
    fetched, and whose target is a file that can be written and whose
    directory can be made, is saved: neither [fs.mkdirSync] nor
    [fs.writeFileSync] throws for it. *)
Lemma loop_events_saved_anew w t fs fs' page dirPath (known : list string) assets :
  (forall n p, fs_denied w t n p = false) ->
  Forall
    (fun p =>
       writable fs p /\ is_file fs p
       /\ forall denied fsJ,
           fs_le fs fsJ -> Fs.mkdirSync denied fsJ (Path.dirname p) = (Ok tt, fsJ))
    known ->
  forall outcomes,
    outcomes_fit assets outcomes ->
    Forall (explained w t fs fs') (loop_events page dirPath assets outcomes) ->
    Forall2
      (fun assetUrl o =>
         forall p,
           asset_target dirPath o = Some p -> p ∈ known ->
           exists response buffer assetUrlObj,
             o = Saved response buffer assetUrlObj
             /\ url_parse w assetUrl = Some assetUrlObj
             /\ p = Path.join dirPath (pathname assetUrlObj)
             /\ (exists n, answer w _ t n (PageGoto page assetUrl false)
                           = Ok (Some response))
             /\ (exists n, answer w _ t n (ResponseBuffer response) = Ok buffer))
      assets outcomes.
Proof.
  intros Hden Hknown.
  induction assets as [|a assets IH]; intros [|o outcomes]; simpl; try tauto.
  - intros _ _. constructor.
  - intros [_ Hfit] H. apply Forall_app in H as [Ha H]. constructor; [|auto].
    intros p Hp Hin. rewrite Forall_forall in Hknown.
    destruct (Hknown p Hin) as (Hw & Hf & Hmk).
    destruct o; simpl in Hp; try discriminate; injection Hp as <-;
      simpl in Ha; Forall_inv.
    + exfalso.
      match goal with
      | H : explained _ _ _ _ (Ev (Call (MkdirSync _)) (Err _)) |- _ =>
          destruct H as (n & fsI & Hle & _ & Heq)
      end.
      simpl in Heq. rewrite (Hmk _ _ Hle) in Heq. discriminate Heq.
    + exfalso.
      match goal with
      | H : explained _ _ _ _ (Ev (Call (WriteFileSync _ _)) (Err _)) |- _ =>
          eapply explained_write_err in H; [|exact Hw|exact Hf];
          destruct H as [n H]; rewrite Hden in H; discriminate H
      end.
    + exists response, buffer, assetUrlObj. split; [reflexivity|].
      split; [eapply explained_NewURL; eauto|]. split; [reflexivity|].
      split.
      * match goal with
        | H : explained _ _ _ _ (Ev (Await (PageGoto _ _ _)) _) |- _ =>
            apply explained_await in H as [n H]; exists n; symmetry; exact H
        end.
      * match goal with
        | H : explained _ _ _ _ (Ev (Await (ResponseBuffer _)) _) |- _ =>
            apply explained_await in H as [n H]; exists n; symmetry; exact H
        end.
Qed.

(** C9: when a first run has mirrored the URL, a second run into the same
    output root, with a browser that works and a file system that refuses
    nothing, is fulfilled as well.  It finds the directory, writes
    [index.html] again, and at its end every file holds what the second run
    last wrote to it, or, if the second run did not write it, what it held
    after the first run: nothing is deleted.  Every file that the first run
    wrote can be written again at any later time, and the directory of every
    asset that it saved can be made again, without an error.

    The second run itself: its operations are those of a rendered page
    that finds its directory, with the content that [page.content()] gives
    now, followed by one outcome for each asset that is discovered now, and
    it writes [index.html] and then the assets that it saves.  An asset of
    the second run that is fetched and whose file is one that the first run
    saved an asset to is saved again, its buffer among the writes of the
    second run and so written over the old file, whatever URL it comes from: no outcome of the second run is a failure of
    [fs.mkdirSync] or [fs.writeFileSync] on such a file.  The files that the
    first run wrote are files afterwards. *)
Theorem mirror_twice_overwrites outputDirectory url w1 t1 n1 fs0 fs1 evs1
    w2 t2 n2 :
  run w1 t1 n1 fs0 (mirror outputDirectory url) = (fs1, evs1, Ok tt) ->
  page_ops_succeed w2 t2 url ->
  url_parse w2 url = url_parse w1 url ->
  (forall n p, fs_denied w2 t2 n p = false) ->
  exists fs2 evs2,
    run w2 t2 n2 fs1 (mirror outputDirectory url) = (fs2, evs2, Ok tt)
    /\ (forall p,
           Fs.readFile fs2 p
           = match last_write p (writes evs2) with
             | Some d => Some d
             | None => Fs.readFile fs1 p
             end)
    /\ fs_le fs1 fs2
    /\ (exists urlObj content rest,
           url_parse w1 url = Some urlObj
           /\ logged evs2 !! 2 = Some (MainContentSaved (index_path outputDirectory urlObj))
           /\ writes evs2 = (index_path outputDirectory urlObj, Utf8 content) :: rest)
    /\ Forall
         (fun pd =>
            forall n fsJ d,
              fs_le fs1 fsJ ->
              Fs.writeFileSync (fs_denied w2 t2 n) fsJ pd.1 d
              = (Ok tt, <[pd.1 := File d]> fsJ))
         (writes evs1)
    /\ Forall
         (fun pd =>
            forall n fsJ,
              fs_le fs1 fsJ ->
              Fs.mkdirSync (fs_denied w2 t2 n) fsJ (Path.dirname pd.1)
              = (Ok tt, fsJ))
         (tl (writes evs1))
    /\ (exists urlObj browser page nav content elements outcomes,
           let dirPath := Path.join outputDirectory (hostname urlObj) in
           url_parse w1 url = Some urlObj
           /\ evs2 = mirror_events outputDirectory url
                       (Rendered browser page nav content urlObj true elements)
                       outcomes (Ok tt)
           /\ (exists n, answer w2 _ t2 n (PageContent page) = Ok content)
           /\ (exists n, answer w2 _ t2 n (PageQueryAssets page) = Ok elements)
           /\ outcomes_fit (discover elements) outcomes
           /\ writes evs2
              = (Path.join dirPath "index.html", Utf8 content)
                :: omap (asset_written dirPath) outcomes
           /\ Forall2
                (fun assetUrl o =>
                   forall p,
                     asset_target dirPath o = Some p ->
                     p ∈ map fst (tl (writes evs1)) ->
                     exists response buffer assetUrlObj,
                       o = Saved response buffer assetUrlObj
                       /\ url_parse w2 assetUrl = Some assetUrlObj
                       /\ p = Path.join dirPath (pathname assetUrlObj)
                       /\ (exists n, answer w2 _ t2 n (PageGoto page assetUrl false)
                                     = Ok (Some response))
                       /\ (exists n, answer w2 _ t2 n (ResponseBuffer response)
                                     = Ok buffer)
                       /\ (p, Raw buffer) ∈ writes evs2)
                (discover elements) outcomes)
    /\ Forall (fun pd => is_file fs2 pd.1) (writes evs1).
Proof.
  intros Hrun1 Hops Hparse Hden.
  pose proof (run_explained _ _ _ _ _ _ _ _ Hrun1) as [_ Hexp1].
  apply run_path, mirror_path in Hrun1
    as (o1 & outcomes1 & closing1 & Hfit1 & -> & Hres1).
  symmetry in Hres1. apply mirror_result_ok in Hres1
    as (-> & browser1 & page1 & nav1 & content1 & urlObj & dx1 & elements1 & ->).
  cbn [page_assets] in Hfit1.
  pose proof (explained_writes _ _ _ _ _ Hexp1) as Hw1.
  rewrite (writes_mirror_events_rendered _ _ _ _ _ _ _ _ _ _ _ Hfit1) in *.
  cbn [mirror_events page_events] in Hexp1.
  apply Forall_app in Hexp1 as [Hpage1 Hrest1].
  apply Forall_app in Hpage1 as [Hsaved1 _].
  apply Forall_app in Hrest1 as [Hloop1 _].
  destruct (run w2 t2 n2 fs1 (mirror outputDirectory url))
    as [[fs2 evs2] res2] eqn:Hrun2.
  pose proof (run_files _ _ _ _ _ _ _ _ Hrun2) as Hfiles2.
  pose proof (run_explained _ _ _ _ _ _ _ _ Hrun2) as [Hle2 Hexp2].
  apply run_path, mirror_path in Hrun2
    as (o2 & outcomes2 & closing2 & Hfit2 & -> & ->).
  destruct (second_run_renders _ _ _ _ _ _ _ _ _ _ _ _ _ _ _ _ _ _
              Hsaved1 Hops Hparse Hden Hexp2)
    as (-> & browser2 & page2 & nav2 & content2 & elements2 & ->).
  cbn [page_assets] in Hfit2.
  pose proof (loop_events_saved_again _ _ _ _ _ _ _ _ Hfit1 Hloop1) as Hmk1.
  assert (Hu : url_parse w1 url = Some urlObj)
    by (apply saved_events_explained in Hsaved1 as [H _]; exact H).
  exists fs2. eexists. split; [reflexivity|].
  split; [exact Hfiles2|]. split; [exact Hle2|]. split; [|split; [|split; [|split]]].
  - exists urlObj, content2. eexists.
    split; [exact Hu|]. split; [reflexivity|].
    apply (writes_mirror_events_rendered _ _ _ _ _ _ _ _ _ _ _ Hfit2).
  - eapply Forall_impl; [exact Hw1|]. intros [p d0] [Hw Hf] n fsJ d HleJ.
    apply writeFileSync_writable; [|apply Hden].
    eapply writable_file_le; eauto.
  - cbn [tl]. eapply Forall_impl; [exact Hmk1|].
    intros pd H n fsJ HleJ. apply H, HleJ.
  - exists urlObj, browser2, page2, nav2, content2, elements2, outcomes2.
    cbn zeta. split; [exact Hu|]. split; [reflexivity|].
    cbn [mirror_events page_events] in Hexp2.
    apply Forall_app in Hexp2 as [Hpage2 Hrest2].
    apply Forall_app in Hpage2 as [Hsaved2 Hquery2].
    apply Forall_app in Hrest2 as [Hloop2 _].
    split; [|split; [|split; [exact Hfit2|split]]].
    + unfold saved_events, loaded_events in Hsaved2. simpl in Hsaved2. Forall_inv.
      match goal with
      | H : explained _ _ _ _ (Ev (Await (PageContent _)) _) |- _ =>
          apply explained_await in H as [n H]; exists n; symmetry; exact H
      end.
    + apply Forall_cons in Hquery2 as [Hq _].
      apply explained_await in Hq as [n Hq]. exists n. symmetry. exact Hq.
    + apply (writes_mirror_events_rendered _ _ _ _ _ _ _ _ _ _ _ Hfit2).
    + cbn [tl].
      assert (Hknown :
                Forall
                  (fun p =>
                     writable fs1 p /\ is_file fs1 p
                     /\ forall denied fsJ,
                         fs_le fs1 fsJ ->
                         Fs.mkdirSync denied fsJ (Path.dirname p) = (Ok tt, fsJ))
                  (map fst (omap (asset_written (dir_path outputDirectory urlObj))
                              outcomes1))).
      { apply Forall_cons in Hw1 as [_ Hw1]. apply Forall_fmap.
        pose proof (proj2 (Forall_and _ _) (conj Hw1 Hmk1)) as Hboth.
        eapply Forall_impl; [exact Hboth|].
        intros [p d] [[Hw Hf] Hm]. simpl in *. auto. }
      pose proof (loop_events_saved_anew w2 t2 fs1 fs2 page2
                    (dir_path outputDirectory urlObj) _ (discover elements2)
                    Hden Hknown outcomes2 Hfit2 Hloop2) as Hanew.
      apply Forall2_same_length_lookup.
      apply Forall2_same_length_lookup in Hanew as [Hlen Hanew].
      split; [exact Hlen|]. intros i a o Ha Ho p Hp Hin.
      destruct (Hanew i a o Ha Ho p Hp Hin)
        as (response & buffer & u & -> & Hpu & -> & Hgoto & Hbuf).
      exists response, buffer, u.
      split; [reflexivity|]. split; [exact Hpu|]. split; [reflexivity|].
      split; [exact Hgoto|]. split; [exact Hbuf|].
      rewrite (writes_mirror_events_rendered _ _ _ _ _ _ _ _ _ _ _ Hfit2).
      right. apply list_elem_of_omap. exists (Saved response buffer u).
      split; [eapply list_elem_of_lookup_2; eauto|reflexivity].
  - eapply Forall_impl; [exact Hw1|]. intros [p d] [_ Hf]. simpl in *.
    eapply is_file_le; eauto.
Qed.

(** The page of example.com mirrored twice, the second time after the
    image has changed and the script has gone from the page: the second run
    is fulfilled and prints no error, it writes [index.html] and [logo.png]
    again, which hold the new content afterwards, and [app.js], which it
    does not write, holds what the first run saved. *)
Lemma mirror_twice_example_com :
  let w1 := Web.world Scenario.example_com ["https://example.com"] in
  let w2 := Web.world Scenario.example_com_changed ["https://example.com"] in
  let r1 := run w1 (TMirror 0) 0 ∅ (mirror "outputRoot" "https://example.com") in
  let r2 := run w2 (TMirror 0) 0 r1.1.1 (mirror "outputRoot" "https://example.com") in
  r1.2 = Ok tt /\ r2.2 = Ok tt
  /\ map fst (writes r1.1.2)
     = ["outputRoot/example.com/index.html"; "outputRoot/example.com/logo.png";
        "outputRoot/example.com/app.js"]
  /\ writes r2.1.2
     = [("outputRoot/example.com/index.html", Utf8 "<html><img src=logo.png></html>");
        ("outputRoot/example.com/logo.png", Raw [Byte.x47; Byte.x49; Byte.x46])]
  /\ errors r2.1.2 = []
  /\ Fs.readFile r2.1.1 "outputRoot/example.com/index.html"
     = Some (Utf8 "<html><img src=logo.png></html>")
  /\ Fs.readFile r2.1.1 "outputRoot/example.com/logo.png"
     = Some (Raw [Byte.x47; Byte.x49; Byte.x46])
  /\ Fs.readFile r2.1.1 "outputRoot/example.com/app.js"
     = Some (Raw [Byte.x2f; Byte.x2f])
  /\ Forall (fun pd => is_file r2.1.1 pd.1) (writes r1.1.2)
  /\ forall p,
      Fs.readFile r2.1.1 p
      = match last_write p (writes r2.1.2) with
        | Some d => Some d
        | None => Fs.readFile r1.1.1 p
        end.
Proof.
  intros w1 w2 r1 r2.
  assert (Hrun1 : run w1 (TMirror 0) 0 ∅ (mirror "outputRoot" "https://example.com")
                  = (r1.1.1, r1.1.2, Ok tt)) by (vm_compute; reflexivity).
  assert (Hops : page_ops_succeed w2 (TMirror 0) "https://example.com")
    by (intros n; repeat split; intros; reflexivity).
  destruct (mirror_twice_overwrites "outputRoot" "https://example.com"
              w1 (TMirror 0) 0 ∅ r1.1.1 r1.1.2 w2 (TMirror 0) 0
              Hrun1 Hops eq_refl (fun _ _ => eq_refl))
    as (fs2 & evs2 & Hrun2 & Hfiles & _ & _ & _ & _ & _ & Hkept).
  fold r2 in Hrun2.
  split; [reflexivity|]. split; [rewrite Hrun2; reflexivity|].
  split; [vm_compute; reflexivity|]. split; [vm_compute; reflexivity|].
  split; [vm_compute; reflexivity|]. split; [vm_compute; reflexivity|].
  split; [vm_compute; reflexivity|]. split; [vm_compute; reflexivity|].
  rewrite Hrun2. split; [exact Hkept|exact Hfiles].
Defined.

(** * The scheduler *)

Lemma default_admissible {X} (op : Op X) : admissible op (default_result op).
Proof. destruct op as [e|s]; [exact I|]. destruct s; simpl; auto. Qed.

Lemma default_path {A} (p : Prog A) :
  path p (default_events p) (default_outcome p).
Proof.
  induction p as [a|e|X op k IH]; simpl; auto.
  exists (default_result op), (default_events (k (default_result op))).
  split; [apply default_admissible|]. split; [reflexivity|apply IH].
Qed.

Section Weights.

Context {R : Type} (f : Event -> option R).

Lemma weight_app evs1 evs2 :
  weight f (evs1 ++ evs2) = weight f evs1 + weight f evs2.
Proof. unfold weight. rewrite omap_app, length_app. reflexivity. Qed.

(** If what is left of a program continues every execution of it after
    [evs0], the rest is uniform when the program is. *)
Lemma uniform_rest (p p' : Prog unit) evs0 :
  (forall evs res, path p' evs res -> path p (evs0 ++ evs)%list res) ->
  uniform f p ->
  uniform f p'
  /\ weight f (default_events p) = weight f evs0 + weight f (default_events p').
Proof.
  intros Hcont Hu.
  assert (H0 : weight f (default_events p)
               = weight f evs0 + weight f (default_events p')).
  { pose proof (Hcont _ _ (default_path p')) as H. apply Hu in H.
    rewrite weight_app in H. lia. }
  split; [|exact H0].
  intros evs res H. apply Hcont, Hu in H. rewrite weight_app in H. lia.
Qed.

Lemma uniform_lift (res : Result unit) :
  uniform f (lift res) /\ weight f (default_events (lift res)) = 0.
Proof.
  split; [|destruct res; reflexivity].
  intros evs res' H. apply path_lift in H as [-> _]. destruct res; reflexivity.
Qed.

Local Abbreviation left_to_do := (left_to_do f).
Local Abbreviation conserved := (conserved f).

Lemma all_events_app tr t evs :
  all_events (tr ++ tag t evs) = (all_events tr ++ evs)%list.
Proof.
  unfold all_events, tag. rewrite map_app, map_map. simpl.
  rewrite map_id. reflexivity.
Qed.

Lemma sum_list_with_insert (g : Job -> nat) (l : list Job) i x y :
  l !! i = Some y ->
  sum_list_with g (<[i := x]> l) + g y = sum_list_with g l + g x.
Proof.
  revert i. induction l as [|z l IH]; intros [|i]; simpl; try discriminate.
  - intros [= ->]. lia.
  - intros H. specialize (IH _ H). lia.
Qed.

Lemma conserved_spawn w K pool t p :
  conserved K pool -> uniform f p ->
  conserved (K + weight f (default_events p)) (spawn w pool t p).
Proof.
  intros [Hall Hsum] Hu. unfold spawn.
  destruct (settle w t 0 (pool_fs pool) p) as [[[fs evs0] n] p'] eqn:E.
  destruct (uniform_rest p p' evs0) as [Hu' Hw]; [|exact Hu|].
  { intros evs res. eapply settle_path, E. }
  split; simpl.
  - apply Forall_app. split; [exact Hall|]. constructor; [exact Hu'|constructor].
  - rewrite all_events_app, weight_app, sum_list_with_app. simpl.
    unfold left_to_do at 2. simpl. lia.
Qed.

Lemma conserved_step w K pool i :
  conserved K pool -> conserved K (step w pool i).
Proof.
  intros [Hall Hsum]. unfold step.
  destruct (pool_jobs pool !! i) as [[t n p]|] eqn:Ei; [|split; assumption].
  destruct (resume w t n (pool_fs pool) p) as [[[fs evs0] n'] p'] eqn:E.
  pose proof (proj1 (Forall_lookup _ _) Hall _ _ Ei) as Hu. simpl in Hu.
  destruct (uniform_rest p p' evs0) as [Hu' Hw]; [|exact Hu|].
  { intros evs res. eapply resume_path, E. }
  split; simpl.
  - apply Forall_insert; assumption.
  - rewrite all_events_app, weight_app.
    pose proof (sum_list_with_insert left_to_do _ i (mkJob t n' p') _ Ei) as Hs.
    unfold left_to_do at 2 4 in Hs. simpl in Hs. lia.
Qed.

Lemma conserved_finish w K pool i :
  conserved K pool -> conserved K (finish w pool i).
Proof.
  intros [Hall Hsum]. unfold finish.
  destruct (pool_jobs pool !! i) as [[t n p]|] eqn:Ei; [|split; assumption].
  destruct (run w t n (pool_fs pool) p) as [[fs evs] res] eqn:E.
  pose proof (proj1 (Forall_lookup _ _) Hall _ _ Ei) as Hu. simpl in Hu.
  apply run_path in E. apply Hu in E.
  destruct (uniform_lift res) as [Hl H0].
  split; simpl.
  - apply Forall_insert; assumption.
  - rewrite all_events_app, weight_app.
    pose proof (sum_list_with_insert left_to_do _ i
                  (mkJob t (n + length evs) (lift res)) _ Ei) as Hs.
    unfold left_to_do at 2 4 in Hs. simpl in Hs. lia.
Qed.

Lemma conserved_start w K pool (jobs : list (Tid * Prog unit)) :
  conserved K pool ->
  Forall (fun tp => uniform f tp.2) jobs ->
  let started := fold_left (fun pool '(t, p) => spawn w pool t p) jobs pool in
  conserved (K + sum_list_with (fun tp => weight f (default_events tp.2)) jobs)
    started
  /\ length (pool_jobs started) = length (pool_jobs pool) + length jobs.
Proof.
  revert K pool. induction jobs as [|[t p] jobs IH]; intros K pool Hc Hall; simpl.
  - split; [|lia]. replace (K + 0) with K by lia. exact Hc.
  - apply Forall_cons in Hall as [Hp Hall]. simpl in Hp.
    specialize (IH _ _ (conserved_spawn w K pool t p Hc Hp) Hall).
    simpl in IH. destruct IH as [IH Hlen]. split.
    + replace (K + (weight f (default_events p)
                    + sum_list_with (fun tp => weight f (default_events tp.2)) jobs))
        with (K + weight f (default_events p)
              + sum_list_with (fun tp => weight f (default_events tp.2)) jobs)
        by lia.
      exact IH.
    + rewrite Hlen. unfold spawn.
      destruct (settle w t 0 (pool_fs pool) p) as [[[fs evs0] n] p'].
      simpl. rewrite length_app. simpl. lia.
Qed.

Lemma conserved_schedule w K schedule :
  forall pool,
    conserved K pool ->
    conserved K (fold_left (step w) schedule pool)
    /\ length (pool_jobs (fold_left (step w) schedule pool))
       = length (pool_jobs pool).
Proof.
  induction schedule as [|i schedule IH]; intros pool Hc; simpl; [auto|].
  destruct (IH _ (conserved_step w K pool i Hc)) as [H Hlen].
  split; [exact H|]. rewrite Hlen. unfold step.
  destruct (pool_jobs pool !! i) as [[t n p]|]; [|reflexivity].
  destruct (resume w t n (pool_fs pool) p) as [[[fs evs0] n'] p'].
  simpl. apply length_insert.
Qed.

Lemma finish_lookup w pool i j job :
  pool_jobs (finish w pool i) !! j = Some job ->
  (j = i -> left_to_do job = 0)
  /\ (j <> i -> pool_jobs pool !! j = Some job).
Proof.
  unfold finish.
  destruct (pool_jobs pool !! i) as [[t n p]|] eqn:Ei.
  - destruct (run w t n (pool_fs pool) p) as [[fs evs] res]. simpl.
    intros H. split.
    + intros ->. rewrite list_lookup_insert_eq in H
        by (eapply lookup_lt_Some; eauto).
      injection H as <-. apply uniform_lift.
    + intros Hne. rewrite list_lookup_insert_ne in H by auto. exact H.
  - intros H. split; [|auto]. intros ->. congruence.
Qed.

Lemma finish_length w pool i :
  length (pool_jobs (finish w pool i)) = length (pool_jobs pool).
Proof.
  unfold finish. destruct (pool_jobs pool !! i) as [[t n p]|]; [|reflexivity].
  destruct (run w t n (pool_fs pool) p) as [[fs evs] res]. simpl.
  apply length_insert.
Qed.

Lemma conserved_drain w K m :
  forall i pool,
    conserved K pool ->
    (forall j job, j < i -> pool_jobs pool !! j = Some job -> left_to_do job = 0) ->
    let drained := fold_left (finish w) (seq i m) pool in
    conserved K drained
    /\ length (pool_jobs drained) = length (pool_jobs pool)
    /\ (forall j job,
           j < i + m -> pool_jobs drained !! j = Some job -> left_to_do job = 0).
Proof.
  induction m as [|m IH]; intros i pool Hc Hdone; simpl.
  - split; [exact Hc|]. split; [reflexivity|]. intros j job Hj. apply Hdone. lia.
  - destruct (IH (S i) (finish w pool i) (conserved_finish w K pool i Hc))
      as (H1 & H2 & H3).
    + intros j job Hj Hjob. apply finish_lookup in Hjob as [Heq Hne].
      destruct (decide (j = i)) as [->|Hji]; [auto|].
      apply (Hdone j); [lia|auto].
    + split; [exact H1|]. split; [rewrite H2; apply finish_length|].
      intros j job Hj. apply H3. lia.
Qed.

Lemma sum_list_with_zero (g : Job -> nat) (l : list Job) :
  (forall j job, l !! j = Some job -> g job = 0) -> sum_list_with g l = 0.
Proof.
  induction l as [|x l IH]; intros H; simpl; [reflexivity|].
  rewrite (H 0 x eq_refl), IH; [reflexivity|].
  intros j job Hj. apply (H (S j)). exact Hj.
Qed.

(** Whatever the schedule, the trace of [Promise.all] holds as many events
    of a kind as its jobs perform, when each job performs the same number of
    them in all of its executions. *)
Lemma promise_all_weight w fs jobs schedule :
  Forall (fun tp => uniform f tp.2) jobs ->
  weight f (all_events (pool_trace (promise_all w fs jobs schedule)))
  = sum_list_with (fun tp => weight f (default_events tp.2)) jobs.
Proof.
  intros Hall. unfold promise_all.
  assert (H0 : conserved 0 (mkPool fs [] [] None)).
  { split; [constructor|reflexivity]. }
  destruct (conserved_start w 0 _ jobs H0 Hall) as [H1 Hlen1]. simpl in H1, Hlen1.
  destruct (conserved_schedule w _ schedule _ H1) as [H2 Hlen2].
  destruct (conserved_drain w _ (length jobs) 0 _ H2) as ([_ H3] & Hlen3 & Hz).
  { intros j job Hj. lia. }
  rewrite sum_list_with_zero in H3; [lia|].
  intros j job Hj. apply (Hz j); [|exact Hj].
  apply lookup_lt_Some in Hj. rewrite Hlen3, Hlen2, Hlen1 in Hj. lia.
Qed.

End Weights.

(** ** Jobs that never throw *)

Lemma never_rest (p p' : Prog unit) evs0 :
  (forall evs res, path p' evs res -> path p (evs0 ++ evs)%list res) ->
  never_throws p -> never_throws p' /\ rejection p' = None.
Proof.
  intros Hcont Hn. split.
  - intros evs res H. eapply Hn, Hcont, H.
  - destruct p' as [a|e|X op k]; try reflexivity.
    assert (H : path (Throw e : Prog unit) [] (Err e)) by (simpl; auto).
    apply Hcont, Hn in H. discriminate.
Qed.

Lemma quiet_spawn w pool t p :
  quiet pool -> never_throws p -> quiet (spawn w pool t p).
Proof.
  intros [Hall Hrej] Hn. unfold spawn.
  destruct (settle w t 0 (pool_fs pool) p) as [[[fs evs0] n] p'] eqn:E.
  destruct (never_rest p p' evs0) as [Hn' Hr]; [|exact Hn|].
  { intros evs res. eapply settle_path, E. }
  split; simpl.
  - apply Forall_app. split; [exact Hall|]. constructor; [exact Hn'|constructor].
  - rewrite Hrej, Hr. reflexivity.
Qed.

Lemma quiet_step w pool i : quiet pool -> quiet (step w pool i).
Proof.
  intros [Hall Hrej]. unfold step.
  destruct (pool_jobs pool !! i) as [[t n p]|] eqn:Ei; [|split; assumption].
  destruct (resume w t n (pool_fs pool) p) as [[[fs evs0] n'] p'] eqn:E.
  pose proof (proj1 (Forall_lookup _ _) Hall _ _ Ei) as Hn. simpl in Hn.
  destruct (never_rest p p' evs0) as [Hn' Hr]; [|exact Hn|].
  { intros evs res. eapply resume_path, E. }
  split; simpl.
  - apply Forall_insert; assumption.
  - rewrite Hrej, Hr. reflexivity.
Qed.

Lemma quiet_finish w pool i : quiet pool -> quiet (finish w pool i).
Proof.
  intros [Hall Hrej]. unfold finish.
  destruct (pool_jobs pool !! i) as [[t n p]|] eqn:Ei; [|split; assumption].
  destruct (run w t n (pool_fs pool) p) as [[fs evs] res] eqn:E.
  pose proof (proj1 (Forall_lookup _ _) Hall _ _ Ei) as Hn. simpl in Hn.
  apply run_path, Hn in E. subst res.
  split; simpl.
  - apply Forall_insert; [exact Hall|]. simpl.
    intros evs' res' [_ ->]. reflexivity.
  - rewrite Hrej. reflexivity.
Qed.

(** [Promise.all] over jobs that never throw is never rejected. *)
Lemma promise_all_quiet w fs jobs schedule :
  Forall (fun tp => never_throws tp.2) jobs ->
  pool_rejected (promise_all w fs jobs schedule) = None.
Proof.
  intros Hall. unfold promise_all.
  assert (H1 : quiet (fold_left (fun pool '(t, p) => spawn w pool t p) jobs
                        (mkPool fs [] [] None))).
  { assert (H0 : quiet (mkPool fs [] [] None))
      by (split; [constructor|reflexivity]).
    revert H0. generalize (mkPool fs [] [] None).
    induction jobs as [|[t p] jobs IH]; intros pool H0; simpl; [exact H0|].
    apply Forall_cons in Hall as [Hp Hall]. apply IH; [exact Hall|].
    apply quiet_spawn; assumption. }
  assert (H2 : quiet (fold_left (step w) schedule
                        (fold_left (fun pool '(t, p) => spawn w pool t p) jobs
                           (mkPool fs [] [] None)))).
  { revert H1. generalize (fold_left (fun pool '(t, p) => spawn w pool t p) jobs
                             (mkPool fs [] [] None)).
    induction schedule as [|i schedule IH]; intros pool H1; simpl; [exact H1|].
    apply IH, quiet_step, H1. }
  revert H2. generalize (fold_left (step w) schedule
                           (fold_left (fun pool '(t, p) => spawn w pool t p) jobs
                              (mkPool fs [] [] None))).
  generalize (seq 0 (length jobs)).
  induction l as [|i l IH]; intros pool H2; simpl; [apply H2|].
  apply IH, quiet_finish, H2.
Qed.

(** [fetchAndParseURL] catches what it throws, and launches no browser. *)
Lemma fetchAndParseURL_path outputDirectory url metadata evs res :
  path (fetchAndParseURL outputDirectory url metadata) evs res ->
  res = Ok tt /\ launches evs = [].
Proof.
  unfold fetchAndParseURL, isValidUrl, extractDomainName. intros H.
  path_inv; split; reflexivity.
Qed.

Lemma fetchAndParseURL_never_throws outputDirectory url metadata :
  never_throws (fetchAndParseURL outputDirectory url metadata).
Proof. intros evs res H. apply fetchAndParseURL_path in H as [H _]. exact H. Qed.

Lemma fetchAndParseURL_uniform outputDirectory url metadata :
  uniform is_launch (fetchAndParseURL outputDirectory url metadata)
  /\ weight is_launch
       (default_events (fetchAndParseURL outputDirectory url metadata)) = 0.
Proof.
  assert (H : forall evs res,
             path (fetchAndParseURL outputDirectory url metadata) evs res ->
             weight is_launch evs = 0).
  { intros evs res Hp. apply fetchAndParseURL_path in Hp as [_ Hp].
    unfold weight. fold (launches evs). rewrite Hp. reflexivity. }
  split; [|eapply H, default_path].
  intros evs res Hp. rewrite (H _ _ Hp). symmetry. eapply H, default_path.
Qed.

Lemma mirror_uniform outputDirectory url :
  uniform is_launch (mirror outputDirectory url)
  /\ weight is_launch (default_events (mirror outputDirectory url)) = 1.
Proof.
  assert (H : forall evs res,
             path (mirror outputDirectory url) evs res ->
             weight is_launch evs = 1).
  { intros evs res Hp.
    apply mirror_path in Hp as (o & outcomes & closing & _ & -> & _).
    unfold weight. fold (launches (mirror_events outputDirectory url o outcomes closing)).
    rewrite launches_mirror_events. reflexivity. }
  split; [|eapply H, default_path].
  intros evs res Hp. rewrite (H _ _ Hp). symmetry. eapply H, default_path.
Qed.

Lemma imap_Forall (P : Prog unit -> Prop) (urls : list string) :
  forall F : nat -> string -> Tid * Prog unit,
    (forall i url, P (F i url).2) -> Forall (fun tp => P tp.2) (imap F urls).
Proof.
  induction urls as [|url urls IH]; intros F H; simpl; constructor; [apply H|].
  apply IH. intros i url'. apply H.
Qed.

Lemma imap_jobs_Forall (P : Prog unit -> Prop) (f : string -> Prog unit) urls mk :
  (forall url, P (f url)) -> Forall (fun tp => P tp.2) (imap_jobs mk f urls).
Proof. intros H. apply imap_Forall. intros i url. apply H. Qed.

Lemma imap_sum (g : Prog unit -> nat) c (urls : list string) :
  forall F : nat -> string -> Tid * Prog unit,
    (forall i url, g (F i url).2 = c) ->
    sum_list_with (fun tp => g tp.2) (imap F urls) = c * length urls.
Proof.
  induction urls as [|url urls IH]; intros F H; simpl; [lia|].
  rewrite H, IH; [lia|]. intros i url'. apply H.
Qed.

Lemma imap_jobs_sum (g : Prog unit -> nat) (f : string -> Prog unit) c urls mk :
  (forall url, g (f url) = c) ->
  sum_list_with (fun tp => g tp.2) (imap_jobs mk f urls) = c * length urls.
Proof. intros H. apply imap_sum. intros i url. apply H. Qed.

Lemma launches_all_events_app tr1 tr2 :
  length (launches (all_events (tr1 ++ tr2)))
  = length (launches (all_events tr1)) + length (launches (all_events tr2)).
Proof.
  unfold all_events, launches. rewrite map_app, omap_app, length_app.
  reflexivity.
Qed.

Lemma launches_fetch_phase outputDirectory w fs urls metadata schedule :
  length (launches (all_events (pool_trace
    (promise_all w fs
       (imap_jobs TFetch (fun url => fetchAndParseURL outputDirectory url metadata)
          urls)
       schedule)))) = 0.
Proof.
  change (weight is_launch (all_events (pool_trace
    (promise_all w fs
       (imap_jobs TFetch (fun url => fetchAndParseURL outputDirectory url metadata)
          urls)
       schedule))) = 0).
  rewrite promise_all_weight.
  - rewrite (imap_jobs_sum (fun p => weight is_launch (default_events p)) _ 0);
      [lia|].
    intros url. apply fetchAndParseURL_uniform.
  - apply (imap_jobs_Forall (uniform is_launch)).
    intros url. apply fetchAndParseURL_uniform.
Qed.

Lemma launches_mirror_phase outputDirectory w fs urls schedule :
  length (launches (all_events (pool_trace
    (promise_all w fs (imap_jobs TMirror (mirror outputDirectory) urls)
       schedule)))) = length urls.
Proof.
  change (weight is_launch (all_events (pool_trace
    (promise_all w fs (imap_jobs TMirror (mirror outputDirectory) urls)
       schedule))) = length urls).
  rewrite promise_all_weight.
  - rewrite (imap_jobs_sum (fun p => weight is_launch (default_events p)) _ 1);
      [lia|].
    intros url. apply mirror_uniform.
  - apply (imap_jobs_Forall (uniform is_launch)).
    intros url. apply mirror_uniform.
Qed.

(** C2, as the code has it: with mirroring enabled, whatever the world, the
    file system and the order in which the jobs are resumed, [main] launches
    as many browsers as there are URLs: each mirror job launches one, for
    itself, and opens its page in the browser that it launched. *)
Theorem one_browser_per_mirror_job outputDirectory w :
  (forall urls metadata fetchSchedule mirrorSchedule fs,
      length (launches (all_events
        (main outputDirectory w (mkArgv urls metadata true)
           fetchSchedule mirrorSchedule fs).1.2))
      = length urls)
  /\ (forall t n fs url,
         let r := run w t n fs (mirror outputDirectory url) in
         length (launches r.1.2) = 1 /\ pages_opened r.1.2 = launched r.1.2).
Proof.
  split.
  - intros urls metadata fetchSchedule mirrorSchedule fs. unfold main.
    cbn [argv_urls argv_metadata argv_mirror].
    rewrite promise_all_quiet
      by (apply (imap_jobs_Forall never_throws); intros url;
          apply fetchAndParseURL_never_throws).
    destruct (pool_rejected (promise_all w _ (imap_jobs TMirror _ urls) _));
      cbn [fst snd];
      rewrite !launches_all_events_app, launches_fetch_phase,
        launches_mirror_phase; simpl; lia.
  - intros t n fs url r. subst r.
    destruct (browser_closed_only_after_the_loop outputDirectory w t n fs url)
      as (H1 & H2 & _).
    split; assumption.
Qed.

(** * Jobs that are bound to fail *)

Lemma exec_determined {X} w t n fs (op : Op X) :
  determined w t n op (exec w t n fs op).1.
Proof. destruct op as [e|s]; [reflexivity|]. destruct s; reflexivity. Qed.

Lemma run_wpath {A} w t (p : Prog A) :
  forall n fs fs' evs res,
    run w t n fs p = (fs', evs, res) -> wpath w t n p evs res.
Proof.
  induction p as [a|e|X op k IH]; intros n fs fs' evs res; simpl.
  - intros [= _ <- <-]. auto.
  - intros [= _ <- <-]. auto.
  - pose proof (exec_determined w t n fs op) as Hr.
    destruct (exec w t n fs op) as [r fs1].
    destruct (run w t (S n) fs1 (k r)) as [[fs2 evs2] res2] eqn:E.
    intros [= _ <- <-]. exists r, evs2. repeat split; [exact Hr|]. eapply IH, E.
Qed.

Lemma settle_wpath {A} w t (p : Prog A) :
  forall n fs fs' evs0 n' p' evs res,
    settle w t n fs p = (fs', evs0, n', p') ->
    wpath w t n' p' evs res -> wpath w t n p (evs0 ++ evs)%list res.
Proof.
  induction p as [a|e|X op k IH]; intros n fs fs' evs0 n' p' evs res; simpl.
  - intros [= _ <- <- <-]. auto.
  - intros [= _ <- <- <-]. auto.
  - destruct op as [e|s].
    + intros [= _ <- <- <-]. auto.
    + pose proof (exec_determined w t n fs (Call s)) as Hr. simpl in Hr.
      destruct (exec_sys w t n fs s) as [r fs1].
      destruct (settle w t (S n) fs1 (k r)) as [[[fs2 evs2] n2] p2] eqn:E.
      intros [= _ <- <- <-] H. exists r, (evs2 ++ evs)%list.
      repeat split; [exact Hr|]. eapply IH; eauto.
Qed.

Lemma resume_wpath {A} w t (p : Prog A) :
  forall n fs fs' evs0 n' p' evs res,
    resume w t n fs p = (fs', evs0, n', p') ->
    wpath w t n' p' evs res -> wpath w t n p (evs0 ++ evs)%list res.
Proof.
  intros n fs fs' evs0 n' p' evs res.
  destruct p as [a|e|X [e|s] k]; try apply settle_wpath.
  simpl.
  destruct (settle w t (S n) fs (k (answer w X t n e))) as [[[fs2 evs2] n2] p2] eqn:E.
  intros [= _ <- <- <-] H. exists (answer w X t n e), (evs2 ++ evs)%list.
  repeat split. eapply settle_wpath; eauto.
Qed.

Lemma wpath_lift {A} w t n (r res : Result A) evs :
  wpath w t n (lift r) evs res <-> evs = [] /\ res = r.
Proof. destruct r; simpl; tauto. Qed.

Lemma doomed_rest w t n n' (p p' : Prog unit) evs0 :
  (forall evs res, wpath w t n' p' evs res -> wpath w t n p (evs0 ++ evs)%list res) ->
  doomed w t n p -> doomed w t n' p'.
Proof. intros Hcont Hd evs res H. eapply Hd, Hcont, H. Qed.

Lemma first_rejection_seen seen new :
  seen <> None -> first_rejection seen new <> None.
Proof. destruct seen; [discriminate|congruence]. Qed.

Lemma failing_step w i pool j : failing w i pool -> failing w i (step w pool j).
Proof.
  unfold step. intros Hf.
  destruct (pool_jobs pool !! j) as [[t n p]|] eqn:Ej; [|exact Hf].
  destruct (resume w t n (pool_fs pool) p) as [[[fs evs0] n'] p'] eqn:E.
  destruct Hf as [Hr|(job & Hi & Hd)].
  - left. simpl. apply first_rejection_seen, Hr.
  - right. simpl. destruct (decide (i = j)) as [->|Hne].
    + exists (mkJob t n' p'). split.
      * apply list_lookup_insert_eq. eapply lookup_lt_Some; eauto.
      * rewrite Ej in Hi. injection Hi as <-. simpl in *.
        eapply doomed_rest; [|exact Hd]. intros evs res. eapply resume_wpath, E.
    + exists job. rewrite list_lookup_insert_ne by auto. auto.
Qed.

Lemma doomed_lift w t n (res : Result unit) :
  doomed w t n (lift res) -> rejection (lift res) <> None.
Proof.
  intros Hd. destruct res as [[]|e]; [|discriminate].
  specialize (Hd [] (Ok tt) (conj eq_refl eq_refl)). discriminate.
Qed.

Lemma failing_finish w i pool j :
  failing w i pool ->
  failing w i (finish w pool j)
  /\ (j = i -> pool_rejected (finish w pool j) <> None).
Proof.
  unfold finish. intros Hf.
  destruct (pool_jobs pool !! j) as [[t n p]|] eqn:Ej.
  - destruct (run w t n (pool_fs pool) p) as [[fs evs] res] eqn:E.
    destruct Hf as [Hr|(job & Hi & Hd)].
    + split; [left|intros _]; simpl; apply first_rejection_seen, Hr.
    + destruct (decide (j = i)) as [->|Hne].
      * rewrite Ej in Hi. injection Hi as <-. simpl in *.
        assert (Hrej : rejection (lift res) <> None).
        { apply (doomed_lift w t (n + length evs)).
          intros evs' res' H. apply wpath_lift in H as [-> ->].
          eapply Hd, run_wpath, E. }
        assert (H : first_rejection (pool_rejected pool) (rejection (lift res))
                    <> None).
        { destruct (pool_rejected pool); [discriminate|exact Hrej]. }
        split; [left; exact H|intros _; exact H].
      * split; [|congruence]. right. exists job. simpl.
        rewrite list_lookup_insert_ne by auto. auto.
  - split; [exact Hf|]. intros ->.
    destruct Hf as [Hr|(job & Hi & _)]; [exact Hr|congruence].
Qed.

Lemma failing_drain w i l :
  forall pool,
    failing w i pool -> i ∈ l ->
    pool_rejected (fold_left (finish w) l pool) <> None.
Proof.
  assert (Hkeep : forall l pool,
             pool_rejected pool <> None ->
             pool_rejected (fold_left (finish w) l pool) <> None).
  { intros l'. induction l' as [|j l' IH]; intros pool H; simpl; [exact H|].
    apply IH. unfold finish.
    destruct (pool_jobs pool !! j) as [[t n p]|]; [|exact H].
    destruct (run w t n (pool_fs pool) p) as [[fs evs] res]. simpl.
    apply first_rejection_seen, H. }
  induction l as [|j l IH]; intros pool Hf Hin; [inversion Hin|].
  simpl. destruct (failing_finish w i pool j Hf) as [Hf' Hrej].
  destruct (decide (j = i)) as [->|Hne].
  - apply Hkeep, Hrej. reflexivity.
  - apply IH; [exact Hf'|].
    apply elem_of_cons in Hin as [->|Hin]; [congruence|exact Hin].
Qed.

Lemma failing_spawn w i pool t p :
  failing w i pool -> failing w i (spawn w pool t p).
Proof.
  unfold spawn. intros Hf.
  destruct (settle w t 0 (pool_fs pool) p) as [[[fs evs0] n] p'] eqn:E.
  destruct Hf as [Hr|(job & Hi & Hd)].
  - left. simpl. apply first_rejection_seen, Hr.
  - right. exists job. simpl. rewrite lookup_app_l by (eapply lookup_lt_Some; eauto).
    auto.
Qed.

Lemma failing_spawned w i pool t p :
  i = length (pool_jobs pool) -> doomed w t 0 p ->
  failing w i (spawn w pool t p).
Proof.
  unfold spawn. intros -> Hd.
  destruct (settle w t 0 (pool_fs pool) p) as [[[fs evs0] n] p'] eqn:E.
  right. exists (mkJob t n p'). simpl. split.
  - rewrite lookup_app_r by lia. rewrite Nat.sub_diag. reflexivity.
  - eapply doomed_rest; [|exact Hd]. intros evs res. eapply settle_wpath, E.
Qed.

Lemma spawn_length w pool t p :
  length (pool_jobs (spawn w pool t p)) = S (length (pool_jobs pool)).
Proof.
  unfold spawn. destruct (settle w t 0 (pool_fs pool) p) as [[[fs evs0] n] p'].
  simpl. rewrite length_app. simpl. lia.
Qed.

Lemma failing_start w jobs :
  forall pool i t p,
    jobs !! i = Some (t, p) -> doomed w t 0 p ->
    failing w (length (pool_jobs pool) + i)
      (fold_left (fun pool '(t, p) => spawn w pool t p) jobs pool).
Proof.
  assert (Hkeep : forall jobs pool i,
             failing w i pool ->
             failing w i (fold_left (fun pool '(t, p) => spawn w pool t p) jobs pool)).
  { intros jobs'. induction jobs' as [|[t' p'] jobs' IH]; intros pool i H; simpl;
      [exact H|]. apply IH, failing_spawn, H. }
  induction jobs as [|[t' p'] jobs IH]; intros pool i t p Hi Hd; [discriminate|].
  simpl. destruct i as [|i]; simpl in Hi.
  - injection Hi as -> ->. apply Hkeep. apply failing_spawned; [lia|exact Hd].
  - specialize (IH (spawn w pool t' p') i t p Hi Hd).
    rewrite spawn_length in IH.
    replace (length (pool_jobs pool) + S i) with (S (length (pool_jobs pool)) + i)
      by lia.
    exact IH.
Qed.

(** When one of the jobs is bound to throw, [Promise.all] is rejected, in
    whatever order the jobs are resumed. *)
Lemma promise_all_rejected w fs jobs schedule i t p :
  jobs !! i = Some (t, p) -> doomed w t 0 p ->
  pool_rejected (promise_all w fs jobs schedule) <> None.
Proof.
  intros Hi Hd. unfold promise_all.
  pose proof (failing_start w jobs (mkPool fs [] [] None) i t p Hi Hd) as H1.
  simpl in H1.
  assert (H2 : failing w i
                 (fold_left (step w) schedule
                    (fold_left (fun pool '(t, p) => spawn w pool t p) jobs
                       (mkPool fs [] [] None)))).
  { revert H1. generalize (fold_left (fun pool '(t, p) => spawn w pool t p) jobs
                             (mkPool fs [] [] None)).
    induction schedule as [|j schedule IH]; intros pool H1; simpl; [exact H1|].
    apply IH, failing_step, H1. }
  eapply failing_drain; [exact H2|].
  apply elem_of_seq. apply lookup_lt_Some in Hi. lia.
Qed.

Ltac wpath_step H :=
  let r := fresh "r" in
  let evs := fresh "evs" in
  let Hdet := fresh "Hdet" in
  simpl in H; destruct H as (r & evs & Hdet & -> & H);
  destruct r as [?|?]; [|destruct H as [_ ->]; reflexivity].

(** A URL that the URL constructor rejects dooms its mirror job: if the
    browser calls go through, [new URL(url)] throws. *)
Lemma mirror_doomed_invalid outputDirectory w t url :
  parses w url = false -> doomed w t 0 (mirror outputDirectory url).
Proof.
  unfold parses, doomed, mirror. intros Hp evs res H.
  do 6 wpath_step H.
  simpl in H. destruct H as (r & evs' & Hurl & -> & H). simpl in Hurl.
  destruct (url_parse w url); [discriminate|]. subst r.
  destruct H as [_ ->]. reflexivity.
Qed.

(** A page that does not load dooms its mirror job. *)
Lemma mirror_doomed_unreachable outputDirectory w t url :
  (forall page, is_ok (answer w _ t 3 (PageGoto page url true)) = false) ->
  doomed w t 0 (mirror outputDirectory url).
Proof.
  unfold doomed, mirror. intros Hgoto evs res H.
  do 3 wpath_step H.
  simpl in H. destruct H as (r & evs' & Hnav & -> & H). simpl in Hnav.
  match type of Hnav with
  | _ = answer _ _ _ _ (PageGoto ?page _ _) => specialize (Hgoto page)
  end.
  rewrite <- Hnav in Hgoto.
  destruct r; [discriminate|]. destruct H as [_ ->]. reflexivity.
Qed.

Lemma last_line_loop_events page dirPath assets outcomes :
  omap is_last_line (loop_events page dirPath assets outcomes) = [].
Proof. apply omap_loop_events. intros a []; reflexivity. Qed.

Lemma last_line_mirror_events outputDirectory url o outcomes closing :
  omap is_last_line (mirror_events outputDirectory url o outcomes closing) = [].
Proof.
  by_outcome o; cbn [mirror_events]; rewrite !omap_app,
    last_line_loop_events; destruct closing; reflexivity.
Qed.

Lemma mirror_no_last_line outputDirectory url :
  uniform is_last_line (mirror outputDirectory url)
  /\ weight is_last_line (default_events (mirror outputDirectory url)) = 0.
Proof.
  assert (H : forall evs res,
             path (mirror outputDirectory url) evs res ->
             weight is_last_line evs = 0).
  { intros evs res Hp.
    apply mirror_path in Hp as (o & outcomes & closing & _ & -> & _).
    unfold weight. rewrite last_line_mirror_events. reflexivity. }
  split; [|eapply H, default_path].
  intros evs res Hp. rewrite (H _ _ Hp). symmetry. eapply H, default_path.
Qed.

Lemma fetchAndParseURL_no_last_line outputDirectory url metadata :
  uniform is_last_line (fetchAndParseURL outputDirectory url metadata)
  /\ weight is_last_line
       (default_events (fetchAndParseURL outputDirectory url metadata)) = 0.
Proof.
  assert (H : forall evs res,
             path (fetchAndParseURL outputDirectory url metadata) evs res ->
             weight is_last_line evs = 0).
  { unfold fetchAndParseURL, isValidUrl, extractDomainName.
    intros evs res Hp. path_inv; reflexivity. }
  split; [|eapply H, default_path].
  intros evs res Hp. rewrite (H _ _ Hp). symmetry. eapply H, default_path.
Qed.

Lemma no_last_line_in_pool w fs (f : string -> Prog unit) mk urls schedule :
  (forall url, uniform is_last_line (f url)
               /\ weight is_last_line (default_events (f url)) = 0) ->
  omap is_last_line
    (all_events (pool_trace (promise_all w fs (imap_jobs mk f urls) schedule)))
  = [].
Proof.
  intros H. apply length_zero_iff_nil.
  change (weight is_last_line
            (all_events (pool_trace
               (promise_all w fs (imap_jobs mk f urls) schedule))) = 0).
  rewrite promise_all_weight.
  - rewrite (imap_jobs_sum (fun p => weight is_last_line (default_events p)) _ 0);
      [lia|]. intros url. apply H.
  - apply (imap_jobs_Forall (uniform is_last_line)). intros url. apply H.
Qed.

(** When one of the URLs dooms its mirror job, [main] is rejected and does
    not print its last line, in whatever order the jobs are resumed. *)
Lemma main_rejected_by_one_job outputDirectory w urls metadata i url
    fetchSchedule mirrorSchedule fs :
  urls !! i = Some url ->
  doomed w (TMirror i) 0 (mirror outputDirectory url) ->
  let r := main outputDirectory w (mkArgv urls metadata true)
             fetchSchedule mirrorSchedule fs in
  is_ok r.2 = false /\ batch_completed r.1.2 = false.
Proof.
  intros Hi Hd r. subst r. unfold main.
  cbn [argv_urls argv_metadata argv_mirror].
  rewrite promise_all_quiet
    by (apply (imap_jobs_Forall never_throws); intros u;
        apply fetchAndParseURL_never_throws).
  match goal with
  | |- context [pool_rejected (promise_all w ?fs1 ?jobs ?sch)] =>
      pose proof (promise_all_rejected w fs1 jobs sch i (TMirror i)
                    (mirror outputDirectory url)) as Hrej
  end.
  destruct (pool_rejected (promise_all w _ (imap_jobs TMirror _ urls) _))
    as [e|].
  - cbn [fst snd]. split; [reflexivity|].
    unfold batch_completed, all_events. rewrite !map_app, !omap_app.
    fold (all_events (pool_trace (promise_all w fs
           (imap_jobs TFetch
              (fun url => fetchAndParseURL outputDirectory url metadata) urls)
           fetchSchedule))).
    rewrite (no_last_line_in_pool w fs
               (fun url => fetchAndParseURL outputDirectory url metadata))
      by (intros u; apply fetchAndParseURL_no_last_line).
    match goal with
    | |- context [map snd (pool_trace ?P)] =>
        change (map snd (pool_trace P)) with (all_events (pool_trace P))
    end.
    rewrite (no_last_line_in_pool w _ (mirror outputDirectory))
      by (intros u; apply mirror_no_last_line).
    reflexivity.
  - exfalso. apply Hrej; [|exact Hd|reflexivity].
    unfold imap_jobs. rewrite list_lookup_imap, Hi. reflexivity.
Qed.

(** A page that does not load makes [main] reject: nothing in [mirror]
    catches what [page.goto] throws. *)
Lemma page_failure_rejects_main outputDirectory w urls metadata i url
    fetchSchedule mirrorSchedule fs :
  urls !! i = Some url ->
  (forall page, is_ok (answer w _ (TMirror i) 3 (PageGoto page url true)) = false) ->
  let r := main outputDirectory w (mkArgv urls metadata true)
             fetchSchedule mirrorSchedule fs in
  is_ok r.2 = false /\ batch_completed r.1.2 = false.
Proof.
  intros Hi Hgoto. apply (main_rejected_by_one_job _ _ _ _ i url); [exact Hi|].
  apply mirror_doomed_unreachable, Hgoto.
Qed.

(** A string that is not a URL makes [main] reject in mirror mode: [mirror]
    does not ask [isValidUrl]. *)
Lemma unparseable_url_rejects_main outputDirectory w urls metadata i url
    fetchSchedule mirrorSchedule fs :
  urls !! i = Some url ->
  parses w url = false ->
  let r := main outputDirectory w (mkArgv urls metadata true)
             fetchSchedule mirrorSchedule fs in
  is_ok r.2 = false /\ batch_completed r.1.2 = false.
Proof.
  intros Hi Hp. apply (main_rejected_by_one_job _ _ _ _ i url); [exact Hi|].
  apply mirror_doomed_invalid, Hp.
Qed.

(** C1 fails on the batch of three URLs of which the second does not load:
    in whatever order the jobs are resumed, the rejection of its job is the
    rejection of [Promise.all] and of [main], which never prints its last
    line.  Nothing catches the failure at the scope of the job, and the
    browser of the job stays open. *)
Theorem render_failure_rejects_the_batch :
  let w := Web.world Scenario.two_is_down Scenario.three_urls in
  let argv := mkArgv Scenario.three_urls false true in
  (forall fetchSchedule mirrorSchedule fs,
      let r := main "outputRoot" w argv fetchSchedule mirrorSchedule fs in
      is_ok r.2 = false /\ batch_completed r.1.2 = false)
  /\ (run w (TMirror 1) 0 ∅ (mirror "outputRoot" "https://two.example")).2
     = Err (ExternalError "net::ERR_NAME_NOT_RESOLVED")
  /\ (let r := main "outputRoot" w argv [] [] ∅ in
      r.2 = Err (ExternalError "net::ERR_NAME_NOT_RESOLVED")
      /\ launched (events_of (TMirror 1) r.1.2) = [mkBrowser 1]
      /\ closed (events_of (TMirror 1) r.1.2) = []).
Proof.
  intros w argv. split; [|vm_compute; repeat split].
  intros fetchSchedule mirrorSchedule fs.
  apply (page_failure_rejects_main "outputRoot" w Scenario.three_urls false 1
           "https://two.example"); [reflexivity|].
  intros page. reflexivity.
Qed.

(** C3 fails in mirror mode: for the input "not a url" the fetch job prints
    that it skips it and does nothing else, but the mirror job launches a
    browser, opens a page and calls [page.goto] on the string; its rejection
    is the rejection of [main], in whatever order the jobs are resumed. *)
Theorem invalid_url_is_not_skipped_by_mirror :
  let argv := mkArgv ["not a url"] false true in
  validates offline "not a url" = Ok false
  /\ (forall fetchSchedule mirrorSchedule fs,
         let r := main "outputRoot" offline argv fetchSchedule mirrorSchedule fs in
         is_ok r.2 = false /\ batch_completed r.1.2 = false
         /\ length (launches (all_events r.1.2)) = 1)
  /\ (let r := main "outputRoot" offline argv [] [] ∅ in
      logged (events_of (TFetch 0) r.1.2) = [InvalidUrlSkipped "not a url"]
      /\ launched (events_of (TMirror 0) r.1.2) = [mkBrowser 0]
      /\ navigations (events_of (TMirror 0) r.1.2) = ["not a url"]
      /\ closed (events_of (TMirror 0) r.1.2) = []
      /\ r.2 = Err (ExternalError "Cannot navigate to invalid URL")).
Proof.
  intros argv. split; [reflexivity|]. split; [|vm_compute; repeat split].
  intros fetchSchedule mirrorSchedule fs r.
  destruct (unparseable_url_rejects_main "outputRoot" offline ["not a url"] false
              0 "not a url" fetchSchedule mirrorSchedule fs eq_refl eq_refl)
    as [H1 H2].
  split; [exact H1|]. split; [exact H2|].
  subst r argv. unfold main. cbn [argv_urls argv_metadata argv_mirror].
  rewrite promise_all_quiet
    by (apply (imap_jobs_Forall never_throws); intros u;
        apply fetchAndParseURL_never_throws).
  destruct (pool_rejected (promise_all offline _ (imap_jobs TMirror _ _) _));
    cbn [fst snd];
    rewrite !launches_all_events_app, launches_fetch_phase,
      launches_mirror_phase; reflexivity.
Qed.

(** * The trace of a pool, job by job *)

Lemma Tid_eqb_eq a b : Tid_eqb a b = true <-> a = b.
Proof.
  destruct a, b; simpl; try (split; [discriminate|congruence]).
  - tauto.
  - rewrite Nat.eqb_eq. split; congruence.
  - rewrite Nat.eqb_eq. split; congruence.
Qed.

Lemma events_of_app t tr1 tr2 :
  events_of t (tr1 ++ tr2) = (events_of t tr1 ++ events_of t tr2)%list.
Proof. apply omap_app. Qed.

Lemma events_of_tag_same t evs : events_of t (tag t evs) = evs.
Proof.
  unfold events_of, tag. induction evs as [|ev evs IH]; [reflexivity|].
  simpl. rewrite (proj2 (Tid_eqb_eq t t) eq_refl). simpl. f_equal. exact IH.
Qed.

Lemma events_of_tag_other t t' evs : t <> t' -> events_of t (tag t' evs) = [].
Proof.
  intros Hne. unfold events_of, tag. induction evs as [|ev evs IH]; [reflexivity|].
  simpl. destruct (Tid_eqb t t') eqn:E; [apply Tid_eqb_eq in E; congruence|].
  exact IH.
Qed.

Lemma NoDup_fst_lookup (jobs0 : list (Tid * Prog unit)) i j t p q :
  NoDup (map fst jobs0) ->
  jobs0 !! i = Some (t, p) -> jobs0 !! j = Some (t, q) -> i = j.
Proof.
  intros Hnd Hi Hj. eapply NoDup_lookup; [exact Hnd| |].
  - rewrite list_lookup_fmap, Hi. reflexivity.
  - rewrite list_lookup_fmap, Hj. reflexivity.
Qed.

(** One job moves from [p] to [p'] and adds [evs0] to the trace. *)
Lemma projected_move jobs0 pool i t n p fs evs0 n' p' rej :
  NoDup (map fst jobs0) ->
  projected jobs0 pool ->
  pool_jobs pool !! i = Some (mkJob t n p) ->
  (forall evs res, path p' evs res -> path p (evs0 ++ evs)%list res) ->
  projected jobs0
    {| pool_fs := fs;
       pool_trace := (pool_trace pool ++ tag t evs0)%list;
       pool_jobs := <[i := mkJob t n' p']> (pool_jobs pool);
       pool_rejected := rej |}.
Proof.
  intros Hnd [Hproj Hnone] Hi Hcont. split.
  - intros j job Hj. simpl in *.
    destruct (Hproj _ _ Hi) as (p0 & Hi0 & Hp0). simpl in *.
    destruct (decide (j = i)) as [->|Hne].
    + rewrite list_lookup_insert_eq in Hj by (eapply lookup_lt_Some; eauto).
      injection Hj as <-. simpl. exists p0. split; [exact Hi0|].
      intros evs res H. rewrite events_of_app, events_of_tag_same, <- app_assoc.
      apply Hp0, Hcont, H.
    + rewrite list_lookup_insert_ne in Hj by auto.
      destruct (Hproj _ _ Hj) as (q0 & Hj0 & Hq0). exists q0. split; [exact Hj0|].
      intros evs res H. rewrite events_of_app, events_of_tag_other, app_nil_r.
      * apply Hq0, H.
      * intros Heq. apply Hne. rewrite Heq in Hj0.
        eapply NoDup_fst_lookup; eauto.
  - intros t' Hno. simpl in *. rewrite events_of_app, events_of_tag_other.
    + rewrite app_nil_r. apply Hnone. intros j job Hj.
      destruct (decide (j = i)) as [->|Hne].
      * rewrite Hi in Hj. injection Hj as <-. simpl.
        apply (Hno i (mkJob t n' p')).
        apply list_lookup_insert_eq. eapply lookup_lt_Some; eauto.
      * apply (Hno j). rewrite list_lookup_insert_ne by auto. exact Hj.
    + intros ->. apply (Hno i (mkJob t n' p')); [|reflexivity].
      apply list_lookup_insert_eq. eapply lookup_lt_Some; eauto.
Qed.

Lemma projected_step w jobs0 pool i :
  NoDup (map fst jobs0) -> projected jobs0 pool ->
  projected jobs0 (step w pool i).
Proof.
  intros Hnd Hproj. unfold step.
  destruct (pool_jobs pool !! i) as [[t n p]|] eqn:Ei; [|exact Hproj].
  destruct (resume w t n (pool_fs pool) p) as [[[fs evs0] n'] p'] eqn:E.
  eapply projected_move; eauto. intros evs res. eapply resume_path, E.
Qed.

Lemma projected_finish w jobs0 pool i :
  NoDup (map fst jobs0) -> projected jobs0 pool ->
  projected jobs0 (finish w pool i).
Proof.
  intros Hnd Hproj. unfold finish.
  destruct (pool_jobs pool !! i) as [[t n p]|] eqn:Ei; [|exact Hproj].
  destruct (run w t n (pool_fs pool) p) as [[fs evs0] res0] eqn:E.
  eapply projected_move; eauto. intros evs res H.
  apply path_lift in H as [-> ->]. rewrite app_nil_r. eapply run_path, E.
Qed.

Lemma projected_spawn w jobs0 pool t p :
  NoDup (map fst jobs0) -> projected jobs0 pool ->
  jobs0 !! length (pool_jobs pool) = Some (t, p) ->
  projected jobs0 (spawn w pool t p).
Proof.
  intros Hnd [Hproj Hnone] Hnew. unfold spawn.
  destruct (settle w t 0 (pool_fs pool) p) as [[[fs evs0] n] p'] eqn:E.
  assert (Hfresh : forall j job, pool_jobs pool !! j = Some job -> job_tid job <> t).
  { intros j job Hj Heq. destruct (Hproj _ _ Hj) as (q0 & Hj0 & _).
    rewrite Heq in Hj0.
    pose proof (NoDup_fst_lookup _ _ _ _ _ _ Hnd Hj0 Hnew) as ->.
    apply lookup_lt_Some in Hj. lia. }
  split.
  - intros j job Hj. simpl in *.
    destruct (decide (j < length (pool_jobs pool))) as [Hlt|Hge].
    + rewrite lookup_app_l in Hj by exact Hlt.
      destruct (Hproj _ _ Hj) as (q0 & Hj0 & Hq0). exists q0. split; [exact Hj0|].
      intros evs res H. rewrite events_of_app, events_of_tag_other, app_nil_r.
      * apply Hq0, H.
      * apply (Hfresh j), Hj.
    + rewrite lookup_app_r in Hj by lia.
      destruct (j - length (pool_jobs pool)) as [|k] eqn:Ek;
        [|destruct k; discriminate].
      injection Hj as <-. simpl. assert (j = length (pool_jobs pool)) as -> by lia.
      exists p. split; [exact Hnew|]. intros evs res H.
      rewrite events_of_app, events_of_tag_same, (Hnone t Hfresh). simpl.
      eapply settle_path; eauto.
  - intros t' Hno. simpl in *.
    assert (t' <> t) as Hne.
    { intros ->. apply (Hno (length (pool_jobs pool)) (mkJob t n p')); [|reflexivity].
      rewrite lookup_app_r by lia. rewrite Nat.sub_diag. reflexivity. }
    rewrite events_of_app, events_of_tag_other by exact Hne.
    rewrite app_nil_r. apply Hnone. intros j job Hj. apply (Hno j).
    rewrite lookup_app_l by (eapply lookup_lt_Some; eauto). exact Hj.
Qed.

Lemma finish_settles w pool i j job :
  pool_jobs (finish w pool i) !! j = Some job ->
  (j = i -> settled job) /\ (j <> i -> pool_jobs pool !! j = Some job).
Proof.
  unfold finish.
  destruct (pool_jobs pool !! i) as [[t n p]|] eqn:Ei.
  - destruct (run w t n (pool_fs pool) p) as [[fs evs] res]. simpl.
    intros H. split.
    + intros ->. rewrite list_lookup_insert_eq in H
        by (eapply lookup_lt_Some; eauto).
      injection H as <-. exists res. reflexivity.
    + intros Hne. rewrite list_lookup_insert_ne in H by auto. exact H.
  - intros H. split; [|auto]. intros ->. congruence.
Qed.

Lemma drain_settles w m :
  forall i pool,
    (forall j job, j < i -> pool_jobs pool !! j = Some job -> settled job) ->
    forall j job,
      j < i + m ->
      pool_jobs (fold_left (finish w) (seq i m) pool) !! j = Some job ->
      settled job.
Proof.
  induction m as [|m IH]; intros i pool Hdone j job Hj; simpl.
  - apply Hdone. lia.
  - apply (IH (S i)); [|lia].
    intros j' job' Hj' Hjob'. apply finish_settles in Hjob' as [Heq Hne].
    destruct (decide (j' = i)) as [->|Hji]; [auto|].
    apply (Hdone j'); [lia|auto].
Qed.

(** Whatever the schedule, the events of each job in the trace of
    [Promise.all] are an execution of the program of that job. *)
Lemma promise_all_projection w fs jobs schedule i t p :
  NoDup (map fst jobs) ->
  jobs !! i = Some (t, p) ->
  exists res,
    path p (events_of t (pool_trace (promise_all w fs jobs schedule))) res.
Proof.
  intros Hnd Hi. unfold promise_all.
  set (started := fold_left (fun pool '(t, p) => spawn w pool t p) jobs
                    (mkPool fs [] [] None)).
  assert (H1 : projected jobs started
               /\ length (pool_jobs started) = length jobs).
  { subst started.
    assert (Hgen : forall todo done pool,
               jobs = (done ++ todo)%list ->
               projected jobs pool -> length (pool_jobs pool) = length done ->
               projected jobs
                 (fold_left (fun pool '(t, p) => spawn w pool t p) todo pool)
               /\ length (pool_jobs
                            (fold_left (fun pool '(t, p) => spawn w pool t p)
                               todo pool))
                  = length jobs).
    { induction todo as [|[t' p'] todo IH]; intros done pool Hjobs Hp Hlen; simpl.
      - split; [exact Hp|]. rewrite Hlen, Hjobs, app_nil_r. reflexivity.
      - apply (IH (done ++ [(t', p')])%list).
        + rewrite <- app_assoc. exact Hjobs.
        + apply projected_spawn; [exact Hnd|exact Hp|].
          rewrite Hlen, Hjobs. rewrite lookup_app_r by lia.
          rewrite Nat.sub_diag. reflexivity.
        + rewrite spawn_length, length_app, Hlen. simpl. lia. }
    apply (Hgen jobs [] (mkPool fs [] [] None)); [reflexivity| |reflexivity].
    split; [intros j job Hj; discriminate|reflexivity]. }
  destruct H1 as [H1 Hlen1].
  set (scheduled := fold_left (step w) schedule started).
  assert (H2 : projected jobs scheduled
               /\ length (pool_jobs scheduled) = length jobs).
  { subst scheduled. revert H1 Hlen1. generalize started. clear started.
    induction schedule as [|j schedule IH]; intros pool H1 Hlen1; simpl; [auto|].
    apply IH; [apply projected_step; assumption|].
    unfold step. destruct (pool_jobs pool !! j) as [[t' n' p']|]; [|exact Hlen1].
    destruct (resume w t' n' (pool_fs pool) p') as [[[fs' evs0] n''] p''].
    simpl. rewrite length_insert. exact Hlen1. }
  destruct H2 as [H2 Hlen2].
  set (drained := fold_left (finish w) (seq 0 (length jobs)) scheduled).
  assert (H3 : projected jobs drained
               /\ length (pool_jobs drained) = length jobs).
  { subst drained. revert H2 Hlen2. generalize scheduled. clear scheduled.
    generalize (seq 0 (length jobs)).
    induction l as [|j l IH]; intros pool H2 Hlen2; simpl; [auto|].
    apply IH; [apply projected_finish; assumption|].
    rewrite finish_length. exact Hlen2. }
  destruct H3 as [[H3 _] Hlen3].
  pose proof (lookup_lt_Some _ _ _ Hi) as Hlt.
  destruct (lookup_lt_is_Some_2 (pool_jobs drained) i) as [job Hjob]; [lia|].
  destruct (H3 _ _ Hjob) as (p0 & Hi0 & Hp0).
  rewrite Hi in Hi0. injection Hi0 as Ht Hp. subst t p.
  destruct (drain_settles w (length jobs) 0 scheduled) with (j := i) (job := job)
    as [res Hres]; [intros j' job' Hj'; lia|lia|exact Hjob|].
  exists res. specialize (Hp0 [] res). rewrite app_nil_r in Hp0.
  apply Hp0. rewrite Hres. apply path_lift. auto.
Qed.

Lemma imap_jobs_NoDup (f : string -> Prog unit) urls :
  NoDup (map fst (imap_jobs TMirror f urls)).
Proof.
  apply NoDup_alt. intros i j t. unfold imap_jobs.
  rewrite !list_lookup_fmap, !list_lookup_imap.
  destruct (urls !! i); [|discriminate]. destruct (urls !! j); [|discriminate].
  simpl. intros [= <-] [= H]. exact (eq_sym H).
Qed.

(** C10: a mirror job performs its operations one after the other, in the
    order that [sequential] describes: the page with [index.html] first, then
    the assets one at a time in the order of discovery, each from its
    [page.goto] on the one page of the job to the line that reports it, then
    the closing of the browser.  This holds for a job that runs alone and for
    each job of a batch, in whatever order the jobs of the batch are
    resumed. *)
Theorem asset_fetches_sequential :
  (forall outputDirectory w t n fs url,
      sequential outputDirectory url (run w t n fs (mirror outputDirectory url)).1.2)
  /\ (forall outputDirectory w fs urls schedule i,
         match urls !! i with
         | Some url =>
             sequential outputDirectory url
               (events_of (TMirror i)
                  (pool_trace
                     (promise_all w fs
                        (imap_jobs TMirror (mirror outputDirectory) urls)
                        schedule)))
         | None => True
         end).
Proof.
  split.
  - intros outputDirectory w t n fs url.
    destruct (run w t n fs (mirror outputDirectory url)) as [[fs' evs] res] eqn:E.
    eapply mirror_path_sequential, run_path, E.
  - intros outputDirectory w fs urls schedule i.
    destruct (urls !! i) as [url|] eqn:Ei; [|exact I].
    destruct (promise_all_projection w fs
                (imap_jobs TMirror (mirror outputDirectory) urls) schedule i
                (TMirror i) (mirror outputDirectory url)) as [res H].
    + apply imap_jobs_NoDup.
    + unfold imap_jobs. rewrite list_lookup_imap, Ei. reflexivity.
    + eapply mirror_path_sequential, H.
Qed.

(** * One fetch job *)

(** As [path_inv], for programs that test a constant. *)
Ltac path_cases :=
  repeat match goal with
    | H : path (match negb true with _ => _ end) _ _ |- _ => cbn [negb] in H
    | H : path (match negb false with _ => _ end) _ _ |- _ => cbn [negb] in H
    | H : path (call _) _ _ |- _ => unfold call in H
    | H : path (await _) _ _ |- _ => unfold await in H
    | H : path (perform _) _ _ |- _ =>
        apply path_perform in H; destruct H as [? ?]; subst
    | H : path (bind _ _) _ _ |- _ =>
        let E := fresh "E" in
        apply path_bind in H;
        destruct H as [(? & ? & ? & H & ? & E)|(? & H & E)];
        try discriminate E; try (injection E as E); subst
    | H : path (try_catch _ _) _ _ |- _ =>
        let E := fresh "E" in
        apply path_try_catch in H;
        destruct H as [(? & H & E)|(? & ? & ? & H & ? & E)];
        try discriminate E; try (injection E as E); subst
    | H : path (Ret _) _ _ |- _ =>
        let E := fresh "E" in
        simpl in H; destruct H as [? E];
        try discriminate E; try (injection E as E); subst
    | H : path (Throw _) _ _ |- _ =>
        let E := fresh "E" in
        simpl in H; destruct H as [? E];
        try discriminate E; try (injection E as E); subst
    | H : admissible _ (Ok tt) |- _ => clear H
    | H : admissible _ (Err _) |- _ =>
        first [discriminate H | clear H]
    | H : admissible (Call (ConsoleLog _)) ?r |- _ =>
        is_var r; destruct r as [[]|]; [clear H|discriminate H]
    | H : admissible (Call (ConsoleError _)) ?r |- _ =>
        is_var r; destruct r as [[]|]; [clear H|discriminate H]
    | H : admissible (Call DateNowUTC) ?r |- _ =>
        is_var r; destruct r; [clear H|discriminate H]
    | H : admissible _ _ |- _ => clear H
    | x : unit |- _ => destruct x
    | H : path (match ?x with _ => _ end) _ _ |- _ => is_var x; destruct x
    end.

Tactic Notation "fetched" open_constr(o) :=
  refine (ex_intro _ o _); split; [reflexivity|assumption].

(** Every execution of [fetchAndParseURL] is one of the outcomes, and none
    throws. *)
Lemma fetch_path outputDirectory url metadata evs res :
  path (fetchAndParseURL outputDirectory url metadata) evs res ->
  res = Ok tt
  /\ exists o, evs = fetch_events outputDirectory url metadata o
               /\ fetch_fits url o.
Proof.
  unfold fetchAndParseURL, isValidUrl, extractDomainName. intros H.
  destruct (is_empty url) eqn:Hempty; destruct metadata;
    path_cases; (split; [reflexivity|]).
  all: first
    [ fetched EmptyUrl
    | fetched (UrlRejected _)
    | fetched (GetFailed _ _)
    | fetched (LoadFailed _ _ _)
    | fetched (DomainFailed _ _ _ EmptyString _)
    | fetched (DomainFailed _ _ _ _ _)
    | fetched (FileWriteFailed _ _ _ EmptyString _ _)
    | fetched (FileWriteFailed _ _ _ _ _ _)
    | fetched (Stored _ _ _ EmptyString _)
    | fetched (Stored _ _ _ _ _) ].
Qed.

Lemma explained_cheerio w t fs fs' data r :
  explained w t fs fs' (Ev (Call (CheerioLoad data)) r) -> cheerio_load w data = r.
Proof. intros (n & fsI & _ & _ & ->). reflexivity. Qed.

Lemma explained_now w t fs fs' now :
  explained w t fs fs' (Ev (Call DateNowUTC) (Ok now)) ->
  exists n, now = utc_now w t n.
Proof. intros (n & fsI & _ & _ & H). exists n. simpl in H. congruence. Qed.

(** An outcome whose events are answers of the world is one that the
    world allows. *)
Lemma fetch_events_sound outputDirectory w t fs fs' url metadata o :
  Forall (explained w t fs fs') (fetch_events outputDirectory url metadata o) ->
  fetch_sound w t url metadata o.
Proof.
  intros Hex.
  destruct o; cbn [fetch_events] in Hex;
    unfold parsed_events, got_events, metadata_events in Hex;
    destruct metadata; simpl in Hex; Forall_inv; cbn [fetch_sound];
    repeat match goal with
      | H : explained _ _ _ _ (Ev (Call (NewURL _)) (Ok _)) |- _ =>
          apply explained_NewURL in H
      | H : explained _ _ _ _ (Ev (Call (NewURL _)) (Err _)) |- _ =>
          apply explained_NewURL_err in H
      | H : explained _ _ _ _ (Ev (Call (CheerioLoad _)) _) |- _ =>
          apply explained_cheerio in H
      | H : explained _ _ _ _ (Ev (Call DateNowUTC) _) |- _ =>
          apply explained_now in H
      | H : explained _ _ _ _ (Ev (Await (AxiosGet _)) _) |- _ =>
          apply explained_await in H as [? H]; symmetry in H
      end;
    try congruence; try exact I; repeat split; eauto; try congruence.
Qed.

(** In a run, the outcome is one that the world allows. *)
Lemma run_fetch outputDirectory w t n fs url metadata fs' evs res :
  run w t n fs (fetchAndParseURL outputDirectory url metadata) = (fs', evs, res) ->
  res = Ok tt
  /\ exists o, evs = fetch_events outputDirectory url metadata o
               /\ fetch_fits url o /\ fetch_sound w t url metadata o.
Proof.
  intros Hrun. pose proof (run_explained _ _ _ _ _ _ _ _ Hrun) as [_ Hex].
  apply run_path, fetch_path in Hrun as (-> & o & -> & Hfit).
  split; [reflexivity|]. exists o. split; [reflexivity|]. split; [exact Hfit|].
  eapply fetch_events_sound, Hex.
Qed.

Lemma parses_Some w s u : url_parse w s = Some u -> parses w s = true.
Proof. unfold parses. intros ->. reflexivity. Qed.

Lemma parses_None w s : url_parse w s = None -> parses w s = false.
Proof. unfold parses. intros ->. reflexivity. Qed.

(** Whether the job goes beyond the validation is decided by the URL. *)
Lemma fetch_sound_valid w t url metadata o :
  fetch_fits url o -> fetch_sound w t url metadata o ->
  negb (is_empty url) && parses w url
  = match o with
    | EmptyUrl | UrlRejected _ => false
    | _ => true
    end.
Proof.
  destruct o; cbn [fetch_fits fetch_sound]; intros -> H; simpl;
    try reflexivity; try contradiction;
    repeat match goal with
      | H : _ /\ _ |- _ => destruct H
      end;
    first [apply parses_None; assumption
          |eapply parses_Some; eassumption].
Qed.

(** X1: a fetch job is never rejected, and the last thing it does is to print
    one line that tells how it went: the URL was skipped, the page was
    saved to [path.join(outputDirectory, hostname + ".html")], or an error
    occurred.  It prints the first of these exactly for the URLs that
    [isValidUrl] refuses. *)
Theorem fetch_job_ends_with_one_verdict outputDirectory w t n fs url metadata :
  let r := run w t n fs (fetchAndParseURL outputDirectory url metadata) in
  r.2 = Ok tt
  /\ exists m,
      verdicts r.1.2 = [m]
      /\ last r.1.2 ≫= is_verdict = Some m
      /\ (m = InvalidUrlSkipped url
          <-> negb (is_empty url) && parses w url = false)
      /\ (m = InvalidUrlSkipped url
          \/ (exists e, m = ErrorWhileFetching url e)
          \/ exists urlObj,
               url_parse w url = Some urlObj
               /\ m = ContentSaved
                        (Path.join outputDirectory (hostname urlObj ++ ".html"))).
Proof.
  destruct (run w t n fs (fetchAndParseURL outputDirectory url metadata))
    as [[fs' evs] res] eqn:Hrun. cbn [fst snd].
  apply run_fetch in Hrun as (-> & o & -> & Hfit & Hsound).
  split; [reflexivity|].
  pose proof (fetch_sound_valid _ _ _ _ _ Hfit Hsound) as Hvalid.
  exists (fetch_verdict outputDirectory url o).
  rewrite Hvalid. clear Hvalid Hfit.
  destruct o; destruct metadata; cbn [fetch_sound] in Hsound;
    try contradiction.
  all: split; [reflexivity|]; split; [reflexivity|]; cbn [fetch_verdict].
  all: split; [split; [intros E; first [reflexivity|discriminate E]
                      |intros E; first [reflexivity|discriminate E]]|].
  all: first
    [ left; reflexivity
    | right; left; eexists; reflexivity
    | right; right;
      destruct Hsound as [[[Hp _] _] ->]; eexists; split; [exact Hp|reflexivity] ].
Qed.

(** X2: a URL that [isValidUrl] refuses is skipped: the job calls neither
    axios nor the file system, prints the one line that says so, and leaves
    the file system as it was. *)
Theorem fetch_skips_invalid_url outputDirectory w t n fs url metadata :
  negb (is_empty url) && parses w url = false ->
  exists evs,
    run w t n fs (fetchAndParseURL outputDirectory url metadata) = (fs, evs, Ok tt)
    /\ logged evs = [InvalidUrlSkipped url]
    /\ errors evs = []
    /\ requests evs = []
    /\ writes evs = []
    /\ mkdirs evs = [].
Proof.
  intros H. unfold fetchAndParseURL, isValidUrl.
  destruct (is_empty url) eqn:Hempty.
  - eexists. split; [reflexivity|]. repeat split.
  - simpl in H. unfold parses in H. simpl.
    destruct (url_parse w url); [discriminate H|].
    eexists. split; [reflexivity|]. repeat split.
Qed.

Lemma fetch_skips_invalid_url_not_a_url :
  exists evs,
    run offline (TFetch 0) 0 ∅ (fetchAndParseURL "outputRoot" "not a url" true)
    = (∅, evs, Ok tt)
    /\ logged evs = [InvalidUrlSkipped "not a url"]
    /\ errors evs = []
    /\ requests evs = []
    /\ writes evs = []
    /\ mkdirs evs = [].
Proof.
  apply (fetch_skips_invalid_url "outputRoot" offline (TFetch 0) 0 ∅ "not a url" true).
  reflexivity.
Defined.

(** X3: a fetch job calls [axios.get] once, on the URL as it was given, when
    [isValidUrl] accepts the URL, and not at all when it does not. *)
Theorem fetch_requests_valid_url_once outputDirectory w t n fs url metadata :
  let r := run w t n fs (fetchAndParseURL outputDirectory url metadata) in
  requests r.1.2 = if negb (is_empty url) && parses w url then [url] else [].
Proof.
  destruct (run w t n fs (fetchAndParseURL outputDirectory url metadata))
    as [[fs' evs] res] eqn:Hrun. cbn [fst snd].
  apply run_fetch in Hrun as (-> & o & -> & Hfit & Hsound).
  rewrite (fetch_sound_valid _ _ _ _ _ Hfit Hsound).
  destruct o; destruct metadata; reflexivity.
Qed.

Lemma last_write_one q p d :
  last_write q [(p, d)] = if String.eqb p q then Some d else None.
Proof. reflexivity. Qed.

(** X4: what a fetch job leaves on disk: nothing, and then no file has
    changed; or one file, [path.join(outputDirectory, hostname + ".html")]
    for the host name of the URL, that holds [$.html()] of the data that
    [axios.get] gave, while every other file is as it was.  The job
    reports the file as saved exactly in the second case. *)
Theorem fetch_output_layout outputDirectory w t n fs url metadata :
  let r := run w t n fs (fetchAndParseURL outputDirectory url metadata) in
  (writes r.1.2 = [] /\ saved_lines r.1.2 = []
   /\ forall q, Fs.readFile r.1.1 q = Fs.readFile fs q)
  \/ exists urlObj data cheerio,
       let filename := Path.join outputDirectory (hostname urlObj ++ ".html") in
       url_parse w url = Some urlObj
       /\ (exists k, answer w _ t k (AxiosGet url) = Ok data)
       /\ cheerio_load w data = Ok cheerio
       /\ writes r.1.2 = [(filename, Utf8 (html cheerio))]
       /\ saved_lines r.1.2 = [filename]
       /\ Fs.readFile r.1.1 filename = Some (Utf8 (html cheerio))
       /\ forall q, q <> filename -> Fs.readFile r.1.1 q = Fs.readFile fs q.
Proof.
  destruct (run w t n fs (fetchAndParseURL outputDirectory url metadata))
    as [[fs' evs] res] eqn:Hrun. cbn [fst snd].
  pose proof (run_files _ _ _ _ _ _ _ _ Hrun) as Hfiles.
  apply run_fetch in Hrun as (-> & o & -> & Hfit & Hsound).
  assert (Hnone :
            writes (fetch_events outputDirectory url metadata o) = [] ->
            saved_lines (fetch_events outputDirectory url metadata o) = [] ->
            (writes (fetch_events outputDirectory url metadata o) = []
             /\ saved_lines (fetch_events outputDirectory url metadata o) = []
             /\ forall q, Fs.readFile fs' q = Fs.readFile fs q)).
  { intros Hw Hs. split; [exact Hw|]. split; [exact Hs|].
    intros q. rewrite Hfiles, Hw. reflexivity. }
  destruct o; try (left; apply Hnone; destruct metadata; reflexivity).
  right. clear Hnone. cbn [fetch_sound] in Hsound.
  destruct Hsound as [[[Hp Hget] [Hload _]] ->].
  assert (Hw : writes (fetch_events outputDirectory url metadata
                         (Stored urlObj data cheerio now urlObj))
               = [(fetch_filename outputDirectory urlObj, Utf8 (html cheerio))])
    by (destruct metadata; reflexivity).
  exists urlObj, data, cheerio. cbn zeta.
  split; [exact Hp|]. split; [exact Hget|]. split; [exact Hload|].
  split; [exact Hw|]. split; [destruct metadata; reflexivity|].
  split.
  - rewrite Hfiles, Hw, last_write_one. unfold fetch_filename.
    rewrite String.eqb_refl. reflexivity.
  - intros q Hq. rewrite Hfiles, Hw, last_write_one. unfold fetch_filename.
    destruct (String.eqb_spec (Path.join outputDirectory (hostname urlObj ++ ".html")) q)
      as [E|E]; [congruence|reflexivity].
Qed.

(** X5: a page that can be fetched and parsed is saved: when [new URL]
    accepts the URL, [axios.get] answers, [cheerio.load] parses the answer
    and the file can be written, the job writes [$.html()] to
    [path.join(outputDirectory, hostname + ".html")], reports it as saved
    in its last line, and prints no error. *)
Theorem fetch_saves_reachable_page outputDirectory w t n fs url metadata
    urlObj data cheerio :
  let filename := Path.join outputDirectory (hostname urlObj ++ ".html") in
  is_empty url = false ->
  url_parse w url = Some urlObj ->
  (forall k, answer w _ t k (AxiosGet url) = Ok data) ->
  cheerio_load w data = Ok cheerio ->
  writable fs filename ->
  (forall k, fs_denied w t k filename = false) ->
  exists evs,
    run w t n fs (fetchAndParseURL outputDirectory url metadata)
    = (<[filename := File (Utf8 (html cheerio))]> fs, evs, Ok tt)
    /\ writes evs = [(filename, Utf8 (html cheerio))]
    /\ last (logged evs) = Some (ContentSaved filename)
    /\ errors evs = [].
Proof.
  intros filename Hempty Hparse Hget Hload Hwritable Hallowed.
  unfold fetchAndParseURL, isValidUrl, extractDomainName. rewrite Hempty.
  cbn [run bind try_catch call await perform lift exec exec_sys negb fst snd].
  rewrite Hparse.
  cbn [run bind try_catch call await perform lift exec exec_sys negb fst snd].
  rewrite Hget.
  cbn [run bind try_catch call await perform lift exec exec_sys negb fst snd].
  rewrite Hload.
  destruct metadata;
    cbn [run bind try_catch call await perform lift exec exec_sys negb fst snd];
    rewrite Hparse;
    cbn [run bind try_catch call await perform lift exec exec_sys negb fst snd];
    fold filename;
    rewrite (writeFileSync_writable _ _ _ _ Hwritable (Hallowed _));
    cbn [run bind try_catch call await perform lift exec exec_sys negb fst snd];
    (eexists; split; [reflexivity|]); repeat split.
Qed.

Lemma fetch_saves_reachable_page_example_com :
  let w := Web.world Scenario.example_com ["https://example.com"] in
  exists evs,
    run w (TFetch 0) 0 ∅ (fetchAndParseURL "." "https://example.com" true)
    = (<["example.com.html" :=
           File (Utf8 "<html><img src=logo.png><script src=app.js></script></html>")]> ∅,
       evs, Ok tt)
    /\ writes evs
       = [("example.com.html",
           Utf8 "<html><img src=logo.png><script src=app.js></script></html>")]
    /\ last (logged evs) = Some (ContentSaved "example.com.html")
    /\ errors evs = [].
Proof.
  intros w.
  apply (fetch_saves_reachable_page "." w (TFetch 0) 0 ∅ "https://example.com" true
           (mkURL "https:" "example.com" "/")
           "<html><img src=logo.png><script src=app.js></script></html>"
           (mkCheerio (fun _ => 0)
              "<html><img src=logo.png><script src=app.js></script></html>")).
  - reflexivity.
  - reflexivity.
  - intros k. reflexivity.
  - reflexivity.
  - repeat split; try reflexivity. vm_compute. discriminate.
  - intros k. reflexivity.
Defined.

(** ** Directories *)

Lemma exec_dirs {X} w t n fs (op : Op X) r k :
  mkdirs [Ev op r] = [] ->
  (exec w t n fs op).2 !! k = Some Dir -> fs !! k = Some Dir.
Proof.
  destruct op as [e|s]; [intros _ H; exact H|].
  destruct s; try (intros _ H; exact H); [discriminate|].
  intros _. simpl.
  destruct (Fs.writeFileSync (fs_denied w t n) fs p d) as [[[]|e] fs'] eqn:E.
  - apply writeFileSync_ok in E as (_ & _ & ->). simpl.
    destruct (decide (p = k)) as [->|Hne].
    + rewrite lookup_insert_eq. discriminate.
    + rewrite lookup_insert_ne by exact Hne. auto.
  - apply writeFileSync_err in E as ->. auto.
Qed.

Lemma mkdirs_cons {X} (op : Op X) r evs :
  mkdirs (Ev op r :: evs) = (mkdirs [Ev op r] ++ mkdirs evs)%list.
Proof. destruct op as [e|s]; [reflexivity|]. destruct s; reflexivity. Qed.

(** A run that does not call [fs.mkdirSync] creates no directory. *)
Lemma run_dirs {A} w t (p : Prog A) :
  forall n fs fs' evs res,
    run w t n fs p = (fs', evs, res) ->
    mkdirs evs = [] ->
    forall k, fs' !! k = Some Dir -> fs !! k = Some Dir.
Proof.
  induction p as [a|e|X op k IH]; intros n fs fs' evs res; simpl.
  - intros [= <- <- _] _ q H. exact H.
  - intros [= <- <- _] _ q H. exact H.
  - pose proof (exec_dirs w t n fs op) as Hop.
    destruct (exec w t n fs op) as [r fs1].
    destruct (run w t (S n) fs1 (k r)) as [[fs2 evs2] res2] eqn:E.
    intros [= <- <- _]. rewrite mkdirs_cons. intros Hm q Hq.
    apply app_eq_nil in Hm as [Hm1 Hm2].
    apply (Hop r q Hm1). simpl. eapply IH; eauto.
Qed.

Lemma stat_dirs (fs fs' : FS) q :
  (forall k, fs' !! k = Some Dir -> fs !! k = Some Dir) ->
  Fs.stat fs' q = Some Dir -> Fs.stat fs q = Some Dir.
Proof.
  unfold Fs.stat. intros H.
  destruct (String.eqb (Fs.key q) "/" || String.eqb (Fs.key q) "."); auto.
Qed.

(** X6: a fetch job creates no directory: it never calls [fs.mkdirSync], the
    directories after the job are those before it, and a page is only saved
    into a directory that was there when the job started. *)
Theorem fetch_creates_no_directory outputDirectory w t n fs url metadata :
  let r := run w t n fs (fetchAndParseURL outputDirectory url metadata) in
  mkdirs r.1.2 = []
  /\ (forall k, r.1.1 !! k = Some Dir <-> fs !! k = Some Dir)
  /\ Forall (fun pd => Fs.stat fs (Path.dirname pd.1) = Some Dir) (writes r.1.2).
Proof.
  destruct (run w t n fs (fetchAndParseURL outputDirectory url metadata))
    as [[fs' evs] res] eqn:Hrun. cbn [fst snd].
  pose proof (run_explained _ _ _ _ _ _ _ _ Hrun) as [Hle Hex].
  pose proof (run_dirs _ _ _ _ _ _ _ _ Hrun) as Hdirs.
  assert (Hm : mkdirs evs = []).
  { apply run_path, fetch_path in Hrun as (_ & o & -> & _).
    destruct o; destruct metadata; reflexivity. }
  specialize (Hdirs Hm).
  split; [exact Hm|]. split.
  - intros k. split; [apply Hdirs|].
    intros Hk. specialize (Hle k). rewrite Hk in Hle. exact Hle.
  - apply explained_writes in Hex.
    eapply Forall_impl; [exact Hex|].
    intros [p d] [(_ & _ & _ & Hdir) _]. simpl in *.
    eapply stat_dirs; eauto.
Qed.

(** ** Metadata *)

(** X7: without [--metadata] a fetch job prints no metadata.  With it, the
    job prints the metadata at most once, and once when it saves the page;
    what it prints is the URL as it was given, the number of elements that
    [$("a")] and [$("img")] select in the parsed answer of [axios.get], and
    the time that [Date] gave. *)
Theorem fetch_metadata_line outputDirectory w t n fs url metadata :
  let r := run w t n fs (fetchAndParseURL outputDirectory url metadata) in
  (metadata = false -> metadata_lines r.1.2 = [])
  /\ (metadata = true -> writes r.1.2 <> [] -> metadata_lines r.1.2 <> [])
  /\ (forall m,
         m ∈ metadata_lines r.1.2 ->
         metadata_lines r.1.2 = [m]
         /\ site m = url
         /\ exists data cheerio,
             (exists k, answer w _ t k (AxiosGet url) = Ok data)
             /\ cheerio_load w data = Ok cheerio
             /\ num_links m = select_length cheerio "a"
             /\ images m = select_length cheerio "img"
             /\ exists k, last_fetch m = utc_now w t k).
Proof.
  destruct (run w t n fs (fetchAndParseURL outputDirectory url metadata))
    as [[fs' evs] res] eqn:Hrun. cbn [fst snd].
  apply run_fetch in Hrun as (-> & o & -> & Hfit & Hsound).
  split; [intros ->; destruct o; reflexivity|].
  split; [intros ->; destruct o; simpl; congruence|].
  intros m Hm.
  destruct metadata; [|destruct o; simpl in Hm; inversion Hm].
  destruct o; cbn [fetch_sound] in Hsound; try contradiction;
    simpl in Hm; try solve [inversion Hm];
    apply list_elem_of_singleton in Hm as ->;
    (split; [reflexivity|]); (split; [reflexivity|]);
    destruct Hsound as [[[_ Hget] [Hload Hnow]] _];
    exists data, cheerio; repeat split; auto.
Qed.

(** ** The host name of a URL *)

(** X8: [extractDomainName(url)] gives the host name that [new URL(url)]
    parses, and throws when [new URL] does; it touches no file.  It does not
    throw on a URL that [isValidUrl] accepts, and a URL other than the empty
    string on which it does not throw is one that [isValidUrl] accepts. *)
Theorem extractDomainName_agrees_with_isValidUrl w t n fs url :
  let r := run w t n fs (extractDomainName url) in
  r.1.1 = fs
  /\ r.2 = match url_parse w url with
           | Some urlObj => Ok (hostname urlObj)
           | None => Err (TypeError "Invalid URL")
           end
  /\ (validates w url = Ok true -> is_ok r.2 = true)
  /\ (is_ok r.2 = true -> is_empty url = false -> validates w url = Ok true).
Proof.
  unfold extractDomainName, validates, isValidUrl. simpl.
  destruct (url_parse w url) as [urlObj|] eqn:Hparse; simpl.
  - split; [reflexivity|]. split; [reflexivity|]. split; [reflexivity|].
    intros _ ->. simpl. rewrite Hparse. reflexivity.
  - split; [reflexivity|]. split; [reflexivity|].
    split; [|discriminate].
    destruct (is_empty url); simpl; [discriminate|].
    rewrite Hparse. simpl. discriminate.
Qed.

(** * The assets of a page *)

Lemma asset_of_Some element assetUrl :
  asset_of element = Some assetUrl
  <-> is_empty assetUrl = false
      /\ (element = HTMLImageElement assetUrl
          \/ element = HTMLLinkElement assetUrl
          \/ element = HTMLScriptElement assetUrl).
Proof.
  split.
  - destruct element as [s|s|s|]; simpl; try discriminate;
      destruct (is_empty s) eqn:E; try discriminate;
      intros [= <-]; auto.
  - intros [E [->|[->| ->]]]; simpl; rewrite E; reflexivity.
Qed.

(** X9: the callback of [page.evaluate] collects, in the order of the
    document, the [src] of the images and scripts and the [href] of the
    style sheets, leaving out the elements whose attribute is empty: a URL
    is among the assets exactly when it is not empty and is the attribute of
    such an element, no asset is the empty string, and the assets of two
    parts of a document are those of the first part followed by those of the
    second. *)
Theorem discover_collects_nonempty_sources :
  (forall elements assetUrl,
      assetUrl ∈ discover elements
      <-> is_empty assetUrl = false
          /\ (HTMLImageElement assetUrl ∈ elements
              \/ HTMLLinkElement assetUrl ∈ elements
              \/ HTMLScriptElement assetUrl ∈ elements))
  /\ (forall elements, Forall (fun assetUrl => is_empty assetUrl = false)
                         (discover elements))
  /\ (forall elements1 elements2,
         discover (elements1 ++ elements2)
         = (discover elements1 ++ discover elements2)%list)
  /\ (forall elements, length (discover elements) <= length elements).
Proof.
  assert (H : forall elements assetUrl,
             assetUrl ∈ discover elements
             <-> is_empty assetUrl = false
                 /\ (HTMLImageElement assetUrl ∈ elements
                     \/ HTMLLinkElement assetUrl ∈ elements
                     \/ HTMLScriptElement assetUrl ∈ elements)).
  { intros elements assetUrl. unfold discover. rewrite list_elem_of_omap. split.
    - intros (element & Hin & Hs). apply asset_of_Some in Hs as [E Hs].
      split; [exact E|]. destruct Hs as [->|[->| ->]]; auto.
    - intros [E Hs].
      destruct Hs as [Hin|[Hin|Hin]]; eexists; (split; [exact Hin|]);
        apply asset_of_Some; auto. }
  split; [exact H|]. split; [|split].
  - intros elements. apply Forall_forall. intros assetUrl Hin.
    apply H in Hin as [E _]. exact E.
  - intros elements1 elements2. apply omap_app.
  - intros elements. unfold discover.
    induction elements as [|element elements IH]; [reflexivity|].
    cbn [omap list_omap length]. fold (omap asset_of elements).
    destruct (asset_of element); cbn [length]; lia.
Qed.

(** * What a mirror job reports *)

Lemma saved_lines_app evs1 evs2 :
  saved_lines (evs1 ++ evs2) = (saved_lines evs1 ++ saved_lines evs2)%list.
Proof. apply omap_app. Qed.

Lemma writes_app evs1 evs2 :
  writes (evs1 ++ evs2) = (writes evs1 ++ writes evs2)%list.
Proof. apply omap_app. Qed.

Lemma completions_app evs1 evs2 :
  completions (evs1 ++ evs2) = (completions evs1 ++ completions evs2)%list.
Proof. apply omap_app. Qed.

Lemma saved_lines_loop_events page dirPath assets :
  forall outcomes,
    saved_lines (loop_events page dirPath assets outcomes)
    = map fst (writes (loop_events page dirPath assets outcomes)).
Proof.
  induction assets as [|a assets IH]; intros [|o outcomes]; try reflexivity.
  cbn [loop_events]. rewrite saved_lines_app, writes_app, map_app, IH.
  f_equal. destruct o; reflexivity.
Qed.

Lemma saved_lines_mirror_events outputDirectory url o outcomes closing :
  saved_lines (mirror_events outputDirectory url o outcomes closing)
  = map fst (writes (mirror_events outputDirectory url o outcomes closing)).
Proof.
  destruct o as [| | | | | | ? ? ? ? ? []|? ? ? ? ? []|? ? ? ? ? []];
    try reflexivity.
  all: cbn [mirror_events];
    rewrite !saved_lines_app, !writes_app, !map_app, saved_lines_loop_events;
    f_equal; f_equal; destruct closing; reflexivity.
Qed.

(** X10: the lines [Main content saved: p] and [Asset saved: p] of a mirror job
    are truthful: in the order in which they are printed, their paths are
    those of the writes that succeeded, and each of them is a file when the
    job ends, whether the job is fulfilled or rejected. *)
Theorem mirror_reports_what_it_saved outputDirectory w t n fs url :
  let r := run w t n fs (mirror outputDirectory url) in
  saved_lines r.1.2 = map fst (writes r.1.2)
  /\ Forall (is_file r.1.1) (saved_lines r.1.2).
Proof.
  destruct (run w t n fs (mirror outputDirectory url)) as [[fs' evs] res] eqn:Hrun.
  cbn [fst snd].
  pose proof (run_explained _ _ _ _ _ _ _ _ Hrun) as [_ Hex].
  apply run_path, mirror_path in Hrun as (o & outcomes & closing & _ & -> & _).
  rewrite saved_lines_mirror_events. split; [reflexivity|].
  apply Forall_fmap. apply explained_writes in Hex.
  eapply Forall_impl; [exact Hex|]. intros [p d] [_ H]. exact H.
Qed.

Lemma completions_mirror_events outputDirectory url o outcomes closing :
  completions (mirror_events outputDirectory url o outcomes closing)
  = if is_ok (mirror_result o closing) then [url] else [].
Proof.
  destruct o as [| | | | | | ? ? ? ? ? []|? ? ? ? ? []|? ? ? ? ? []];
    try reflexivity.
  all: cbn [mirror_events]; rewrite !completions_app.
  all: unfold completions at 2; rewrite omap_loop_events
         by (intros a oa; destruct oa; reflexivity).
  all: destruct closing as [[]|e]; reflexivity.
Qed.

(** X11: a mirror job prints [Mirroring completed for URL] exactly when it is
    fulfilled, and then once. *)
Theorem mirror_completed_iff_fulfilled outputDirectory w t n fs url :
  let r := run w t n fs (mirror outputDirectory url) in
  completions r.1.2 = if is_ok r.2 then [url] else [].
Proof.
  cbn zeta.
  destruct (run_mirror outputDirectory w t n fs url)
    as (o & outcomes & closing & _ & -> & ->).
  apply completions_mirror_events.
Qed.

(** ** The page comes first *)

Lemma content_explained w t fs fs' outputDirectory url browser page nav
    content urlObj dirExists :
  Forall (explained w t fs fs')
    (saved_events outputDirectory url browser page nav content urlObj dirExists) ->
  exists k, answer w _ t k (PageContent page) = Ok content.
Proof.
  unfold saved_events, loaded_events. intros H. simpl in H. Forall_inv.
  match goal with
  | H : explained _ _ _ _ (Ev (Await (PageContent _)) _) |- _ =>
      apply explained_await in H as [k H]; exists k; symmetry; exact H
  end.
Qed.

(** X12: a mirror job writes [index.html] before anything else.  Either it
    writes no file at all, and then every file is as it was before the job;
    or its first write is that of [path.join(outputDirectory, hostname,
    "index.html")] with the content that [page.content()] gave, and that
    file is there when the job ends, also when the job is rejected
    afterwards. *)
Theorem mirror_saves_the_page_first outputDirectory w t n fs url :
  let r := run w t n fs (mirror outputDirectory url) in
  (writes r.1.2 = [] /\ forall q, Fs.readFile r.1.1 q = Fs.readFile fs q)
  \/ exists urlObj content rest,
       url_parse w url = Some urlObj
       /\ (exists k page, answer w _ t k (PageContent page) = Ok content)
       /\ writes r.1.2
          = (Path.join (Path.join outputDirectory (hostname urlObj)) "index.html",
             Utf8 content) :: rest
       /\ is_file r.1.1
            (Path.join (Path.join outputDirectory (hostname urlObj)) "index.html").
Proof.
  destruct (run w t n fs (mirror outputDirectory url)) as [[fs' evs] res] eqn:Hrun.
  cbn [fst snd].
  pose proof (run_explained _ _ _ _ _ _ _ _ Hrun) as [_ Hex].
  pose proof (run_files _ _ _ _ _ _ _ _ Hrun) as Hfiles.
  apply run_path, mirror_path in Hrun as (o & outcomes & closing & Hfit & -> & _).
  assert (Hnone :
            forall evs, writes evs = [] ->
              (forall q, Fs.readFile fs' q
                         = match last_write q (writes evs) with
                           | Some d => Some d
                           | None => Fs.readFile fs q
                           end) ->
              writes evs = [] /\ forall q, Fs.readFile fs' q = Fs.readFile fs q).
  { intros evs Hw H. split; [exact Hw|]. intros q. rewrite H, Hw. reflexivity. }
  destruct o as [| | | | | | ? ? ? ? ? []|? ? ? ? ? dirExists|? ? ? ? ? dirExists];
    try (left; apply Hnone; [reflexivity|exact Hfiles]).
  - right. cbn [mirror_events page_events] in Hex.
    apply Forall_app in Hex as [Hex _].
    pose proof (saved_events_explained _ _ _ _ _ _ _ _ _ _ _ _ Hex)
      as (Hp & _ & _ & Hfile).
    apply content_explained in Hex as [k Hk].
    exists urlObj, content, []. split; [exact Hp|]. split; [eauto|].
    split; [destruct dirExists; reflexivity|exact Hfile].
  - right. rewrite (writes_mirror_events_rendered _ _ _ _ _ _ _ _ _ _ _ Hfit).
    cbn [mirror_events page_events] in Hex.
    apply Forall_app in Hex as [Hex _]. apply Forall_app in Hex as [Hex _].
    pose proof (saved_events_explained _ _ _ _ _ _ _ _ _ _ _ _ Hex)
      as (Hp & _ & _ & Hfile).
    apply content_explained in Hex as [k Hk].
    exists urlObj, content, (omap (asset_written (dir_path outputDirectory urlObj)) outcomes).
    split; [exact Hp|]. split; [eauto|]. split; [reflexivity|exact Hfile].
Qed.

(** ** The directory of the host *)

Lemma created_lines_app evs1 evs2 :
  created_lines (evs1 ++ evs2) = (created_lines evs1 ++ created_lines evs2)%list.
Proof. apply omap_app. Qed.

Lemma created_lines_mirror_events outputDirectory url o outcomes closing :
  created_lines (mirror_events outputDirectory url o outcomes closing)
  = created_lines (page_events outputDirectory url o).
Proof.
  destruct o; try reflexivity.
  cbn [mirror_events]. rewrite !created_lines_app.
  unfold created_lines at 2. rewrite omap_loop_events
    by (intros a oa; destruct oa; reflexivity).
  destruct closing as [[]|e]; simpl; rewrite app_nil_r; reflexivity.
Qed.

(** X13: a mirror job creates the directory of the host only when it is
    missing.  The job reports no directory as created, or exactly one:
    [path.join(outputDirectory, hostname)] for the host name of the URL,
    which did not exist when the job started and exists when it ends.  So a
    job whose directory is there already reports none. *)
Theorem mirror_creates_directory_only_if_missing outputDirectory w t n fs url :
  let r := run w t n fs (mirror outputDirectory url) in
  (created_lines r.1.2 = []
   \/ exists urlObj,
        let dirPath := Path.join outputDirectory (hostname urlObj) in
        url_parse w url = Some urlObj
        /\ created_lines r.1.2 = [dirPath]
        /\ Fs.existsSync fs dirPath = false
        /\ Fs.existsSync r.1.1 dirPath = true)
  /\ (forall urlObj,
         url_parse w url = Some urlObj ->
         Fs.existsSync fs (Path.join outputDirectory (hostname urlObj)) = true ->
         created_lines r.1.2 = []).
Proof.
  destruct (run w t n fs (mirror outputDirectory url)) as [[fs' evs] res] eqn:Hrun.
  cbn [fst snd].
  assert (H : created_lines evs = []
              \/ exists urlObj,
                   url_parse w url = Some urlObj
                   /\ created_lines evs = [Path.join outputDirectory (hostname urlObj)]
                   /\ Fs.existsSync fs (Path.join outputDirectory (hostname urlObj))
                      = false
                   /\ Fs.existsSync fs' (Path.join outputDirectory (hostname urlObj))
                      = true).
  { pose proof (run_explained _ _ _ _ _ _ _ _ Hrun) as [_ Hex].
    apply run_path, mirror_path in Hrun as (o & outcomes & closing & _ & -> & _).
    rewrite created_lines_mirror_events.
    assert (Hpage : Forall (explained w t fs fs') (page_events outputDirectory url o)).
    { destruct o; try exact Hex. cbn [mirror_events] in Hex.
      apply Forall_app in Hex as [Hex _]. exact Hex. }
    clear Hex.
    destruct o as [| | | | | | ? ? ? ? ? []|? ? ? ? ? []|? ? ? ? ? []];
      try (left; reflexivity).
    all: right; exists urlObj; cbn [page_events] in Hpage;
      unfold saved_events, loaded_events, dir_events, dir_path in Hpage;
      simpl in Hpage; Forall_inv.
    all: split; [eapply explained_NewURL; eauto|].
    all: split; [reflexivity|].
    all: split; [eapply explained_exists_false; eauto|].
    all: eapply explained_mkdir_ok; eauto; apply join_nonempty. }
  split; [exact H|].
  intros urlObj Hp Hthere. destruct H as [H|(urlObj' & Hp' & _ & Hmissing & _)];
    [exact H|].
  rewrite Hp in Hp'. injection Hp' as <-. congruence.
Qed.

(** * Batches *)

(** What holds when [Promise.all] starts and is kept by starting a job,
    resuming a job and running a job to its end holds when [Promise.all]
    settles. *)
Lemma promise_all_invariant (P : Pool -> Prop) w fs jobs schedule :
  P (mkPool fs [] [] None) ->
  (forall pool t p, (t, p) ∈ jobs -> P pool -> P (spawn w pool t p)) ->
  (forall pool i, P pool -> P (step w pool i)) ->
  (forall pool i, P pool -> P (finish w pool i)) ->
  P (promise_all w fs jobs schedule).
Proof.
  intros H0 Hspawn Hstep Hfinish. unfold promise_all.
  assert (H1 : P (fold_left (fun pool '(t, p) => spawn w pool t p) jobs
                    (mkPool fs [] [] None))).
  { assert (Hgen : forall todo pool,
               (forall tp, tp ∈ todo -> tp ∈ jobs) -> P pool ->
               P (fold_left (fun pool '(t, p) => spawn w pool t p) todo pool)).
    { induction todo as [|[t p] todo IH]; intros pool Hin Hp; simpl; [exact Hp|].
      apply IH.
      - intros tp Htp. apply Hin. right. exact Htp.
      - apply Hspawn; [apply Hin; left|exact Hp]. }
    apply Hgen; auto. }
  assert (H2 : P (fold_left (step w) schedule
                    (fold_left (fun pool '(t, p) => spawn w pool t p) jobs
                       (mkPool fs [] [] None)))).
  { revert H1. generalize (fold_left (fun pool '(t, p) => spawn w pool t p) jobs
                             (mkPool fs [] [] None)).
    induction schedule as [|i schedule IH]; intros pool H1; simpl; [exact H1|].
    apply IH, Hstep, H1. }
  revert H2. generalize (fold_left (step w) schedule
                           (fold_left (fun pool '(t, p) => spawn w pool t p) jobs
                              (mkPool fs [] [] None))).
  generalize (seq 0 (length jobs)).
  induction l as [|i l IH]; intros pool H2; simpl; [exact H2|].
  apply IH, Hfinish, H2.
Qed.

(** ** Files are kept *)

Lemma settle_le {A} w t (p : Prog A) :
  forall n fs fs' evs n' p',
    settle w t n fs p = (fs', evs, n', p') -> fs_le fs fs'.
Proof.
  induction p as [a|e|X op k IH]; intros n fs fs' evs n' p'; simpl.
  - intros [= <- _ _ _]. apply fs_le_refl.
  - intros [= <- _ _ _]. apply fs_le_refl.
  - destruct op as [e|s].
    + intros [= <- _ _ _]. apply fs_le_refl.
    + pose proof (exec_le w t n fs (Call s)) as Hle. simpl in Hle.
      destruct (exec_sys w t n fs s) as [r fs1].
      destruct (settle w t (S n) fs1 (k r)) as [[[fs2 evs2] n2] p2] eqn:E.
      intros [= <- _ _ _]. eapply fs_le_trans; [exact Hle|]. eapply IH, E.
Qed.

Lemma resume_le {A} w t (p : Prog A) :
  forall n fs fs' evs n' p',
    resume w t n fs p = (fs', evs, n', p') -> fs_le fs fs'.
Proof.
  intros n fs fs' evs n' p'.
  destruct p as [a|e|X [e|s] k]; try apply settle_le.
  simpl.
  destruct (settle w t (S n) fs (k (answer w X t n e))) as [[[fs2 evs2] n2] p2] eqn:E.
  intros [= <- _ _ _]. eapply settle_le, E.
Qed.

Lemma spawn_le w pool t p : fs_le (pool_fs pool) (pool_fs (spawn w pool t p)).
Proof.
  unfold spawn.
  destruct (settle w t 0 (pool_fs pool) p) as [[[fs' evs] n'] p'] eqn:E.
  simpl. eapply settle_le, E.
Qed.

Lemma step_le w pool i : fs_le (pool_fs pool) (pool_fs (step w pool i)).
Proof.
  unfold step. destruct (pool_jobs pool !! i) as [[t n p]|]; [|apply fs_le_refl].
  destruct (resume w t n (pool_fs pool) p) as [[[fs' evs] n'] p'] eqn:E.
  simpl. eapply resume_le, E.
Qed.

Lemma finish_le w pool i : fs_le (pool_fs pool) (pool_fs (finish w pool i)).
Proof.
  unfold finish. destruct (pool_jobs pool !! i) as [[t n p]|]; [|apply fs_le_refl].
  destruct (run w t n (pool_fs pool) p) as [[fs' evs] res] eqn:E.
  simpl. eapply run_explained, E.
Qed.

Lemma promise_all_le w fs jobs schedule :
  fs_le fs (pool_fs (promise_all w fs jobs schedule)).
Proof.
  apply (promise_all_invariant (fun pool => fs_le fs (pool_fs pool))).
  - apply fs_le_refl.
  - intros pool t p _ H. eapply fs_le_trans; [exact H|apply spawn_le].
  - intros pool i H. eapply fs_le_trans; [exact H|apply step_le].
  - intros pool i H. eapply fs_le_trans; [exact H|apply finish_le].
Qed.

Lemma all_events_append tr1 tr2 :
  all_events (tr1 ++ tr2) = (all_events tr1 ++ all_events tr2)%list.
Proof. apply map_app. Qed.

(** ** Whose events a trace holds *)

Lemma owned_move jobs0 pool t fs evs i n p rej :
  owned jobs0 pool ->
  pool_jobs pool !! i = Some (mkJob t n p) ->
  forall n' p',
    owned jobs0
      {| pool_fs := fs;
         pool_trace := (pool_trace pool ++ tag t evs)%list;
         pool_jobs := <[i := mkJob t n' p']> (pool_jobs pool);
         pool_rejected := rej |}.
Proof.
  intros [Htrace Hjobs] Hi n' p'.
  assert (Ht : t ∈ map fst jobs0).
  { rewrite Forall_lookup in Hjobs. apply (Hjobs _ _ Hi). }
  split; cbn [pool_trace pool_jobs].
  - apply Forall_app. split; [exact Htrace|].
    unfold tag. apply Forall_fmap, Forall_forall. intros ev _. exact Ht.
  - apply Forall_insert; [exact Hjobs|exact Ht].
Qed.

Lemma promise_all_owned w fs jobs schedule :
  owned jobs (promise_all w fs jobs schedule).
Proof.
  apply (promise_all_invariant (owned jobs)).
  - split; constructor.
  - intros pool t p Hin [Htrace Hjobs]. unfold spawn.
    destruct (settle w t 0 (pool_fs pool) p) as [[[fs' evs] n'] p'].
    assert (Ht : t ∈ map fst jobs).
    { apply list_elem_of_fmap. exists (t, p). split; [reflexivity|exact Hin]. }
    split; cbn [pool_trace pool_jobs].
    + apply Forall_app. split; [exact Htrace|].
      unfold tag. apply Forall_fmap, Forall_forall. intros ev _. exact Ht.
    + apply Forall_app. split; [exact Hjobs|]. constructor; [exact Ht|constructor].
  - intros pool i H. unfold step.
    destruct (pool_jobs pool !! i) as [[t n p]|] eqn:Hi; [|exact H].
    destruct (resume w t n (pool_fs pool) p) as [[[fs' evs] n'] p'].
    eapply owned_move; eauto.
  - intros pool i H. unfold finish.
    destruct (pool_jobs pool !! i) as [[t n p]|] eqn:Hi; [|exact H].
    destruct (run w t n (pool_fs pool) p) as [[fs' evs] res].
    eapply owned_move; eauto.
Qed.

Lemma imap_jobs_tid mk (f : string -> Prog unit) urls t :
  t ∈ map fst (imap_jobs mk f urls) -> exists i, t = mk i /\ i < length urls.
Proof.
  intros H. apply list_elem_of_lookup in H as [i H]. revert H. unfold imap_jobs.
  rewrite list_lookup_fmap, list_lookup_imap.
  destruct (urls !! i) as [url|] eqn:Hi; [|discriminate].
  intros [= <-]. exists i. split; [reflexivity|].
  eapply lookup_lt_Some, Hi.
Qed.

Lemma promise_all_tids w fs mk (f : string -> Prog unit) urls schedule :
  Forall (fun te => exists i, te.1 = mk i /\ i < length urls)
    (pool_trace (promise_all w fs (imap_jobs mk f urls) schedule)).
Proof.
  destruct (promise_all_owned w fs (imap_jobs mk f urls) schedule) as [H _].
  eapply Forall_impl; [exact H|]. intros te. apply imap_jobs_tid.
Qed.

Lemma events_of_none t tr :
  Forall (fun te => te.1 <> t) tr -> events_of t tr = [].
Proof.
  induction 1 as [|[t' ev] tr Hne _ IH]; [reflexivity|].
  unfold events_of. cbn [omap list_omap]. fold (events_of t tr). rewrite IH.
  destruct (Tid_eqb t t') eqn:E; [|reflexivity].
  apply Tid_eqb_eq in E. simpl in Hne. congruence.
Qed.

(** X15: [main] awaits the fetch jobs before it starts to mirror: its trace is
    its first line, then operations of fetch jobs only, then operations of
    [main] and of mirror jobs only; so every operation of every fetch job
    comes before every operation of every mirror job, in whatever order the
    jobs are resumed.  Without [--mirror] the last part is empty. *)
Theorem main_fetches_before_it_mirrors outputDirectory w argv
    fetchSchedule mirrorSchedule fs :
  let r := main outputDirectory w argv fetchSchedule mirrorSchedule fs in
  let urls := argv_urls argv in
  exists fetchTrace mirrorTrace,
    r.1.2 = (main_log (StartingProcessing urls) ++ fetchTrace ++ mirrorTrace)%list
    /\ Forall (fun te => is_fetch_job (length urls) te.1) fetchTrace
    /\ Forall (fun te => is_mirror_phase (length urls) te.1) mirrorTrace
    /\ (argv_mirror argv = false -> mirrorTrace = []).
Proof.
  unfold main. cbn zeta.
  pose proof (promise_all_tids w fs TFetch
                (fun url => fetchAndParseURL outputDirectory url (argv_metadata argv))
                (argv_urls argv) fetchSchedule) as H1.
  set (fetched := promise_all w fs _ fetchSchedule) in *.
  assert (Hfetch : Forall (fun te => is_fetch_job (length (argv_urls argv)) te.1)
                     (pool_trace fetched)) by exact H1.
  destruct (pool_rejected fetched).
  { exists (pool_trace fetched), []. cbn [fst snd]. rewrite app_nil_r. auto. }
  destruct (argv_mirror argv).
  2:{ exists (pool_trace fetched), []. cbn [fst snd]. rewrite app_nil_r. auto. }
  match goal with
  | |- context [promise_all w ?fs1 ?jobs mirrorSchedule] =>
      pose proof (promise_all_tids w fs1 TMirror (mirror outputDirectory)
                    (argv_urls argv) mirrorSchedule) as H2;
      set (mirrored := promise_all w fs1 jobs mirrorSchedule) in *
  end.
  assert (Hmirror : Forall (fun te => is_mirror_phase (length (argv_urls argv)) te.1)
                      (pool_trace mirrored)).
  { eapply Forall_impl; [exact H2|]. intros te Hte. right. exact Hte. }
  assert (Hlog : forall m, Forall (fun te => is_mirror_phase (length (argv_urls argv)) te.1)
                             (main_log m)).
  { intros m. constructor; [left; reflexivity|constructor]. }
  destruct (pool_rejected mirrored); cbn [fst snd].
  - exists (pool_trace fetched),
      (main_log StartingMirroringProcess ++ pool_trace mirrored)%list.
    split; [rewrite <- app_assoc; reflexivity|]. split; [exact Hfetch|].
    split; [|discriminate]. apply Forall_app. auto.
  - exists (pool_trace fetched),
      ((main_log StartingMirroringProcess ++ pool_trace mirrored)
       ++ main_log MirroringProcessCompleted)%list.
    split; [rewrite <- !app_assoc; reflexivity|]. split; [exact Hfetch|].
    split; [|discriminate]. rewrite !Forall_app. auto.
Qed.

(** ** Each job of a batch *)

Lemma imap_jobs_NoDup_inj mk (f : string -> Prog unit) urls :
  (forall i j : nat, mk i = mk j -> i = j) ->
  NoDup (map fst (imap_jobs mk f urls)).
Proof.
  intros Hinj. apply NoDup_alt. intros i j t. unfold imap_jobs.
  rewrite !list_lookup_fmap, !list_lookup_imap.
  destruct (urls !! i); [|discriminate]. destruct (urls !! j); [|discriminate].
  simpl. intros [= <-] [= H]. apply Hinj. congruence.
Qed.

Lemma verdicts_fetch_events outputDirectory url metadata o :
  verdicts (fetch_events outputDirectory url metadata o)
  = [fetch_verdict outputDirectory url o].
Proof. destruct o; destruct metadata; reflexivity. Qed.

Lemma events_of_main_log t m : t <> TMain -> events_of t (main_log m) = [].
Proof. intros H. destruct t; [congruence|reflexivity|reflexivity]. Qed.

Lemma events_of_fetch_in_mirror_phase w fs (f : string -> Prog unit) urls schedule i :
  events_of (TFetch i) (pool_trace (promise_all w fs (imap_jobs TMirror f urls) schedule))
  = [].
Proof.
  apply events_of_none.
  eapply Forall_impl; [apply promise_all_tids|].
  intros te (j & -> & _). discriminate.
Qed.

Lemma events_of_mirror_in_fetch_phase w fs (f : string -> Prog unit) urls schedule i :
  events_of (TMirror i) (pool_trace (promise_all w fs (imap_jobs TFetch f urls) schedule))
  = [].
Proof.
  apply events_of_none.
  eapply Forall_impl; [apply promise_all_tids|].
  intros te (j & -> & _). discriminate.
Qed.

(** The operations of a fetch job in the trace of [main] are those of its
    pool. *)
Lemma events_of_fetch_main outputDirectory w argv fetchSchedule mirrorSchedule fs i :
  events_of (TFetch i)
    (main outputDirectory w argv fetchSchedule mirrorSchedule fs).1.2
  = events_of (TFetch i)
      (pool_trace
         (promise_all w fs
            (imap_jobs TFetch
               (fun url => fetchAndParseURL outputDirectory url (argv_metadata argv))
               (argv_urls argv))
            fetchSchedule)).
Proof.
  unfold main.
  set (fetched := promise_all w fs _ fetchSchedule).
  destruct (pool_rejected fetched); [reflexivity|].
  destruct (argv_mirror argv); [|reflexivity].
  match goal with
  | |- context [promise_all w ?fs1 ?jobs mirrorSchedule] =>
      pose proof (events_of_fetch_in_mirror_phase w fs1 (mirror outputDirectory)
                    (argv_urls argv) mirrorSchedule i) as H2;
      set (mirrored := promise_all w fs1 jobs mirrorSchedule) in *
  end.
  destruct (pool_rejected mirrored); cbn [fst snd];
    rewrite !events_of_app, H2, !events_of_main_log by discriminate;
    cbn [app]; rewrite ?app_nil_r; reflexivity.
Qed.

(** ** Fetching only *)

Lemma mkdirs_app evs1 evs2 :
  mkdirs (evs1 ++ evs2) = (mkdirs evs1 ++ mkdirs evs2)%list.
Proof. apply omap_app. Qed.

Lemma settle_dirs {A} w t (p : Prog A) :
  forall n fs fs' evs n' p',
    settle w t n fs p = (fs', evs, n', p') ->
    mkdirs evs = [] ->
    forall k, fs' !! k = Some Dir -> fs !! k = Some Dir.
Proof.
  induction p as [a|e|X op k IH]; intros n fs fs' evs n' p'; simpl.
  - intros [= <- <- _ _] _ q H. exact H.
  - intros [= <- <- _ _] _ q H. exact H.
  - destruct op as [e|s].
    + intros [= <- <- _ _] _ q H. exact H.
    + pose proof (exec_dirs w t n fs (Call s)) as Hop. simpl in Hop.
      destruct (exec_sys w t n fs s) as [r fs1].
      destruct (settle w t (S n) fs1 (k r)) as [[[fs2 evs2] n2] p2] eqn:E.
      intros [= <- <- _ _]. rewrite mkdirs_cons. intros Hm q Hq.
      apply app_eq_nil in Hm as [Hm1 Hm2].
      apply (Hop r q Hm1). simpl. eapply IH; eauto.
Qed.

Lemma resume_dirs {A} w t (p : Prog A) :
  forall n fs fs' evs n' p',
    resume w t n fs p = (fs', evs, n', p') ->
    mkdirs evs = [] ->
    forall k, fs' !! k = Some Dir -> fs !! k = Some Dir.
Proof.
  intros n fs fs' evs n' p'.
  destruct p as [a|e|X [e|s] k]; try apply settle_dirs.
  simpl.
  destruct (settle w t (S n) fs (k (answer w X t n e))) as [[[fs2 evs2] n2] p2] eqn:E.
  intros [= <- <- _ _]. rewrite mkdirs_cons. intros Hm.
  apply app_eq_nil in Hm as [_ Hm]. eapply settle_dirs; eauto.
Qed.

Lemma dirs_kept_move fs pool t fs' evs jobs rej :
  dirs_kept fs pool ->
  (mkdirs evs = [] -> forall k, fs' !! k = Some Dir -> pool_fs pool !! k = Some Dir) ->
  dirs_kept fs
    {| pool_fs := fs';
       pool_trace := (pool_trace pool ++ tag t evs)%list;
       pool_jobs := jobs;
       pool_rejected := rej |}.
Proof.
  intros H Hmove. unfold dirs_kept. cbn [pool_fs pool_trace].
  rewrite all_events_app, mkdirs_app. intros Hm k Hk.
  apply app_eq_nil in Hm as [Hm1 Hm2]. apply (H Hm1), (Hmove Hm2), Hk.
Qed.

Lemma promise_all_dirs w fs jobs schedule :
  dirs_kept fs (promise_all w fs jobs schedule).
Proof.
  apply (promise_all_invariant (dirs_kept fs)).
  - intros _ k H. exact H.
  - intros pool t p _ H. unfold spawn.
    destruct (settle w t 0 (pool_fs pool) p) as [[[fs' evs] n'] p'] eqn:E.
    apply dirs_kept_move; [exact H|]. eapply settle_dirs, E.
  - intros pool i H. unfold step.
    destruct (pool_jobs pool !! i) as [[t n p]|]; [|exact H].
    destruct (resume w t n (pool_fs pool) p) as [[[fs' evs] n'] p'] eqn:E.
    apply dirs_kept_move; [exact H|]. eapply resume_dirs, E.
  - intros pool i H. unfold finish.
    destruct (pool_jobs pool !! i) as [[t n p]|]; [|exact H].
    destruct (run w t n (pool_fs pool) p) as [[fs' evs] res] eqn:E.
    apply dirs_kept_move; [exact H|]. eapply run_dirs, E.
Qed.

Lemma fetchAndParseURL_no_mkdir outputDirectory url metadata :
  uniform is_mkdir (fetchAndParseURL outputDirectory url metadata)
  /\ weight is_mkdir
       (default_events (fetchAndParseURL outputDirectory url metadata)) = 0.
Proof.
  assert (H : forall evs res,
             path (fetchAndParseURL outputDirectory url metadata) evs res ->
             weight is_mkdir evs = 0).
  { intros evs res Hp. apply fetch_path in Hp as (_ & o & -> & _).
    destruct o; destruct metadata; reflexivity. }
  split; [|eapply H, default_path].
  intros evs res Hp. rewrite (H _ _ Hp). symmetry. eapply H, default_path.
Qed.

Lemma mkdirs_fetch_phase outputDirectory w fs urls metadata schedule :
  mkdirs (all_events (pool_trace
    (promise_all w fs
       (imap_jobs TFetch (fun url => fetchAndParseURL outputDirectory url metadata)
          urls)
       schedule))) = [].
Proof.
  apply length_zero_iff_nil.
  change (weight is_mkdir
            (all_events (pool_trace
               (promise_all w fs
                  (imap_jobs TFetch
                     (fun url => fetchAndParseURL outputDirectory url metadata) urls)
                  schedule))) = 0).
  rewrite promise_all_weight.
  - rewrite (imap_jobs_sum (fun p => weight is_mkdir (default_events p)) _ 0);
      [lia|]. intros url. apply fetchAndParseURL_no_mkdir.
  - apply (imap_jobs_Forall (uniform is_mkdir)). intros url.
    apply fetchAndParseURL_no_mkdir.
Qed.

(** X16: without [--mirror], [main] is fulfilled whatever the URLs are and
    whatever fails, in whatever order the jobs are resumed: every failure
    is caught in its job.  It launches no browser, runs no mirror job, calls
    [fs.mkdirSync] nowhere, and the directories afterwards are those that
    were there before. *)
Theorem main_without_mirror_is_fulfilled outputDirectory w urls metadata
    fetchSchedule mirrorSchedule fs :
  let r := main outputDirectory w (mkArgv urls metadata false)
             fetchSchedule mirrorSchedule fs in
  r.2 = Ok tt
  /\ launches (all_events r.1.2) = []
  /\ (forall i, events_of (TMirror i) r.1.2 = [])
  /\ mkdirs (all_events r.1.2) = []
  /\ (forall k, r.1.1 !! k = Some Dir <-> fs !! k = Some Dir).
Proof.
  unfold main. cbn [argv_urls argv_metadata argv_mirror].
  rewrite promise_all_quiet
    by (apply (imap_jobs_Forall never_throws); intros u;
        apply fetchAndParseURL_never_throws).
  cbn [fst snd].
  pose proof (launches_fetch_phase outputDirectory w fs urls metadata fetchSchedule)
    as Hl.
  pose proof (mkdirs_fetch_phase outputDirectory w fs urls metadata fetchSchedule)
    as Hm.
  pose proof (promise_all_dirs w fs
                (imap_jobs TFetch
                   (fun url => fetchAndParseURL outputDirectory url metadata) urls)
                fetchSchedule Hm) as Hd.
  pose proof (promise_all_le w fs
                (imap_jobs TFetch
                   (fun url => fetchAndParseURL outputDirectory url metadata) urls)
                fetchSchedule) as Hle.
  split; [reflexivity|]. split; [|split; [|split]].
  - rewrite all_events_append. unfold launches. rewrite omap_app.
    apply length_zero_iff_nil in Hl. unfold launches in Hl. rewrite Hl. reflexivity.
  - intros i. rewrite events_of_app, events_of_mirror_in_fetch_phase.
    reflexivity.
  - rewrite all_events_append, mkdirs_app, Hm. reflexivity.
  - intros k. split; [apply Hd|].
    intros Hk. specialize (Hle k). rewrite Hk in Hle. exact Hle.
Qed.

(** ** The last line of [main] *)

Lemma batch_completed_app tr1 tr2 :
  batch_completed (tr1 ++ tr2) = batch_completed tr1 || batch_completed tr2.
Proof.
  unfold batch_completed. rewrite all_events_append, omap_app.
  destruct (omap is_last_line (all_events tr1)); reflexivity.
Qed.

Lemma batch_completed_pool w fs (f : string -> Prog unit) mk urls schedule :
  (forall url, uniform is_last_line (f url)
               /\ weight is_last_line (default_events (f url)) = 0) ->
  batch_completed (pool_trace (promise_all w fs (imap_jobs mk f urls) schedule))
  = false.
Proof.
  intros H. unfold batch_completed.
  rewrite (no_last_line_in_pool w fs f mk urls schedule H). reflexivity.
Qed.

(** X17: [main] prints [Mirroring process completed.] exactly when it was
    called with [--mirror] and is fulfilled, in whatever order the jobs are
    resumed: no job prints that line, and [main] does not print it when a
    mirror job was rejected. *)
Theorem main_last_line_iff_mirrored outputDirectory w argv
    fetchSchedule mirrorSchedule fs :
  let r := main outputDirectory w argv fetchSchedule mirrorSchedule fs in
  batch_completed r.1.2 = argv_mirror argv && is_ok r.2.
Proof.
  unfold main. cbn zeta.
  rewrite promise_all_quiet
    by (apply (imap_jobs_Forall never_throws); intros u;
        apply fetchAndParseURL_never_throws).
  pose proof (batch_completed_pool w fs
                (fun url => fetchAndParseURL outputDirectory url (argv_metadata argv))
                TFetch (argv_urls argv) fetchSchedule
                (fun u => fetchAndParseURL_no_last_line outputDirectory u
                            (argv_metadata argv))) as H1.
  set (fetched := promise_all w fs _ fetchSchedule) in *.
  destruct (argv_mirror argv); cbn [andb].
  2:{ cbn [fst snd]. rewrite batch_completed_app, H1. reflexivity. }
  pose proof (batch_completed_pool w (pool_fs fetched) (mirror outputDirectory)
                TMirror (argv_urls argv) mirrorSchedule
                (mirror_no_last_line outputDirectory)) as H2.
  set (mirrored := promise_all w (pool_fs fetched) _ mirrorSchedule) in *.
  destruct (pool_rejected mirrored); cbn [fst snd is_ok];
    rewrite !batch_completed_app, H1, H2; reflexivity.
Qed.

(** ** No URL *)

Lemma promise_all_nil w fs schedule :
  promise_all w fs [] schedule = mkPool fs [] [] None.
Proof.
  unfold promise_all. simpl.
  induction schedule as [|i schedule IH]; [reflexivity|].
  simpl. exact IH.
Qed.

(** X18: called without a URL, [main] starts no job and is fulfilled: it prints
    its first line, with [--mirror] also the two lines around the mirroring,
    and touches no file. *)
Theorem main_without_urls outputDirectory w metadata mirrorFlag
    fetchSchedule mirrorSchedule fs :
  main outputDirectory w (mkArgv [] metadata mirrorFlag) fetchSchedule mirrorSchedule fs
  = (fs,
     (main_log (StartingProcessing [])
      ++ if mirrorFlag
         then main_log StartingMirroringProcess ++ main_log MirroringProcessCompleted
         else [])%list,
     Ok tt).
Proof.
  unfold main. cbn [argv_urls argv_metadata argv_mirror imap_jobs imap].
  rewrite !promise_all_nil. destruct mirrorFlag; reflexivity.
Qed.

(** ** A page that cannot be mirrored *)

(** X19: with [--mirror], one URL that [new URL] rejects, or whose page does
    not load ([page.goto] is the fourth operation of a mirror job, the one
    numbered 3), makes [main] reject, whatever the other URLs are and in
    whatever order the jobs are resumed; [main] then does not print its
    last line. *)
Theorem main_rejected_by_one_page outputDirectory w urls metadata i url
    fetchSchedule mirrorSchedule fs :
  urls !! i = Some url ->
  parses w url = false
  \/ (forall page, is_ok (answer w _ (TMirror i) 3 (PageGoto page url true)) = false) ->
  let r := main outputDirectory w (mkArgv urls metadata true)
             fetchSchedule mirrorSchedule fs in
  is_ok r.2 = false /\ batch_completed r.1.2 = false.
Proof.
  intros Hi [H|H]; apply (main_rejected_by_one_job _ _ _ _ i url); auto.
  - apply mirror_doomed_invalid, H.
  - apply mirror_doomed_unreachable, H.
Qed.

Lemma main_rejected_by_one_page_two_is_down :
  let w := Web.world Scenario.two_is_down Scenario.three_urls in
  let r := main "outputRoot" w (mkArgv Scenario.three_urls false true) [0; 2] [2; 1; 0] ∅ in
  is_ok r.2 = false /\ batch_completed r.1.2 = false.
Proof.
  intros w.
  apply (main_rejected_by_one_page "outputRoot" w Scenario.three_urls false 1
           "https://two.example" [0; 2] [2; 1; 0] ∅).
  - reflexivity.
  - right. intros page. reflexivity.
Defined.

(** ** The jobs start in order *)

Lemma fold_trace {I} (f : Pool -> I -> Pool) :
  (forall pool i, exists more, pool_trace (f pool i) = (pool_trace pool ++ more)%list) ->
  forall l pool,
    exists more, pool_trace (fold_left f l pool) = (pool_trace pool ++ more)%list.
Proof.
  intros Hf. induction l as [|i l IH]; intros pool; simpl.
  - exists []. rewrite app_nil_r. reflexivity.
  - destruct (IH (f pool i)) as [more2 ->]. destruct (Hf pool i) as [more1 ->].
    exists (more1 ++ more2)%list. rewrite app_assoc. reflexivity.
Qed.

Lemma step_trace w pool i :
  exists more, pool_trace (step w pool i) = (pool_trace pool ++ more)%list.
Proof.
  unfold step. destruct (pool_jobs pool !! i) as [[t n p]|].
  - destruct (resume w t n (pool_fs pool) p) as [[[fs' evs] n'] p'].
    eexists. reflexivity.
  - exists []. rewrite app_nil_r. reflexivity.
Qed.

Lemma finish_trace w pool i :
  exists more, pool_trace (finish w pool i) = (pool_trace pool ++ more)%list.
Proof.
  unfold finish. destruct (pool_jobs pool !! i) as [[t n p]|].
  - destruct (run w t n (pool_fs pool) p) as [[fs' evs] res].
    eexists. reflexivity.
  - exists []. rewrite app_nil_r. reflexivity.
Qed.

(** The trace of [Promise.all] begins with what the jobs do when they are
    called. *)
Lemma promise_all_trace w fs jobs schedule :
  exists more,
    pool_trace (promise_all w fs jobs schedule)
    = (pool_trace (fold_left (fun pool '(t, p) => spawn w pool t p) jobs
                     (mkPool fs [] [] None))
       ++ more)%list.
Proof.
  unfold promise_all.
  destruct (fold_trace (finish w) (finish_trace w) (seq 0 (length jobs))
              (fold_left (step w) schedule
                 (fold_left (fun pool '(t, p) => spawn w pool t p) jobs
                    (mkPool fs [] [] None)))) as [more2 ->].
  destruct (fold_trace (step w) (step_trace w) schedule
              (fold_left (fun pool '(t, p) => spawn w pool t p) jobs
                 (mkPool fs [] [] None))) as [more1 ->].
  exists (more1 ++ more2)%list. rewrite app_assoc. reflexivity.
Qed.

Lemma logged_app evs1 evs2 :
  logged (evs1 ++ evs2) = (logged evs1 ++ logged evs2)%list.
Proof. apply omap_app. Qed.

(** Called, a job prints its first line and runs to its first [await]. *)
Lemma spawn_first_lines w (first : string -> Msg) (f : string -> Prog unit) :
  (forall t fs url,
      exists evs n p,
        settle w t 0 fs (f url) = (fs, evs, n, p) /\ logged evs = [first url]) ->
  forall urls (F : nat -> string -> Tid * Prog unit) pool,
    (forall i url, (F i url).2 = f url) ->
    logged (all_events (pool_trace
      (fold_left (fun pool '(t, p) => spawn w pool t p) (imap F urls) pool)))
    = (logged (all_events (pool_trace pool)) ++ map first urls)%list.
Proof.
  intros Hsettle.
  induction urls as [|url urls IH]; intros F pool HF; simpl.
  - rewrite app_nil_r. reflexivity.
  - rewrite IH by (intros i u; apply HF).
    specialize (HF 0 url). destruct (F 0 url) as [t p]. simpl in HF. subst p.
    unfold spawn. destruct (Hsettle t (pool_fs pool) url) as (evs & n & p & -> & Hl).
    cbn [pool_trace]. rewrite all_events_app, logged_app, Hl, <- app_assoc.
    reflexivity.
Qed.

Lemma settle_fetchAndParseURL outputDirectory w metadata t fs url :
  exists evs n p,
    settle w t 0 fs (fetchAndParseURL outputDirectory url metadata) = (fs, evs, n, p)
    /\ logged evs = [first_line w url].
Proof.
  unfold fetchAndParseURL, isValidUrl, first_line, parses.
  destruct (is_empty url); simpl.
  - do 3 eexists. split; reflexivity.
  - destruct (url_parse w url); simpl; do 3 eexists; split; reflexivity.
Qed.

Lemma settle_mirror outputDirectory w t fs url :
  exists evs n p,
    settle w t 0 fs (mirror outputDirectory url) = (fs, evs, n, p)
    /\ logged evs = [StartingMirroring url].
Proof. do 3 eexists. split; reflexivity. Qed.

Lemma first_lines_pool w fs (first : string -> Msg) (f : string -> Prog unit)
    mk urls schedule :
  (forall t fs url,
      exists evs n p,
        settle w t 0 fs (f url) = (fs, evs, n, p) /\ logged evs = [first url]) ->
  exists rest,
    logged (all_events (pool_trace (promise_all w fs (imap_jobs mk f urls) schedule)))
    = (map first urls ++ rest)%list.
Proof.
  intros Hsettle.
  destruct (promise_all_trace w fs (imap_jobs mk f urls) schedule) as [more ->].
  rewrite all_events_append, logged_app. unfold imap_jobs.
  rewrite (spawn_first_lines w first f Hsettle) by reflexivity.
  eexists. reflexivity.
Qed.

(** X20: [main] calls the jobs of a phase one after the other before any of
    them is resumed, since an [async] function runs to its first [await]
    when it is called.  So after the first line of [main] come the first
    lines of the fetch jobs in the order of the arguments, [Processing URL]
    for a URL that [isValidUrl] accepts and [Invalid URL skipped] for the
    others, and only then what the jobs print later; and with [--mirror],
    after [Starting mirroring process...] come the lines [Starting
    mirroring for URL] of all the URLs in that order. *)
Theorem main_starts_the_jobs_in_order outputDirectory w argv
    fetchSchedule mirrorSchedule fs :
  let r := main outputDirectory w argv fetchSchedule mirrorSchedule fs in
  let urls := argv_urls argv in
  exists fetchRest mirrorRest,
    logged (all_events r.1.2)
    = (StartingProcessing urls :: map (first_line w) urls ++ fetchRest
       ++ if argv_mirror argv
          then StartingMirroringProcess :: map StartingMirroring urls ++ mirrorRest
          else [])%list.
Proof.
  unfold main. cbn zeta.
  rewrite promise_all_quiet
    by (apply (imap_jobs_Forall never_throws); intros u;
        apply fetchAndParseURL_never_throws).
  destruct (first_lines_pool w fs (first_line w)
              (fun url => fetchAndParseURL outputDirectory url (argv_metadata argv))
              TFetch (argv_urls argv) fetchSchedule
              (fun t fs url => settle_fetchAndParseURL outputDirectory w
                                 (argv_metadata argv) t fs url))
    as [fetchRest H1].
  set (fetched := promise_all w fs _ fetchSchedule) in *.
  destruct (argv_mirror argv).
  2:{ exists fetchRest, []. cbn [fst snd].
      rewrite all_events_append, logged_app, H1, app_nil_r. reflexivity. }
  destruct (first_lines_pool w (pool_fs fetched) StartingMirroring
              (mirror outputDirectory) TMirror (argv_urls argv) mirrorSchedule
              (settle_mirror outputDirectory w))
    as [mirrorRest H2].
  set (mirrored := promise_all w (pool_fs fetched) _ mirrorSchedule) in *.
  destruct (pool_rejected mirrored); cbn [fst snd].
  - exists fetchRest, mirrorRest.
    rewrite !all_events_append, !logged_app, H1, H2, <- !app_assoc. reflexivity.
  - exists fetchRest, (mirrorRest ++ [MirroringProcessCompleted])%list.
    rewrite !all_events_append, !logged_app, H1, H2, <- !app_assoc. reflexivity.
Qed.

(** * What a fulfilled batch has done *)

Lemma first_rejection_None seen new :
  first_rejection seen new = None -> seen = None /\ new = None.
Proof. destruct seen; simpl; [discriminate|auto]. Qed.

Lemma promise_all_accounted w fs jobs schedule :
  accounted (promise_all w fs jobs schedule).
Proof.
  apply (promise_all_invariant accounted).
  - intros _. constructor.
  - intros pool t p _ H. unfold spawn.
    destruct (settle w t 0 (pool_fs pool) p) as [[[fs' evs] n'] p'].
    unfold accounted. cbn [pool_rejected pool_jobs]. intros Hr.
    apply first_rejection_None in Hr as [Hr1 Hr2].
    apply Forall_app. split; [apply H, Hr1|]. constructor; [exact Hr2|constructor].
  - intros pool i H. unfold step.
    destruct (pool_jobs pool !! i) as [[t n p]|]; [|exact H].
    destruct (resume w t n (pool_fs pool) p) as [[[fs' evs] n'] p'].
    unfold accounted. cbn [pool_rejected pool_jobs]. intros Hr.
    apply first_rejection_None in Hr as [Hr1 Hr2].
    apply Forall_insert; [apply H, Hr1|exact Hr2].
  - intros pool i H. unfold finish.
    destruct (pool_jobs pool !! i) as [[t n p]|]; [|exact H].
    destruct (run w t n (pool_fs pool) p) as [[fs' evs] res].
    unfold accounted. cbn [pool_rejected pool_jobs]. intros Hr.
    apply first_rejection_None in Hr as [Hr1 Hr2].
    apply Forall_insert; [apply H, Hr1|exact Hr2].
Qed.

(** When [Promise.all] settles, every job has run to its end, and its
    events in the trace are the execution that gave its result. *)
Lemma promise_all_settles w fs jobs schedule i t p :
  NoDup (map fst jobs) ->
  jobs !! i = Some (t, p) ->
  exists job res,
    pool_jobs (promise_all w fs jobs schedule) !! i = Some job
    /\ job_prog job = lift res
    /\ path p (events_of t (pool_trace (promise_all w fs jobs schedule))) res.
Proof.
  intros Hnd Hi. unfold promise_all.
  set (started := fold_left (fun pool '(t, p) => spawn w pool t p) jobs
                    (mkPool fs [] [] None)).
  assert (H1 : projected jobs started
               /\ length (pool_jobs started) = length jobs).
  { subst started.
    assert (Hgen : forall todo done pool,
               jobs = (done ++ todo)%list ->
               projected jobs pool -> length (pool_jobs pool) = length done ->
               projected jobs
                 (fold_left (fun pool '(t, p) => spawn w pool t p) todo pool)
               /\ length (pool_jobs
                            (fold_left (fun pool '(t, p) => spawn w pool t p)
                               todo pool))
                  = length jobs).
    { induction todo as [|[t' p'] todo IH]; intros done pool Hjobs Hp Hlen; simpl.
      - split; [exact Hp|]. rewrite Hlen, Hjobs, app_nil_r. reflexivity.
      - apply (IH (done ++ [(t', p')])%list).
        + rewrite <- app_assoc. exact Hjobs.
        + apply projected_spawn; [exact Hnd|exact Hp|].
          rewrite Hlen, Hjobs. rewrite lookup_app_r by lia.
          rewrite Nat.sub_diag. reflexivity.
        + rewrite spawn_length, length_app, Hlen. simpl. lia. }
    apply (Hgen jobs [] (mkPool fs [] [] None)); [reflexivity| |reflexivity].
    split; [intros j job Hj; discriminate|reflexivity]. }
  destruct H1 as [H1 Hlen1].
  set (scheduled := fold_left (step w) schedule started).
  assert (H2 : projected jobs scheduled
               /\ length (pool_jobs scheduled) = length jobs).
  { subst scheduled. revert H1 Hlen1. generalize started. clear started.
    induction schedule as [|j schedule IH]; intros pool H1 Hlen1; simpl; [auto|].
    apply IH; [apply projected_step; assumption|].
    unfold step. destruct (pool_jobs pool !! j) as [[t' n' p']|]; [|exact Hlen1].
    destruct (resume w t' n' (pool_fs pool) p') as [[[fs' evs0] n''] p''].
    simpl. rewrite length_insert. exact Hlen1. }
  destruct H2 as [H2 Hlen2].
  set (drained := fold_left (finish w) (seq 0 (length jobs)) scheduled).
  assert (H3 : projected jobs drained
               /\ length (pool_jobs drained) = length jobs).
  { subst drained. revert H2 Hlen2. generalize scheduled. clear scheduled.
    generalize (seq 0 (length jobs)).
    induction l as [|j l IH]; intros pool H2 Hlen2; simpl; [auto|].
    apply IH; [apply projected_finish; assumption|].
    rewrite finish_length. exact Hlen2. }
  destruct H3 as [[H3 _] Hlen3].
  pose proof (lookup_lt_Some _ _ _ Hi) as Hlt.
  destruct (lookup_lt_is_Some_2 (pool_jobs drained) i) as [job Hjob]; [lia|].
  destruct (H3 _ _ Hjob) as (p0 & Hi0 & Hp0).
  rewrite Hi in Hi0. injection Hi0 as Ht Hp. subst t p.
  destruct (drain_settles w (length jobs) 0 scheduled) with (j := i) (job := job)
    as [res Hres]; [intros j' job' Hj'; lia|lia|exact Hjob|].
  exists job, res. split; [exact Hjob|]. split; [exact Hres|].
  specialize (Hp0 [] res). rewrite app_nil_r in Hp0.
  apply Hp0. rewrite Hres. apply path_lift. auto.
Qed.

(** A job of a [Promise.all] that is fulfilled was fulfilled. *)
Lemma promise_all_fulfilled w fs jobs schedule i t p :
  NoDup (map fst jobs) ->
  jobs !! i = Some (t, p) ->
  pool_rejected (promise_all w fs jobs schedule) = None ->
  path p (events_of t (pool_trace (promise_all w fs jobs schedule))) (Ok tt).
Proof.
  intros Hnd Hi Hr.
  destruct (promise_all_settles w fs jobs schedule i t p Hnd Hi)
    as (job & res & Hjob & Hres & Hpath).
  pose proof (promise_all_accounted w fs jobs schedule Hr) as Hacc.
  rewrite Forall_lookup in Hacc. specialize (Hacc _ _ Hjob).
  rewrite Hres in Hacc. destruct res as [[]|e]; [exact Hpath|discriminate Hacc].
Qed.

(** ** The events of a pool *)

Lemma explained_ge w t fs fs' fs'' ev :
  fs_le fs' fs'' -> explained w t fs fs' ev -> explained w t fs fs'' ev.
Proof.
  intros H. destruct ev as [X op r]. intros (n & fsI & H1 & H2 & ->).
  exists n, fsI. split; [exact H1|]. split; [eapply fs_le_trans; eauto|reflexivity].
Qed.

Lemma settle_explained {A} w t (p : Prog A) :
  forall n fs fs' evs n' p',
    settle w t n fs p = (fs', evs, n', p') ->
    fs_le fs fs' /\ Forall (explained w t fs fs') evs.
Proof.
  induction p as [a|e|X op k IH]; intros n fs fs' evs n' p'; simpl.
  - intros [= <- <- _ _]. split; [apply fs_le_refl|constructor].
  - intros [= <- <- _ _]. split; [apply fs_le_refl|constructor].
  - destruct op as [e|s].
    + intros [= <- <- _ _]. split; [apply fs_le_refl|constructor].
    + pose proof (exec_le w t n fs (Call s)) as Hle. simpl in Hle.
      destruct (exec_sys w t n fs s) as [r fs1] eqn:Eop.
      destruct (settle w t (S n) fs1 (k r)) as [[[fs2 evs2] n2] p2] eqn:E.
      intros [= <- <- _ _]. apply IH in E as [Hle2 Hall]. simpl in Hle.
      split; [eapply fs_le_trans; eauto|]. constructor.
      * exists n, fs. simpl. rewrite Eop. simpl. split; [apply fs_le_refl|]. auto.
      * eapply Forall_impl; [exact Hall|]. intros ev. apply explained_le, Hle.
Qed.

Lemma resume_explained {A} w t (p : Prog A) :
  forall n fs fs' evs n' p',
    resume w t n fs p = (fs', evs, n', p') ->
    fs_le fs fs' /\ Forall (explained w t fs fs') evs.
Proof.
  intros n fs fs' evs n' p'.
  destruct p as [a|e|X [e|s] k]; try apply settle_explained.
  simpl.
  destruct (settle w t (S n) fs (k (answer w X t n e))) as [[[fs2 evs2] n2] p2] eqn:E.
  intros [= <- <- _ _]. apply settle_explained in E as [Hle Hall].
  split; [exact Hle|]. constructor; [|exact Hall].
  exists n, fs. simpl. split; [apply fs_le_refl|]. auto.
Qed.

Lemma trace_explained_move w fs pool t fs' evs jobs rej :
  trace_explained w fs pool ->
  fs_le (pool_fs pool) fs' /\ Forall (explained w t (pool_fs pool) fs') evs ->
  trace_explained w fs
    {| pool_fs := fs';
       pool_trace := (pool_trace pool ++ tag t evs)%list;
       pool_jobs := jobs;
       pool_rejected := rej |}.
Proof.
  intros [Hle Hall] [Hle' Hall']. split; cbn [pool_fs pool_trace].
  - eapply fs_le_trans; eauto.
  - apply Forall_app. split.
    + eapply Forall_impl; [exact Hall|]. intros te. apply explained_ge, Hle'.
    + unfold tag. apply Forall_fmap.
      eapply Forall_impl; [exact Hall'|]. intros ev. simpl.
      apply explained_le, Hle.
Qed.

Lemma promise_all_explained w fs jobs schedule :
  trace_explained w fs (promise_all w fs jobs schedule).
Proof.
  apply (promise_all_invariant (trace_explained w fs)).
  - split; [apply fs_le_refl|constructor].
  - intros pool t p _ H. unfold spawn.
    destruct (settle w t 0 (pool_fs pool) p) as [[[fs' evs] n'] p'] eqn:E.
    apply trace_explained_move; [exact H|]. eapply settle_explained, E.
  - intros pool i H. unfold step.
    destruct (pool_jobs pool !! i) as [[t n p]|]; [|exact H].
    destruct (resume w t n (pool_fs pool) p) as [[[fs' evs] n'] p'] eqn:E.
    apply trace_explained_move; [exact H|]. eapply resume_explained, E.
  - intros pool i H. unfold finish.
    destruct (pool_jobs pool !! i) as [[t n p]|]; [|exact H].
    destruct (run w t n (pool_fs pool) p) as [[fs' evs] res] eqn:E.
    apply trace_explained_move; [exact H|]. eapply run_explained, E.
Qed.

Lemma events_of_explained w fs fs' t tr :
  Forall (fun te => explained w te.1 fs fs' te.2) tr ->
  Forall (explained w t fs fs') (events_of t tr).
Proof.
  induction 1 as [|[t' ev] tr Hev _ IH]; [constructor|].
  unfold events_of. cbn [omap list_omap]. fold (events_of t tr).
  destruct (Tid_eqb t t') eqn:E; [|exact IH].
  apply Tid_eqb_eq in E as ->. constructor; [exact Hev|exact IH].
Qed.

(** X21: when [main] is fulfilled with [--mirror], every URL has been mirrored,
    in whatever order the jobs were resumed: [new URL] accepts the URL, the
    directory of its host exists and holds [index.html], every path that
    the job of the URL reported as saved is a file, the job launched one
    browser and closed it, and it printed that it completed. *)
Theorem fulfilled_main_has_mirrored_every_page outputDirectory w urls metadata
    fetchSchedule mirrorSchedule fs fs' tr i url :
  main outputDirectory w (mkArgv urls metadata true) fetchSchedule mirrorSchedule fs
  = (fs', tr, Ok tt) ->
  urls !! i = Some url ->
  exists urlObj browser,
    url_parse w url = Some urlObj
    /\ Fs.existsSync fs' (Path.join outputDirectory (hostname urlObj)) = true
    /\ is_file fs'
         (Path.join (Path.join outputDirectory (hostname urlObj)) "index.html")
    /\ Forall (is_file fs') (saved_lines (events_of (TMirror i) tr))
    /\ launched (events_of (TMirror i) tr) = [browser]
    /\ closed (events_of (TMirror i) tr) = [browser]
    /\ completions (events_of (TMirror i) tr) = [url].
Proof.
  unfold main. cbn [argv_urls argv_metadata argv_mirror].
  rewrite promise_all_quiet
    by (apply (imap_jobs_Forall never_throws); intros u;
        apply fetchAndParseURL_never_throws).
  set (fetched := promise_all w fs _ fetchSchedule).
  pose proof (promise_all_explained w (pool_fs fetched)
                (imap_jobs TMirror (mirror outputDirectory) urls) mirrorSchedule)
    as [_ Hex].
  pose proof (promise_all_fulfilled w (pool_fs fetched)
                (imap_jobs TMirror (mirror outputDirectory) urls) mirrorSchedule
                i (TMirror i) (mirror outputDirectory url)) as Hjob.
  set (mirrored := promise_all w (pool_fs fetched) _ mirrorSchedule) in *.
  destruct (pool_rejected mirrored) eqn:Hrej; [discriminate|].
  intros [= <- <-] Hi.
  assert (Hevs : events_of (TMirror i)
                   (((main_log (StartingProcessing urls) ++ pool_trace fetched)
                     ++ main_log StartingMirroringProcess ++ pool_trace mirrored)
                    ++ main_log MirroringProcessCompleted)%list
                 = events_of (TMirror i) (pool_trace mirrored)).
  { rewrite !events_of_app, !events_of_main_log by discriminate.
    subst fetched. rewrite events_of_mirror_in_fetch_phase.
    cbn [app]. rewrite app_nil_r. reflexivity. }
  match goal with
  | |- context [saved_lines (events_of (TMirror i) ?T)] =>
      replace (events_of (TMirror i) T)
        with (events_of (TMirror i) (pool_trace mirrored))
        by (symmetry; exact Hevs)
  end.
  clear Hevs.
  apply (events_of_explained _ _ _ (TMirror i)) in Hex.
  specialize (Hjob (imap_jobs_NoDup (mirror outputDirectory) urls)).
  unfold imap_jobs in Hjob at 1. rewrite list_lookup_imap, Hi in Hjob.
  specialize (Hjob eq_refl eq_refl).
  apply mirror_path in Hjob as (o & outcomes & closing & Hfit & Hevs & Hres).
  symmetry in Hres. apply mirror_result_ok in Hres
    as (-> & browser & page & nav & content & urlObj & dirExists & elements & ->).
  rewrite Hevs in *. clear Hevs.
  pose proof (explained_writes _ _ _ _ _ Hex) as Hfiles.
  cbn [mirror_events page_events] in Hex.
  apply Forall_app in Hex as [Hex _]. apply Forall_app in Hex as [Hex _].
  apply saved_events_explained in Hex as (Hp & Hdir & _ & Hindex).
  exists urlObj, browser.
  split; [exact Hp|]. split; [exact Hdir|]. split; [exact Hindex|].
  split; [|split; [|split]].
  - rewrite saved_lines_mirror_events. apply Forall_fmap.
    eapply Forall_impl; [exact Hfiles|]. intros [p d] [_ H]. exact H.
  - rewrite launched_mirror_events. reflexivity.
  - rewrite closed_mirror_events. reflexivity.
  - rewrite completions_mirror_events. reflexivity.
Qed.

Lemma fulfilled_main_has_mirrored_example_com :
  let w := Web.world Scenario.example_com ["https://example.com"] in
  let r := main "outputRoot" w (mkArgv ["https://example.com"] false true) [] [] ∅ in
  exists urlObj browser,
    url_parse w "https://example.com" = Some urlObj
    /\ Fs.existsSync r.1.1 (Path.join "outputRoot" (hostname urlObj)) = true
    /\ is_file r.1.1
         (Path.join (Path.join "outputRoot" (hostname urlObj)) "index.html")
    /\ Forall (is_file r.1.1) (saved_lines (events_of (TMirror 0) r.1.2))
    /\ launched (events_of (TMirror 0) r.1.2) = [browser]
    /\ closed (events_of (TMirror 0) r.1.2) = [browser]
    /\ completions (events_of (TMirror 0) r.1.2) = ["https://example.com"].
Proof.
  intros w r.
  assert (Hmain : main "outputRoot" w (mkArgv ["https://example.com"] false true)
                    [] [] ∅
                  = (r.1.1, r.1.2, Ok tt)) by (vm_compute; reflexivity).
  exact (fulfilled_main_has_mirrored_every_page "outputRoot" w
           ["https://example.com"] false [] [] ∅ r.1.1 r.1.2 0
           "https://example.com" Hmain eq_refl).
Defined.

(** ** Each URL of a batch is fetched on its own *)

Lemma main_fs_after_fetch outputDirectory w argv fetchSchedule mirrorSchedule fs :
  fs_le
    (pool_fs
       (promise_all w fs
          (imap_jobs TFetch
             (fun url => fetchAndParseURL outputDirectory url (argv_metadata argv))
             (argv_urls argv))
          fetchSchedule))
    (main outputDirectory w argv fetchSchedule mirrorSchedule fs).1.1.
Proof.
  unfold main.
  set (fetched := promise_all w fs _ fetchSchedule).
  destruct (pool_rejected fetched); [apply fs_le_refl|].
  destruct (argv_mirror argv); [|apply fs_le_refl].
  match goal with
  | |- context [promise_all w ?fs1 ?jobs mirrorSchedule] =>
      pose proof (promise_all_le w fs1 jobs mirrorSchedule) as H2;
      set (mirrored := promise_all w fs1 jobs mirrorSchedule) in *
  end.
  destruct (pool_rejected mirrored); exact H2.
Qed.

Lemma requests_fetch_events outputDirectory url metadata o :
  requests (fetch_events outputDirectory url metadata o)
  = match o with
    | EmptyUrl | UrlRejected _ => []
    | _ => [url]
    end.
Proof. destruct o; destruct metadata; reflexivity. Qed.

(** X22: in a batch every URL is fetched as if it were alone: in whatever order
    the jobs are resumed, whether or not the other jobs fail, and with or
    without [--mirror], the operations of the job of a URL are one of the
    executions of [fetchAndParseURL], with the answers of the world, from
    its first operation to the one line that tells how it went.  The job
    calls [axios.get] once if [isValidUrl] accepts the URL and not at all
    otherwise, and a page that it reports as saved is a file when [main]
    ends. *)
Theorem fetch_jobs_run_to_their_verdict outputDirectory w argv
    fetchSchedule mirrorSchedule fs i url :
  argv_urls argv !! i = Some url ->
  let r := main outputDirectory w argv fetchSchedule mirrorSchedule fs in
  let evs := events_of (TFetch i) r.1.2 in
  (exists o,
      evs = fetch_events outputDirectory url (argv_metadata argv) o
      /\ fetch_fits url o
      /\ fetch_sound w (TFetch i) url (argv_metadata argv) o
      /\ verdicts evs = [fetch_verdict outputDirectory url o])
  /\ requests evs = (if negb (is_empty url) && parses w url then [url] else [])
  /\ Forall (is_file r.1.1) (saved_lines evs).
Proof.
  intros Hi. cbn zeta. rewrite events_of_fetch_main.
  pose proof (main_fs_after_fetch outputDirectory w argv fetchSchedule
                mirrorSchedule fs) as Hle.
  pose proof (promise_all_explained w fs
                (imap_jobs TFetch
                   (fun url => fetchAndParseURL outputDirectory url (argv_metadata argv))
                   (argv_urls argv))
                fetchSchedule) as [_ Hex].
  destruct (promise_all_projection w fs
              (imap_jobs TFetch
                 (fun url => fetchAndParseURL outputDirectory url (argv_metadata argv))
                 (argv_urls argv))
              fetchSchedule i (TFetch i)
              (fetchAndParseURL outputDirectory url (argv_metadata argv)))
    as [res Hpath].
  { apply imap_jobs_NoDup_inj. intros a b [= H]. exact H. }
  { unfold imap_jobs. rewrite list_lookup_imap, Hi. reflexivity. }
  set (fetched := promise_all w fs _ fetchSchedule) in *.
  apply (events_of_explained _ _ _ (TFetch i)) in Hex.
  assert (Hex' : Forall
                   (explained w (TFetch i) fs
                      (main outputDirectory w argv fetchSchedule mirrorSchedule fs).1.1)
                   (events_of (TFetch i) (pool_trace fetched))).
  { eapply Forall_impl; [exact Hex|]. intros ev. apply explained_ge, Hle. }
  clear Hex Hle.
  apply fetch_path in Hpath as (_ & o & Hevs & Hfit).
  rewrite Hevs in *. clear Hevs.
  pose proof (fetch_events_sound _ _ _ _ _ _ _ _ Hex') as Hsound.
  split; [|split].
  - exists o. split; [reflexivity|]. split; [exact Hfit|]. split; [exact Hsound|].
    apply verdicts_fetch_events.
  - rewrite requests_fetch_events, (fetch_sound_valid _ _ _ _ _ Hfit Hsound).
    destruct o; reflexivity.
  - apply explained_writes in Hex'.
    assert (Hs : saved_lines (fetch_events outputDirectory url (argv_metadata argv) o)
                 = map fst (writes (fetch_events outputDirectory url
                                      (argv_metadata argv) o)))
      by (destruct o; destruct (argv_metadata argv); reflexivity).
    rewrite Hs. apply Forall_fmap.
    eapply Forall_impl; [exact Hex'|]. intros [p d] [_ H]. exact H.
Qed.

Lemma fetch_jobs_run_to_their_verdict_three_urls :
  let w := Web.world Scenario.two_is_down Scenario.three_urls in
  let r := main "outputRoot" w (mkArgv Scenario.three_urls true true) [2; 0; 1] [1] ∅ in
  let evs := events_of (TFetch 1) r.1.2 in
  (exists o,
      evs = fetch_events "outputRoot" "https://two.example" true o
      /\ fetch_fits "https://two.example" o
      /\ fetch_sound w (TFetch 1) "https://two.example" true o
      /\ verdicts evs = [fetch_verdict "outputRoot" "https://two.example" o])
  /\ requests evs
     = (if negb (is_empty "https://two.example") && parses w "https://two.example"
        then ["https://two.example"] else [])
  /\ Forall (is_file r.1.1) (saved_lines evs).
Proof.
  intros w.
  apply (fetch_jobs_run_to_their_verdict "outputRoot" w
           (mkArgv Scenario.three_urls true true) [2; 0; 1] [1] ∅ 1
           "https://two.example").
  reflexivity.
Defined.
